(** * Resource and data-source handlers of the AWS provider: a shallow embedding

    The development follows three source files:
    - [internal/service/rds/cluster_snapshot_data_source.go]
    - [internal/service/elasticbeanstalk/configuration_template.go]
    - the EC2 transit-gateway peering-attachment accepter and route-table
      resources.

    Go code that can panic or loop is embedded in the [result] monad; code
    that talks to the provider API threads the remote state (a world [W])
    and appends every request it issues to a trace. *)

From Stdlib Require Import ZArith Lia Bool.
From stdpp Require Import base list gmap strings.

Open Scope Z_scope.

(** ** Outcomes of Go code *)

(** A Go function either returns, panics (index out of range), or, in the
    model only, exhausts the iteration budget of one of its loops. *)
Inductive result (X : Type) : Type :=
| Done (x : X)
| Panic
| Timeout.
Arguments Done {X} x.
Arguments Panic {X}.
Arguments Timeout {X}.

Definition bind {X Y} (m : result X) (k : X → result Y) : result Y :=
  match m with
  | Done x => k x
  | Panic => Panic
  | Timeout => Timeout
  end.

Notation "'let*' x ':=' m 'in' k" := (bind m (fun x => k))
  (at level 10, x binder, m at level 100, k at level 200).

Definition of_option {X} (o : option X) : result X :=
  match o with
  | Some x => Done x
  | None => Panic
  end.

(** ** Slices *)

(** A slice is a list; indices are Go [int]s.  No slice of pointers has
    anywhere near [2^62] elements, so index arithmetic is exact. *)
Definition Zlen {A} (a : list A) : Z := Z.of_nat (length a).

(** [a[i]]: [None] stands for the run-time panic. *)
Definition index {A} (a : list A) (i : Z) : option A :=
  if 0 <=? i then a !! Z.to_nat i else None.

(** [a[i], a[j] = a[j], a[i]] without the bounds checks *)
Definition swp {A} (a : list A) (i j : Z) : list A :=
  match index a i, index a j with
  | Some x, Some y => <[Z.to_nat i := y]> (<[Z.to_nat j := x]> a)
  | _, _ => a
  end.

(** [a[i], a[j] = a[j], a[i]] *)
Definition swap_slice {A} (a : list A) (i j : Z) : result (list A) :=
  match index a i, index a j with
  | Some _, Some _ => Done (swp a i j)
  | _, _ => Panic
  end.

(** ** Package [sort] of the Go standard library (Go 1.19: pattern-defeating
    quicksort) *)

Class Interface (T : Type) := {
  Len : T → Z;
  Less : T → Z → Z → result bool;
  Swap : T → Z → Z → result T
}.

Inductive sortedHint := unknownHint | increasingHint | decreasingHint.

Definition sortedHint_eqb (x y : sortedHint) : bool :=
  match x, y with
  | unknownHint, unknownHint
  | increasingHint, increasingHint
  | decreasingHint, decreasingHint => true
  | _, _ => false
  end.

(** [bits.Len(uint(n))] for a non-negative [n] *)
Definition bits_Len (n : Z) : Z := if n <=? 0 then 0 else Z.log2 n + 1.

Definition uint64 (z : Z) : Z := z mod 2 ^ 64.

(** [func (r *xorshift) Next() uint64] *)
Definition xorshift_Next (r : Z) : Z :=
  let r := Z.lxor r (uint64 (Z.shiftl r 13)) in
  let r := Z.lxor r (Z.shiftr r 17) in
  let r := Z.lxor r (uint64 (Z.shiftl r 5)) in
  r.

(** [uint(1 << shift)]: [shift] is at most 63 for a Go [int], so no bit is
    lost. *)
Definition nextPowerOfTwo (length : Z) : Z :=
  Z.shiftl 1 (bits_Len length).

Section SortPackage.
Context {T : Type} `{Interface T}.

(** [for j := i; j > a && data.Less(j, j-1); j-- { data.Swap(j, j-1) }] *)
Fixpoint insertionSort_shift (n : nat) (data : T) (a j : Z) : result T :=
  if a <? j then
    match n with
    | O => Timeout
    | S n' =>
        let* lt := Less data j (j - 1) in
        if lt : bool then
          let* data := Swap data j (j - 1) in
          insertionSort_shift n' data a (j - 1)
        else Done data
    end
  else Done data.

(** [for i := a + 1; i < b; i++ { ... }] *)
Fixpoint insertionSort_loop (n : nat) (data : T) (a b i : Z) : result T :=
  if i <? b then
    match n with
    | O => Timeout
    | S n' =>
        let* data := insertionSort_shift (Z.to_nat (i - a)) data a i in
        insertionSort_loop n' data a b (i + 1)
    end
  else Done data.

Definition insertionSort (data : T) (a b : Z) : result T :=
  insertionSort_loop (Z.to_nat (b - a)) data a b (a + 1).

(** The [for] loop of [siftDown], from [root] *)
Fixpoint siftDown_loop (n : nat) (data : T) (root hi first : Z) : result T :=
  let child := 2 * root + 1 in
  if hi <=? child then Done data
  else
    match n with
    | O => Timeout
    | S n' =>
        let* child :=
          (if child + 1 <? hi then
             let* lt := Less data (first + child) (first + child + 1) in
             Done (if lt : bool then child + 1 else child)
           else Done child) in
        let* lt := Less data (first + root) (first + child) in
        if negb lt then Done data
        else
          let* data := Swap data (first + root) (first + child) in
          siftDown_loop n' data child hi first
    end.

Definition siftDown (data : T) (lo hi first : Z) : result T :=
  siftDown_loop (Z.to_nat (hi - lo)) data lo hi first.

(** [for i := (hi - 1) / 2; i >= 0; i-- { siftDown(data, i, hi, first) }] *)
Fixpoint heapSort_build (n : nat) (data : T) (i hi first : Z) : result T :=
  if 0 <=? i then
    match n with
    | O => Timeout
    | S n' =>
        let* data := siftDown data i hi first in
        heapSort_build n' data (i - 1) hi first
    end
  else Done data.

(** [for i := hi - 1; i >= 0; i-- { data.Swap(first, first+i);
    siftDown(data, lo, i, first) }] *)
Fixpoint heapSort_pop (n : nat) (data : T) (i lo first : Z) : result T :=
  if 0 <=? i then
    match n with
    | O => Timeout
    | S n' =>
        let* data := Swap data first (first + i) in
        let* data := siftDown data lo i first in
        heapSort_pop n' data (i - 1) lo first
    end
  else Done data.

Definition heapSort (data : T) (a b : Z) : result T :=
  let first := a in
  let lo := 0 in
  let hi := b - a in
  let* data := heapSort_build (Z.to_nat ((hi - 1) ÷ 2 + 1)) data ((hi - 1) ÷ 2) hi first in
  heapSort_pop (Z.to_nat hi) data (hi - 1) lo first.

(** [for i <= j && data.Less(i, a) { i++ }] *)
Fixpoint scan_up_less (n : nat) (data : T) (a i j : Z) : result Z :=
  if i <=? j then
    let* lt := Less data i a in
    if lt : bool then
      match n with
      | O => Timeout
      | S n' => scan_up_less n' data a (i + 1) j
      end
    else Done i
  else Done i.

(** [for i <= j && !data.Less(j, a) { j-- }] *)
Fixpoint scan_down_not_less (n : nat) (data : T) (a i j : Z) : result Z :=
  if i <=? j then
    let* lt := Less data j a in
    if negb lt then
      match n with
      | O => Timeout
      | S n' => scan_down_not_less n' data a i (j - 1)
      end
    else Done j
  else Done j.

(** The unconditional [for { ... }] loop of [partition]; yields the final
    [j]. *)
Fixpoint partition_loop (n : nat) (data : T) (a i j : Z) : result (T * Z) :=
  let* i := scan_up_less (Z.to_nat (j + 1 - i)) data a i j in
  let* j := scan_down_not_less (Z.to_nat (j + 1 - i)) data a i j in
  if j <? i then Done (data, j)
  else
    match n with
    | O => Timeout
    | S n' =>
        let* data := Swap data i j in
        partition_loop n' data a (i + 1) (j - 1)
    end.

Definition partition (data : T) (a b pivot : Z) : result (T * Z * bool) :=
  let* data := Swap data a pivot in
  let i := a + 1 in
  let j := b - 1 in
  let* i := scan_up_less (Z.to_nat (j + 1 - i)) data a i j in
  let* j := scan_down_not_less (Z.to_nat (j + 1 - i)) data a i j in
  if j <? i then
    let* data := Swap data j a in
    Done (data, j, true)
  else
    let* data := Swap data i j in
    let i := i + 1 in
    let j := j - 1 in
    let* '(data, j) := partition_loop (Z.to_nat (j + 1 - i)) data a i j in
    let* data := Swap data j a in
    Done (data, j, false).

(** [for i <= j && !data.Less(a, i) { i++ }] *)
Fixpoint scan_up_not_less (n : nat) (data : T) (a i j : Z) : result Z :=
  if i <=? j then
    let* lt := Less data a i in
    if negb lt then
      match n with
      | O => Timeout
      | S n' => scan_up_not_less n' data a (i + 1) j
      end
    else Done i
  else Done i.

(** [for i <= j && data.Less(a, j) { j-- }] *)
Fixpoint scan_down_less (n : nat) (data : T) (a i j : Z) : result Z :=
  if i <=? j then
    let* lt := Less data a j in
    if lt : bool then
      match n with
      | O => Timeout
      | S n' => scan_down_less n' data a i (j - 1)
      end
    else Done j
  else Done j.

(** The [for { ... }] loop of [partitionEqual]; yields the final [i]. *)
Fixpoint partitionEqual_loop (n : nat) (data : T) (a i j : Z) : result (T * Z) :=
  let* i := scan_up_not_less (Z.to_nat (j + 1 - i)) data a i j in
  let* j := scan_down_less (Z.to_nat (j + 1 - i)) data a i j in
  if j <? i then Done (data, i)
  else
    match n with
    | O => Timeout
    | S n' =>
        let* data := Swap data i j in
        partitionEqual_loop n' data a (i + 1) (j - 1)
    end.

Definition partitionEqual (data : T) (a b pivot : Z) : result (T * Z) :=
  let* data := Swap data a pivot in
  let i := a + 1 in
  let j := b - 1 in
  partitionEqual_loop (Z.to_nat (j + 1 - i)) data a i j.

(** [for i < b && !data.Less(i, i-1) { i++ }] *)
Fixpoint scan_ordered (n : nat) (data : T) (b i : Z) : result Z :=
  if i <? b then
    let* lt := Less data i (i - 1) in
    if negb lt then
      match n with
      | O => Timeout
      | S n' => scan_ordered n' data b (i + 1)
      end
    else Done i
  else Done i.

(** [for j := i - 1; j >= 1; j-- { if !data.Less(j, j-1) { break };
    data.Swap(j, j-1) }] *)
Fixpoint shift_left (n : nat) (data : T) (j : Z) : result T :=
  if 1 <=? j then
    match n with
    | O => Timeout
    | S n' =>
        let* lt := Less data j (j - 1) in
        if negb lt then Done data
        else
          let* data := Swap data j (j - 1) in
          shift_left n' data (j - 1)
    end
  else Done data.

(** [for j := i + 1; j < b; j++ { if !data.Less(j, j-1) { break };
    data.Swap(j, j-1) }] *)
Fixpoint shift_right (n : nat) (data : T) (b j : Z) : result T :=
  if j <? b then
    match n with
    | O => Timeout
    | S n' =>
        let* lt := Less data j (j - 1) in
        if negb lt then Done data
        else
          let* data := Swap data j (j - 1) in
          shift_right n' data b (j + 1)
    end
  else Done data.

Definition maxSteps : nat := 5.
Definition shortestShifting : Z := 50.

(** [for j := 0; j < maxSteps; j++ { ... }]; [steps] is [maxSteps - j]. *)
Fixpoint partialInsertionSort_loop (steps : nat) (data : T) (a b i : Z)
  : result (T * bool) :=
  match steps with
  | O => Done (data, false)
  | S steps' =>
      let* i := scan_ordered (Z.to_nat (b - i)) data b i in
      if i =? b then Done (data, true)
      else if b - a <? shortestShifting then Done (data, false)
      else
        let* data := Swap data i (i - 1) in
        let* data :=
          (if 2 <=? i - a then shift_left (Z.to_nat (i - 1)) data (i - 1)
           else Done data) in
        let* data :=
          (if 2 <=? b - i then shift_right (Z.to_nat (b - i)) data b (i + 1)
           else Done data) in
        partialInsertionSort_loop steps' data a b i
  end.

Definition partialInsertionSort (data : T) (a b : Z) : result (T * bool) :=
  partialInsertionSort_loop maxSteps data a b (a + 1).

(** [for i := 0; i < 3; i++ { ... }] of [breakPatterns]; [k] is [3 - i]. *)
Fixpoint breakPatterns_loop (k : nat) (data : T) (a length idx i : Z)
  (random modulus : Z) : result T :=
  match k with
  | O => Done data
  | S k' =>
      let random := xorshift_Next random in
      let other := Z.land random (modulus - 1) in
      let other := if length <=? other then other - length else other in
      let* data := Swap data (idx - 1 + i) (a + other) in
      breakPatterns_loop k' data a length idx (i + 1) random modulus
  end.

Definition breakPatterns (data : T) (a b : Z) : result T :=
  let length := b - a in
  if 8 <=? length then
    let random := length in
    let modulus := nextPowerOfTwo length in
    let idx := a + (length ÷ 4) * 2 - 1 in
    breakPatterns_loop 3 data a length idx 0 random modulus
  else Done data.

(** [order2] returns the ordered pair of indices and the updated swap
    counter. *)
Definition order2 (data : T) (a b : Z) (swaps : Z) : result (Z * Z * Z) :=
  let* lt := Less data b a in
  if lt : bool then Done (b, a, swaps + 1) else Done (a, b, swaps).

Definition median (data : T) (a b c : Z) (swaps : Z) : result (Z * Z) :=
  let* '(a, b, swaps) := order2 data a b swaps in
  let* '(b, c, swaps) := order2 data b c swaps in
  let* '(a, b, swaps) := order2 data a b swaps in
  Done (b, swaps).

Definition medianAdjacent (data : T) (a : Z) (swaps : Z) : result (Z * Z) :=
  median data (a - 1) a (a + 1) swaps.

Definition shortestNinther : Z := 50.
Definition maxSwaps : Z := 4 * 3.

Definition choosePivot (data : T) (a b : Z) : result (Z * sortedHint) :=
  let l := b - a in
  let swaps := 0 in
  let i := a + l ÷ 4 * 1 in
  let j := a + l ÷ 4 * 2 in
  let k := a + l ÷ 4 * 3 in
  let* '(j, swaps) :=
    (if 8 <=? l then
       let* '(i, j, k, swaps) :=
         (if shortestNinther <=? l then
            let* '(i, swaps) := medianAdjacent data i swaps in
            let* '(j, swaps) := medianAdjacent data j swaps in
            let* '(k, swaps) := medianAdjacent data k swaps in
            Done (i, j, k, swaps)
          else Done (i, j, k, swaps)) in
       median data i j k swaps
     else Done (j, swaps)) in
  if swaps =? 0 then Done (j, increasingHint)
  else if swaps =? maxSwaps then Done (j, decreasingHint)
  else Done (j, unknownHint).

(** [for i < j { data.Swap(i, j); i++; j-- }] *)
Fixpoint reverseRange_loop (n : nat) (data : T) (i j : Z) : result T :=
  if i <? j then
    match n with
    | O => Timeout
    | S n' =>
        let* data := Swap data i j in
        reverseRange_loop n' data (i + 1) (j - 1)
    end
  else Done data.

Definition reverseRange (data : T) (a b : Z) : result T :=
  reverseRange_loop (Z.to_nat (b - a)) data a (b - 1).

Definition maxInsertion : Z := 12.

(** [pdqsort]: each turn of its [for] loop, and each recursive call, uses
    one unit of [fuel]; [Sort] supplies [Len] units. *)
Fixpoint pdqsort (fuel : nat) (data : T) (a b limit : Z)
  (wasBalanced wasPartitioned : bool) : result T :=
  let length := b - a in
  if length <=? maxInsertion then insertionSort data a b
  else if limit =? 0 then heapSort data a b
  else
    match fuel with
    | O => Timeout
    | S fuel' =>
        let* '(data, limit) :=
          (if negb wasBalanced then
             let* data := breakPatterns data a b in
             Done (data, limit - 1)
           else Done (data, limit)) in
        let* '(pivot, hint) := choosePivot data a b in
        let* '(data, pivot, hint) :=
          (if sortedHint_eqb hint decreasingHint then
             let* data := reverseRange data a b in
             Done (data, (b - 1) - (pivot - a), increasingHint)
           else Done (data, pivot, hint)) in
        let* '(data, sorted) :=
          (if wasBalanced && wasPartitioned && sortedHint_eqb hint increasingHint then
             partialInsertionSort data a b
           else Done (data, false)) in
        if sorted : bool then Done data
        else
          let* equal :=
            (if 0 <? a then
               let* lt := Less data (a - 1) pivot in Done (negb lt)
             else Done false) in
          if equal : bool then
            let* '(data, mid) := partitionEqual data a b pivot in
            pdqsort fuel' data mid b limit wasBalanced wasPartitioned
          else
            let* '(data, mid, alreadyPartitioned) := partition data a b pivot in
            let wasPartitioned := alreadyPartitioned in
            let leftLen := mid - a in
            let rightLen := b - mid in
            let balanceThreshold := length ÷ 8 in
            if leftLen <? rightLen then
              let wasBalanced := balanceThreshold <=? leftLen in
              let* data := pdqsort fuel' data a mid limit true true in
              pdqsort fuel' data (mid + 1) b limit wasBalanced wasPartitioned
            else
              let wasBalanced := balanceThreshold <=? rightLen in
              let* data := pdqsort fuel' data (mid + 1) b limit true true in
              pdqsort fuel' data a mid limit wasBalanced wasPartitioned
    end.

(** [func Sort(data Interface)] *)
Definition Sort (data : T) : result T :=
  let n := Len data in
  if n <=? 1 then Done data
  else
    let limit := bits_Len n in
    pdqsort (Z.to_nat n) data 0 n limit true true.

End SortPackage.

(** ** The plugin SDK: errors, diagnostics, resource data *)

(** What a request to the service can fail with: an error that
    [errors.As] finds to be an [awserr.Error], with its code and message, or
    any other error (transport, context). *)
Inductive api_error :=
| awserr (Code Message : string)
| other_error (text : string).

(** Go [error] values as the handlers see them: the error of a request, or
    one of the errors the provider builds itself ([resource.NotFoundError],
    [tfresource.EmptyResultError], [tfresource.TooManyResultsError]; their
    [LastRequest] is left out). *)
Inductive error :=
| ApiError (e : api_error)
| NotFoundError (LastError : option api_error)
| EmptyResultError
| TooManyResultsError (count : Z).

(** The [error] interface value a request hands back, [nil] included *)
Definition as_error (err : option api_error) : option error := ApiError <$> err.

(** [strings.Contains(s, substr)] *)
Fixpoint has_prefix (p s : string) : bool :=
  match p, s with
  | EmptyString, _ => true
  | String c p', String d s' => if Ascii.eqb c d then has_prefix p' s' else false
  | String _ _, EmptyString => false
  end.

Fixpoint strings_Contains (s substr : string) : bool :=
  has_prefix substr s ||
  match s with
  | EmptyString => false
  | String _ s' => strings_Contains s' substr
  end.

(** [tfawserr.ErrCodeEquals(err, code)] *)
Definition ErrCodeEquals (err : option error) (code : string) : bool :=
  match err with
  | Some (ApiError (awserr c _)) => String.eqb c code
  | _ => false
  end.

(** [tfawserr.ErrMessageContains(err, code, message)] *)
Definition ErrMessageContains (err : option error) (code message : string) : bool :=
  match err with
  | Some (ApiError (awserr c m)) => String.eqb c code && strings_Contains m message
  | _ => false
  end.

(** [err.Error()] *)
Definition api_error_text (e : api_error) : string :=
  match e with
  | awserr c m => c +:+ ": " +:+ m
  | other_error t => t
  end.

Definition Error_text (e : error) : string :=
  match e with
  | ApiError e => api_error_text e
  | NotFoundError (Some e') => "couldn't find resource: " +:+ api_error_text e'
  | NotFoundError None => "couldn't find resource"
  | EmptyResultError => "empty result"
  | TooManyResultsError _ => "too many results"
  end.

Inductive Severity := Error | Warning.

Record Diagnostic := { severity : Severity; Summary : string }.

Definition Diagnostics := list Diagnostic.

(** [sdkdiag.AppendErrorf(diags, format, a...)], the message already
    formatted *)
Definition AppendErrorf (diags : Diagnostics) (msg : string) : Diagnostics :=
  diags ++ [{| severity := Error; Summary := msg |}].

Definition HasError (diags : Diagnostics) : bool :=
  existsb (λ d, match severity d with Error => true | Warning => false end) diags.

(** One element of the [setting] set (a [map[string]interface{}] with the
    keys of [settingSchema]) *)
Record setting := {
  setting_namespace : string;
  setting_name : string;
  setting_value : string;
  setting_resource : string
}.

#[export] Instance setting_eq_dec : EqDecision setting.
Proof. solve_decision. Defined.

(** [*schema.Set]: its elements in [List()] order, without duplicates.  The
    set is keyed by [optionSettingValueHash]; two settings share a key when
    they are the same setting. *)
Definition Set_ := list setting.

Definition Set_Contains (s : Set_) (x : setting) : bool := bool_decide (x ∈ s).

(** [s.Difference(other)] *)
Definition Set_Difference (s other : Set_) : Set_ :=
  filter (λ x, ¬ x ∈ other) s.

(** Values of schema fields *)
Inductive Value :=
| VString (s : string)
| VBool (b : bool)
| VInt (z : Z)
| VList (l : list string)
| VSet (s : Set_)
| VMap (m : gmap string string).

#[export] Instance Value_eq_dec : EqDecision Value.
Proof. solve_decision. Defined.

(** [*schema.ResourceData]: the id, the new-resource mark, the prior state
    and the current (planned, then written) values *)
Record ResourceData := {
  d_id : string;
  d_isNew : bool;
  d_state : gmap string Value;
  d_values : gmap string Value
}.

Definition d_Id (d : ResourceData) : string := d_id d.

Definition d_SetId (d : ResourceData) (id : string) : ResourceData :=
  {| d_id := id; d_isNew := d_isNew d; d_state := d_state d; d_values := d_values d |}.

Definition d_IsNewResource (d : ResourceData) : bool := d_isNew d.

Definition d_Set (d : ResourceData) (key : string) (v : Value) : ResourceData :=
  {| d_id := d_id d; d_isNew := d_isNew d; d_state := d_state d;
     d_values := <[key := v]> (d_values d) |}.

(** [d.Get(key).(string)]; the schema makes the type assertion succeed and
    an unset field reads as the zero value. *)
Definition d_Get_string (d : ResourceData) (key : string) : string :=
  match d_values d !! key with
  | Some (VString s) => s
  | _ => EmptyString
  end.

Definition d_Get_bool (d : ResourceData) (key : string) : bool :=
  match d_values d !! key with
  | Some (VBool b) => b
  | _ => false
  end.

Definition d_Get_map (d : ResourceData) (key : string) : gmap string string :=
  match d_values d !! key with
  | Some (VMap m) => m
  | _ => ∅
  end.

(** [d.Get(key)] asserted to be a set, with the [ok] of the type assertion *)
Definition d_Get_set (d : ResourceData) (key : string) : option Set_ :=
  match d_values d !! key with
  | Some (VSet s) => Some s
  | _ => None
  end.

(** [d.GetOk(key)] on a string field: set and not the zero value *)
Definition d_GetOk_string (d : ResourceData) (key : string) : string * bool :=
  let s := d_Get_string d key in (s, negb (String.eqb s EmptyString)).

(** [d.GetChange(key)] *)
Definition d_GetChange (d : ResourceData) (key : string) : option Value * option Value :=
  (d_state d !! key, d_values d !! key).

(** [d.HasChange(key)] *)
Definition d_HasChange (d : ResourceData) (key : string) : bool :=
  bool_decide (d_state d !! key ≠ d_values d !! key).

(** [aws.StringValue] *)
Definition StringValue (p : option string) : string := default EmptyString p.

(** What [d.Set] stores for a [*string], [*int64] or [*bool] *)
Definition VStringPtr (p : option string) : Value := VString (StringValue p).
Definition VIntPtr (p : option Z) : Value := VInt (default 0 p).
Definition VBoolPtr (p : option bool) : Value := VBool (default false p).

(** ** Talking to the provider API

    A handler runs against a world [W] (the remote state) and logs each
    request it issues. *)
Definition M (S X : Type) : Type := S → X * S.

#[export] Instance M_ret {S} : MRet (M S) := λ X x s, (x, s).
#[export] Instance M_bind {S} : MBind (M S) :=
  λ X Y k m s, let '(x, s') := m s in k x s'.

(** Issue one request: log it, then let the world answer. *)
Definition request {W C I O} (tag : I → C) (op : I → W → O * W) (i : I)
  : M (W * list C) O :=
  λ '(w, log), let '(o, w') := op i w in (o, (w', log ++ [tag i])).

(** A request made through the SDK client, whose error is an [api_error]:
    the handler receives it as an [error] value. *)
Definition sdk_call {W C I} (tag : I → C) (op : I → W → option api_error * W) (i : I)
  : M (W * list C) (option error) :=
  err ← request tag op i; mret (as_error err).

Definition sdk_call_out {W C I O} (tag : I → C)
    (op : I → W → (O * option api_error) * W) (i : I)
  : M (W * list C) (O * option error) :=
  '(o, err) ← request tag op i; mret (o, as_error err).

(** ** [internal/service/rds/cluster_snapshot_data_source.go] *)

(** [time.Time], as the instant it denotes (nanoseconds since the epoch);
    [t.Before(u)] compares instants. *)
Definition Time := Z.
Definition Before (t u : Time) : bool := t <? u.

(** [rds.DBClusterSnapshot]: every field is a pointer, [None] is [nil]. *)
Record DBClusterSnapshot := {
  AllocatedStorage : option Z;
  AvailabilityZones : list string;
  DBClusterIdentifier : option string;
  DBClusterSnapshotArn : option string;
  DBClusterSnapshotIdentifier : option string;
  Engine : option string;
  EngineVersion : option string;
  KmsKeyId : option string;
  LicenseModel : option string;
  Port : option Z;
  SnapshotCreateTime : option Time;
  SnapshotType : option string;
  SourceDBClusterSnapshotArn : option string;
  Status : option string;
  StorageEncrypted : option bool;
  VpcId : option string
}.

(** [type rdsClusterSnapshotSort []*rds.DBClusterSnapshot].  The entries of
    a describe response are never nil pointers. *)
Definition rdsClusterSnapshotSort := list DBClusterSnapshot.

Definition rdsClusterSnapshotSort_Len (a : rdsClusterSnapshotSort) : Z := Zlen a.

Definition rdsClusterSnapshotSort_Swap (a : rdsClusterSnapshotSort) (i j : Z)
  : result rdsClusterSnapshotSort := swap_slice a i j.

Definition rdsClusterSnapshotSort_Less (a : rdsClusterSnapshotSort) (i j : Z)
  : result bool :=
  let* x := of_option (index a i) in
  match SnapshotCreateTime x with
  | None => Done true
  | Some ti =>
      let* y := of_option (index a j) in
      match SnapshotCreateTime y with
      | None => Done false
      | Some tj => Done (Before ti tj)
      end
  end.

#[export] Instance rdsClusterSnapshotSort_Interface : Interface rdsClusterSnapshotSort := {|
  Len := rdsClusterSnapshotSort_Len;
  Less := rdsClusterSnapshotSort_Less;
  Swap := rdsClusterSnapshotSort_Swap
|}.

(** [mostRecentClusterSnapshot] sorts the caller's slice in place
    ([sortedSnapshots := snapshots] aliases it), so the model returns the
    slice as it is left together with the chosen snapshot. *)
Definition mostRecentClusterSnapshot (snapshots : list DBClusterSnapshot)
  : result (DBClusterSnapshot * list DBClusterSnapshot) :=
  let sortedSnapshots := snapshots in
  let* sortedSnapshots := Sort (sortedSnapshots : rdsClusterSnapshotSort) in
  let* s := of_option (index sortedSnapshots (Zlen sortedSnapshots - 1)) in
  Done (s, sortedSnapshots).

(** *** The data source [aws_db_cluster_snapshot] *)

Record DescribeDBClusterSnapshotsInput := {
  IncludePublic : option bool;
  IncludeShared : option bool;
  in_SnapshotType : option string;
  in_DBClusterIdentifier : option string;
  in_DBClusterSnapshotIdentifier : option string
}.

Record DescribeDBClusterSnapshotsOutput := {
  DBClusterSnapshots : list DBClusterSnapshot
}.

Inductive RDSCall :=
| DescribeDBClusterSnapshotsCall (i : DescribeDBClusterSnapshotsInput)
| ListTagsCall (arn : string).

(** [*rds.RDS], with the package's [ListTags] helper, which issues
    [ListTagsForResource] *)
Record RDS (W : Type) := {
  DescribeDBClusterSnapshotsWithContext :
    DescribeDBClusterSnapshotsInput → W →
    (DescribeDBClusterSnapshotsOutput * option api_error) * W;
  ListTags : string → W → (gmap string string * option error) * W
}.
Arguments DescribeDBClusterSnapshotsWithContext {W}.
Arguments ListTags {W}.

Section ClusterSnapshotDataSource.
Context {W : Type} (conn : RDS W).
(** [tags.IgnoreAWS().IgnoreConfig(ignoreTagsConfig).Map()] and
    [t.Format(time.RFC3339)], both defined outside these files *)
Context (IgnoreTags : gmap string string → gmap string string).
Context (Format_RFC3339 : Time → string).

Local Abbreviation St := (W * list RDSCall)%type.

(** The writes that follow the choice of [snapshot], up to the tags *)
Definition setSnapshotAttributes (d : ResourceData) (snapshot : DBClusterSnapshot)
  : ResourceData :=
  let d := d_SetId d (StringValue (DBClusterSnapshotIdentifier snapshot)) in
  let d := d_Set d "allocated_storage" (VIntPtr (AllocatedStorage snapshot)) in
  let d := d_Set d "availability_zones" (VList (AvailabilityZones snapshot)) in
  let d := d_Set d "db_cluster_identifier" (VStringPtr (DBClusterIdentifier snapshot)) in
  let d := d_Set d "db_cluster_snapshot_arn" (VStringPtr (DBClusterSnapshotArn snapshot)) in
  let d := d_Set d "db_cluster_snapshot_identifier"
             (VStringPtr (DBClusterSnapshotIdentifier snapshot)) in
  let d := d_Set d "engine" (VStringPtr (Engine snapshot)) in
  let d := d_Set d "engine_version" (VStringPtr (EngineVersion snapshot)) in
  let d := d_Set d "kms_key_id" (VStringPtr (KmsKeyId snapshot)) in
  let d := d_Set d "license_model" (VStringPtr (LicenseModel snapshot)) in
  let d := d_Set d "port" (VIntPtr (Port snapshot)) in
  let d := match SnapshotCreateTime snapshot with
           | Some t => d_Set d "snapshot_create_time" (VString (Format_RFC3339 t))
           | None => d
           end in
  let d := d_Set d "snapshot_type" (VStringPtr (SnapshotType snapshot)) in
  let d := d_Set d "source_db_cluster_snapshot_arn"
             (VStringPtr (SourceDBClusterSnapshotArn snapshot)) in
  let d := d_Set d "status" (VStringPtr (Status snapshot)) in
  let d := d_Set d "storage_encrypted" (VBoolPtr (StorageEncrypted snapshot)) in
  let d := d_Set d "vpc_id" (VStringPtr (VpcId snapshot)) in
  d.

(** The choice of [snapshot] among the snapshots of the response: the
    snapshot, or the error diagnostics the read returns instead. *)
Definition selectSnapshot (d : ResourceData) (diags : Diagnostics)
    (snapshots : list DBClusterSnapshot)
  : result (Diagnostics + DBClusterSnapshot) :=
  if Zlen snapshots <? 1 then
    Done (inl (AppendErrorf diags
      "Your query returned no results. Please change your search criteria and try again."))
  else if 1 <? Zlen snapshots then
    let recent := d_Get_bool d "most_recent" in
    if recent then
      let* '(snapshot, _) := mostRecentClusterSnapshot snapshots in
      Done (inr snapshot)
    else
      Done (inl (AppendErrorf diags
        "Your query returned more than one result. Please try a more specific search criteria."))
  else
    let* snapshot := of_option (index snapshots 0) in
    Done (inr snapshot).

(** [params]: the request the read builds from the configuration *)
Definition describeParams (d : ResourceData) : DescribeDBClusterSnapshotsInput :=
  let '(clusterIdentifier, clusterIdentifierOk) := d_GetOk_string d "db_cluster_identifier" in
  let '(snapshotIdentifier, snapshotIdentifierOk) :=
    d_GetOk_string d "db_cluster_snapshot_identifier" in
  {| IncludePublic := Some (d_Get_bool d "include_public");
     IncludeShared := Some (d_Get_bool d "include_shared");
     in_SnapshotType :=
       (let '(v, ok) := d_GetOk_string d "snapshot_type" in
        if ok : bool then Some v else None);
     in_DBClusterIdentifier :=
       (if clusterIdentifierOk : bool then Some clusterIdentifier else None);
     in_DBClusterSnapshotIdentifier :=
       (if snapshotIdentifierOk : bool then Some snapshotIdentifier else None) |}.

Definition dataSourceClusterSnapshotRead (d : ResourceData)
  : M St (result (Diagnostics * ResourceData)) :=
  let diags : Diagnostics := [] in
  let '(clusterIdentifier, clusterIdentifierOk) := d_GetOk_string d "db_cluster_identifier" in
  let '(snapshotIdentifier, snapshotIdentifierOk) :=
    d_GetOk_string d "db_cluster_snapshot_identifier" in
  if negb clusterIdentifierOk && negb snapshotIdentifierOk then
    mret (Done (AppendErrorf diags
      "One of db_cluster_snapshot_identifier or db_cluster_identifier must be assigned", d))
  else
    let params := describeParams d in
    '(resp, err) ← sdk_call_out DescribeDBClusterSnapshotsCall
                     (DescribeDBClusterSnapshotsWithContext conn) params;
    match err with
    | Some e =>
        mret (Done (AppendErrorf diags
          ("reading RDS Cluster Snapshot (" +:+ d_Id d +:+ "): " +:+ Error_text e), d))
    | None =>
        match selectSnapshot d diags (DBClusterSnapshots resp) with
        | Panic => mret Panic
        | Timeout => mret Timeout
        | Done (inl diags) => mret (Done (diags, d))
        | Done (inr snapshot) =>
            let d := setSnapshotAttributes d snapshot in
            '(tags, err) ← request ListTagsCall (ListTags conn)
                             (d_Get_string d "db_cluster_snapshot_arn");
            match err with
            | Some e =>
                mret (Done (AppendErrorf diags
                  ("listing tags for RDS DB Cluster Snapshot ("
                   +:+ d_Get_string d "db_cluster_snapshot_arn" +:+ "): "
                   +:+ Error_text e), d))
            | None =>
                let d := d_Set d "tags" (VMap (IgnoreTags tags)) in
                mret (Done (diags, d))
            end
        end
    end.

End ClusterSnapshotDataSource.

(** ** [internal/service/elasticbeanstalk/configuration_template.go] *)

Record ConfigurationOptionSetting := {
  cos_Namespace : option string;
  cos_OptionName : option string;
  cos_ResourceName : option string;
  cos_Value : option string
}.

Record OptionSpecification := {
  os_Namespace : option string;
  os_OptionName : option string;
  os_ResourceName : option string
}.

Record CreateConfigurationTemplateInput := {
  create_ApplicationName : option string;
  create_TemplateName : option string;
  create_OptionSettings : list ConfigurationOptionSetting;
  create_Description : option string;
  create_EnvironmentId : option string;
  create_SolutionStackName : option string
}.

Record UpdateConfigurationTemplateInput := {
  update_ApplicationName : option string;
  update_TemplateName : option string;
  update_Description : option string;
  update_OptionSettings : list ConfigurationOptionSetting;
  update_OptionsToRemove : list OptionSpecification
}.

Record ValidateConfigurationSettingsInput := {
  validate_ApplicationName : option string;
  validate_TemplateName : option string;
  validate_OptionSettings : list ConfigurationOptionSetting
}.

Record DescribeConfigurationSettingsInput := {
  describe_ApplicationName : option string;
  describe_TemplateName : option string
}.

Record DeleteConfigurationTemplateInput := {
  delete_ApplicationName : option string;
  delete_TemplateName : option string
}.

(** [elasticbeanstalk.ConfigurationSettingsDescription], the fields the
    handlers read *)
Record ConfigurationSettingsDescription := {
  csd_ApplicationName : option string;
  csd_Description : option string;
  csd_TemplateName : option string;
  csd_SolutionStackName : option string
}.

(** [*elasticbeanstalk.DescribeConfigurationSettingsOutput]; the slice holds
    pointers, [None] is a nil entry. *)
Record DescribeConfigurationSettingsOutput := {
  ConfigurationSettings : list (option ConfigurationSettingsDescription)
}.

(** The requests a handler can issue *)
Inductive EBCall :=
| CreateConfigurationTemplateCall (i : CreateConfigurationTemplateInput)
| DescribeConfigurationSettingsCall (i : DescribeConfigurationSettingsInput)
| UpdateConfigurationTemplateCall (i : UpdateConfigurationTemplateInput)
| ValidateConfigurationSettingsCall (i : ValidateConfigurationSettingsInput)
| DeleteConfigurationTemplateCall (i : DeleteConfigurationTemplateInput).

(** [*elasticbeanstalk.ElasticBeanstalk]: how the service answers each
    request, and what the request does to it.  Outputs the handlers drop
    are left out. *)
Record ElasticBeanstalk (W : Type) := {
  CreateConfigurationTemplateWithContext :
    CreateConfigurationTemplateInput → W → option api_error * W;
  DescribeConfigurationSettingsWithContext :
    DescribeConfigurationSettingsInput → W →
    (option DescribeConfigurationSettingsOutput * option api_error) * W;
  UpdateConfigurationTemplateWithContext :
    UpdateConfigurationTemplateInput → W → option api_error * W;
  ValidateConfigurationSettingsWithContext :
    ValidateConfigurationSettingsInput → W → option api_error * W;
  DeleteConfigurationTemplateWithContext :
    DeleteConfigurationTemplateInput → W → option api_error * W
}.
Arguments CreateConfigurationTemplateWithContext {W}.
Arguments DescribeConfigurationSettingsWithContext {W}.
Arguments UpdateConfigurationTemplateWithContext {W}.
Arguments ValidateConfigurationSettingsWithContext {W}.
Arguments DeleteConfigurationTemplateWithContext {W}.

(** Modelled from the spec: [extractOptionSettings] is defined in another
    file of the package.  By the glossary an option setting is a namespaced
    key/value pair, so each element of the set becomes one API option
    setting with its namespace, option name and value. *)
Definition extractOptionSettings (s : Set_) : list ConfigurationOptionSetting :=
  map (λ x, {| cos_Namespace := Some (setting_namespace x);
               cos_OptionName := Some (setting_name x);
               cos_ResourceName := None;
               cos_Value := Some (setting_value x) |}) s.

Definition gatherOptionSettings (d : ResourceData) : list ConfigurationOptionSetting :=
  let optionSettingsSet :=
    match d_Get_set d "setting" with
    | Some s => s
    | None => []
    end in
  extractOptionSettings optionSettingsSet.

(** The nested loops that build [remove]: for each [r] in [rm], each [a] in
    [add] either [continue]s the inner loop (same namespace and option name)
    or appends [r]. *)
Definition same_option (r a : ConfigurationOptionSetting) : bool :=
  String.eqb (StringValue (cos_Namespace r)) (StringValue (cos_Namespace a)) &&
  String.eqb (StringValue (cos_OptionName r)) (StringValue (cos_OptionName a)).

Definition remove_inner (r : ConfigurationOptionSetting)
    (add remove : list ConfigurationOptionSetting) : list ConfigurationOptionSetting :=
  fold_left (λ remove a, if same_option r a then remove else remove ++ [r]) add remove.

Definition remove_loop (rm add : list ConfigurationOptionSetting)
  : list ConfigurationOptionSetting :=
  fold_left (λ remove r, remove_inner r add remove) rm [].

(** [for _, elem := range remove { req.OptionsToRemove = append(...) }] *)
Definition optionsToRemove (remove : list ConfigurationOptionSetting)
  : list OptionSpecification :=
  map (λ elem, {| os_Namespace := cos_Namespace elem;
                  os_OptionName := cos_OptionName elem;
                  os_ResourceName := None |}) remove.

(** What the update sends for an old and a new set *)
Definition settings_rm (os ns : Set_) := extractOptionSettings (Set_Difference os ns).
Definition settings_add (os ns : Set_) := extractOptionSettings (Set_Difference ns os).

(** [opts]: the request the create handler builds from the configuration *)
Definition createOpts (d : ResourceData) : CreateConfigurationTemplateInput :=
  let name := d_Get_string d "name" in
  let appName := d_Get_string d "application" in
  let optionSettings := gatherOptionSettings d in
  let opt key := let '(attr, ok) := d_GetOk_string d key in
                 if ok : bool then Some attr else None in
  {| create_ApplicationName := Some appName;
     create_TemplateName := Some name;
     create_OptionSettings := optionSettings;
     create_Description := opt "description";
     create_EnvironmentId := opt "environment_id";
     create_SolutionStackName := opt "solution_stack_name" |}.

(** The request of the description update, of the validation that opens
    the option-settings update, and of the read-back *)
Definition descriptionUpdateInput (d : ResourceData) : UpdateConfigurationTemplateInput :=
  {| update_ApplicationName := Some (d_Get_string d "application");
     update_TemplateName := Some (d_Get_string d "name");
     update_Description := Some (d_Get_string d "description");
     update_OptionSettings := [];
     update_OptionsToRemove := [] |}.

Definition validateInput (d : ResourceData) : ValidateConfigurationSettingsInput :=
  {| validate_ApplicationName := Some (d_Get_string d "application");
     validate_TemplateName := Some (d_Get_string d "name");
     validate_OptionSettings := gatherOptionSettings d |}.

Section ConfigurationTemplate.
Context {W : Type} (conn : ElasticBeanstalk W).
(** [tfresource.NotFound], defined outside these files *)
Context (NotFound : option error → bool).

Local Abbreviation St := (W * list EBCall)%type.

Definition FindConfigurationSettingsByTwoPartKey (applicationName templateName : string)
  : M St (option ConfigurationSettingsDescription * option error) :=
  let input := {| describe_ApplicationName := Some applicationName;
                  describe_TemplateName := Some templateName |} in
  '(output, sdkerr) ← request DescribeConfigurationSettingsCall
                        (DescribeConfigurationSettingsWithContext conn) input;
  let err := as_error sdkerr in
  if ErrMessageContains err "InvalidParameterValue" "No Configuration Template named"
     || ErrMessageContains err "InvalidParameterValue" "No Application named"
  then mret (None, Some (NotFoundError sdkerr))
  else
    match err with
    | Some e => mret (None, Some e)
    | None =>
        match output with
        | None => mret (None, Some EmptyResultError)
        | Some out =>
            match ConfigurationSettings out with
            | [] => mret (None, Some EmptyResultError)
            | None :: _ => mret (None, Some EmptyResultError)
            | Some first :: rest =>
                let count := Zlen (ConfigurationSettings out) in
                if 1 <? count then mret (None, Some (TooManyResultsError count))
                else mret (Some first, None)
            end
        end
    end.

Definition resourceConfigurationTemplateRead (d : ResourceData)
  : M St (Diagnostics * ResourceData) :=
  let diags : Diagnostics := [] in
  '(settings, err) ← FindConfigurationSettingsByTwoPartKey
                       (d_Get_string d "application") (d_Id d);
  if negb (d_IsNewResource d) && NotFound err then
    mret (diags, d_SetId d EmptyString)
  else
    match err, settings with
    | Some e, _ =>
        mret (AppendErrorf diags
                ("reading Elastic Beanstalk Configuration Template (" +:+ d_Id d +:+ "): "
                 +:+ Error_text e), d)
    | None, Some settings =>
        let d := d_Set d "application" (VStringPtr (csd_ApplicationName settings)) in
        let d := d_Set d "description" (VStringPtr (csd_Description settings)) in
        let d := d_Set d "name" (VStringPtr (csd_TemplateName settings)) in
        let d := d_Set d "solution_stack_name" (VStringPtr (csd_SolutionStackName settings)) in
        mret (diags, d)
    | None, None => mret (diags, d)
    end.

Definition resourceConfigurationTemplateCreate (d : ResourceData)
  : M St (Diagnostics * ResourceData) :=
  let diags : Diagnostics := [] in
  let name := d_Get_string d "name" in
  let opts := createOpts d in
  err ← sdk_call CreateConfigurationTemplateCall
          (CreateConfigurationTemplateWithContext conn) opts;
  match err with
  | Some e =>
      mret (AppendErrorf diags
              ("creating Elastic Beanstalk configuration template: " +:+ Error_text e), d)
  | None =>
      let d := d_SetId d name in
      '(diags', d) ← resourceConfigurationTemplateRead d;
      mret (diags ++ diags', d)
  end.

Definition resourceConfigurationTemplateDescriptionUpdate (d : ResourceData)
  : M St (option error) :=
  sdk_call UpdateConfigurationTemplateCall (UpdateConfigurationTemplateWithContext conn)
    (descriptionUpdateInput d).

Definition resourceConfigurationTemplateOptionSettingsUpdate (d : ResourceData)
  : M St (option error) :=
  if d_HasChange d "setting" then
    err ← sdk_call ValidateConfigurationSettingsCall
            (ValidateConfigurationSettingsWithContext conn) (validateInput d);
    match err with
    | Some e => mret (Some e)
    | None =>
        let '(o, n) := d_GetChange d "setting" in
        let os := match o with Some (VSet s) => s | _ => [] end in
        let ns := match n with Some (VSet s) => s | _ => [] end in
        let rm := extractOptionSettings (Set_Difference os ns) in
        let add := extractOptionSettings (Set_Difference ns os) in
        let remove := remove_loop rm add in
        let req := {| update_ApplicationName := Some (d_Get_string d "application");
                      update_TemplateName := Some (d_Get_string d "name");
                      update_Description := None;
                      update_OptionSettings := add;
                      update_OptionsToRemove := optionsToRemove remove |} in
        sdk_call UpdateConfigurationTemplateCall
          (UpdateConfigurationTemplateWithContext conn) req
    end
  else mret None.

Definition resourceConfigurationTemplateUpdate (d : ResourceData)
  : M St (Diagnostics * ResourceData) :=
  let diags : Diagnostics := [] in
  let failed (e : error) :=
    AppendErrorf diags
      ("updating Elastic Beanstalk Configuration Template (" +:+ d_Id d +:+ "): "
       +:+ Error_text e) in
  err1 ← (if d_HasChange d "description"
          then resourceConfigurationTemplateDescriptionUpdate d
          else mret None);
  match err1 with
  | Some e => mret (failed e, d)
  | None =>
      err2 ← (if d_HasChange d "setting"
              then resourceConfigurationTemplateOptionSettingsUpdate d
              else mret None);
      match err2 with
      | Some e => mret (failed e, d)
      | None =>
          '(diags', d) ← resourceConfigurationTemplateRead d;
          mret (diags ++ diags', d)
      end
  end.

Definition resourceConfigurationTemplateDelete (d : ResourceData)
  : M St (Diagnostics * ResourceData) :=
  let diags : Diagnostics := [] in
  let application := d_Get_string d "application" in
  err ← sdk_call DeleteConfigurationTemplateCall
          (DeleteConfigurationTemplateWithContext conn)
          {| delete_ApplicationName := Some application;
             delete_TemplateName := Some (d_Id d) |};
  match err with
  | Some e =>
      mret (AppendErrorf diags
              ("deleting Elastic Beanstalk Configuration Template (" +:+ d_Id d +:+ "): "
               +:+ Error_text e), d)
  | None => mret (diags, d)
  end.

End ConfigurationTemplate.

(** ** The EC2 transit-gateway resources: peering-attachment accepter and
    route table *)

Record PeeringTgwInfo := {
  OwnerId : option string;
  Region : option string;
  tgw_TransitGatewayId : option string
}.

(** [ec2.TransitGatewayPeeringAttachment]; the service fills both
    [AccepterTgwInfo] and [RequesterTgwInfo]. *)
Record TransitGatewayPeeringAttachment := {
  TransitGatewayAttachmentId : option string;
  AccepterTgwInfo : PeeringTgwInfo;
  RequesterTgwInfo : PeeringTgwInfo;
  pa_Tags : gmap string string
}.

Record TransitGatewayRouteTable := {
  TransitGatewayRouteTableId : option string;
  rt_TransitGatewayId : option string;
  DefaultAssociationRouteTable : option bool;
  DefaultPropagationRouteTable : option bool;
  rt_Tags : gmap string string
}.

Record CreateTransitGatewayRouteTableInput := {
  crt_TransitGatewayId : option string;
  crt_TagSpecifications : gmap string string
}.

Inductive EC2Call :=
| AcceptTransitGatewayPeeringAttachmentCall (attachmentId : option string)
| DeleteTransitGatewayPeeringAttachmentCall (attachmentId : option string)
| CreateTransitGatewayRouteTableCall (i : CreateTransitGatewayRouteTableInput)
| DeleteTransitGatewayRouteTableCall (routeTableId : option string)
| WaitTransitGatewayPeeringAttachmentAcceptedCall (id : string)
| WaitTransitGatewayPeeringAttachmentDeletedCall (id : string)
| WaitTransitGatewayRouteTableCreatedCall (id : string)
| WaitTransitGatewayRouteTableDeletedCall (id : string)
| CreateTagsCall (a : string * gmap string string)
| UpdateTagsCall (a : string * (option Value * option Value))
| FindTransitGatewayPeeringAttachmentByIDCall (id : string)
| FindTransitGatewayByIDCall (id : string)
| FindTransitGatewayRouteTableByIDCall (id : string).

(** [*ec2.EC2] together with the waiters, finders and tag helpers of the
    package, which are defined outside these files and all work by issuing
    requests *)
Record EC2 (W : Type) := {
  AcceptTransitGatewayPeeringAttachmentWithContext :
    option string → W → (TransitGatewayPeeringAttachment * option api_error) * W;
  DeleteTransitGatewayPeeringAttachmentWithContext :
    option string → W → option api_error * W;
  CreateTransitGatewayRouteTableWithContext :
    CreateTransitGatewayRouteTableInput → W →
    (TransitGatewayRouteTable * option api_error) * W;
  DeleteTransitGatewayRouteTableWithContext :
    option string → W → option api_error * W;
  WaitTransitGatewayPeeringAttachmentAccepted : string → W → option error * W;
  WaitTransitGatewayPeeringAttachmentDeleted : string → W → option error * W;
  WaitTransitGatewayRouteTableCreated : string → W → option error * W;
  WaitTransitGatewayRouteTableDeleted : string → W → option error * W;
  CreateTags : string * gmap string string → W → option error * W;
  UpdateTags : string * (option Value * option Value) → W → option error * W;
  FindTransitGatewayPeeringAttachmentByID :
    string → W → (TransitGatewayPeeringAttachment * option error) * W;
  FindTransitGatewayByID : string → W → option error * W;
  FindTransitGatewayRouteTableByID :
    string → W → (TransitGatewayRouteTable * option error) * W
}.
Arguments AcceptTransitGatewayPeeringAttachmentWithContext {W}.
Arguments DeleteTransitGatewayPeeringAttachmentWithContext {W}.
Arguments CreateTransitGatewayRouteTableWithContext {W}.
Arguments DeleteTransitGatewayRouteTableWithContext {W}.
Arguments WaitTransitGatewayPeeringAttachmentAccepted {W}.
Arguments WaitTransitGatewayPeeringAttachmentDeleted {W}.
Arguments WaitTransitGatewayRouteTableCreated {W}.
Arguments WaitTransitGatewayRouteTableDeleted {W}.
Arguments CreateTags {W}.
Arguments UpdateTags {W}.
Arguments FindTransitGatewayPeeringAttachmentByID {W}.
Arguments FindTransitGatewayByID {W}.
Arguments FindTransitGatewayRouteTableByID {W}.

(** [*conns.AWSClient], the parts the handlers use *)
Record AWSClient := {
  MergeTags : gmap string string → gmap string string;
  IgnoreAWSAndConfig : gmap string string → gmap string string;
  RemoveDefaultConfig : gmap string string → gmap string string;
  Partition : string;
  client_Region : string;
  AccountID : string
}.

Section TransitGateway.
Context {W : Type} (conn : EC2 W) (meta : AWSClient).
Context (NotFound : option error → bool).
(** The error codes of the package's [errors.go] *)
Context (errCodeInvalidTransitGatewayAttachmentIDNotFound : string).
Context (errCodeInvalidRouteTableIDNotFound : string).

Local Abbreviation St := (W * list EC2Call)%type.

Definition resourceTransitGatewayPeeringAttachmentAccepterRead (d : ResourceData)
  : M St (Diagnostics * ResourceData) :=
  let diags : Diagnostics := [] in
  '(transitGatewayPeeringAttachment, err) ←
    request FindTransitGatewayPeeringAttachmentByIDCall
      (FindTransitGatewayPeeringAttachmentByID conn) (d_Id d);
  if negb (d_IsNewResource d) && NotFound err then
    mret (diags, d_SetId d EmptyString)
  else
    match err with
    | Some e =>
        mret (AppendErrorf diags
                ("reading EC2 Transit Gateway Peering Attachment (" +:+ d_Id d +:+ "): "
                 +:+ Error_text e), d)
    | None =>
        let accepter := AccepterTgwInfo transitGatewayPeeringAttachment in
        let requester := RequesterTgwInfo transitGatewayPeeringAttachment in
        let transitGatewayID := StringValue (tgw_TransitGatewayId accepter) in
        err ← request FindTransitGatewayByIDCall (FindTransitGatewayByID conn)
                transitGatewayID;
        match err with
        | Some e =>
            mret (AppendErrorf diags
                    ("reading EC2 Transit Gateway (" +:+ transitGatewayID +:+ "): "
                     +:+ Error_text e), d)
        | None =>
            let d := d_Set d "peer_account_id" (VStringPtr (OwnerId requester)) in
            let d := d_Set d "peer_region" (VStringPtr (Region requester)) in
            let d := d_Set d "peer_transit_gateway_id"
                       (VStringPtr (tgw_TransitGatewayId requester)) in
            let d := d_Set d "transit_gateway_attachment_id"
                       (VStringPtr (TransitGatewayAttachmentId
                                      transitGatewayPeeringAttachment)) in
            let d := d_Set d "transit_gateway_id"
                       (VStringPtr (tgw_TransitGatewayId accepter)) in
            let tags := IgnoreAWSAndConfig meta (pa_Tags transitGatewayPeeringAttachment) in
            let d := d_Set d "tags" (VMap (RemoveDefaultConfig meta tags)) in
            let d := d_Set d "tags_all" (VMap tags) in
            mret (diags, d)
        end
    end.

Definition resourceTransitGatewayPeeringAttachmentAccepterCreate (d : ResourceData)
  : M St (Diagnostics * ResourceData) :=
  let diags : Diagnostics := [] in
  let tags := MergeTags meta (d_Get_map d "tags") in
  let transitGatewayAttachmentID := d_Get_string d "transit_gateway_attachment_id" in
  let input := Some transitGatewayAttachmentID in
  '(output, err) ← sdk_call_out AcceptTransitGatewayPeeringAttachmentCall
                     (AcceptTransitGatewayPeeringAttachmentWithContext conn) input;
  match err with
  | Some e =>
      mret (AppendErrorf diags
              ("accepting EC2 Transit Gateway Peering Attachment ("
               +:+ transitGatewayAttachmentID +:+ "): " +:+ Error_text e), d)
  | None =>
      let d := d_SetId d (StringValue (TransitGatewayAttachmentId output)) in
      err ← request WaitTransitGatewayPeeringAttachmentAcceptedCall
              (WaitTransitGatewayPeeringAttachmentAccepted conn) (d_Id d);
      match err with
      | Some e =>
          mret (AppendErrorf diags
                  ("waiting for EC2 Transit Gateway Peering Attachment (" +:+ d_Id d
                   +:+ ") update: " +:+ Error_text e), d)
      | None =>
          err ← (if bool_decide (tags ≠ ∅)
                 then request CreateTagsCall (CreateTags conn) (d_Id d, tags)
                 else mret None);
          match err with
          | Some e =>
              mret (AppendErrorf diags
                      ("updating EC2 Transit Gateway Peering Attachment (" +:+ d_Id d
                       +:+ ") tags: " +:+ Error_text e), d)
          | None =>
              '(diags', d) ← resourceTransitGatewayPeeringAttachmentAccepterRead d;
              mret (diags ++ diags', d)
          end
      end
  end.

Definition resourceTransitGatewayPeeringAttachmentAccepterUpdate (d : ResourceData)
  : M St (Diagnostics * ResourceData) :=
  let diags : Diagnostics := [] in
  if d_HasChange d "tags_all" then
    err ← request UpdateTagsCall (UpdateTags conn) (d_Id d, d_GetChange d "tags_all");
    match err with
    | Some e =>
        mret (AppendErrorf diags
                ("updating EC2 Transit Gateway Peering Attachment (" +:+ d_Id d
                 +:+ ") tags: " +:+ Error_text e), d)
    | None => mret (diags, d)
    end
  else mret (diags, d).

Definition resourceTransitGatewayPeeringAttachmentAccepterDelete (d : ResourceData)
  : M St (Diagnostics * ResourceData) :=
  let diags : Diagnostics := [] in
  err ← sdk_call DeleteTransitGatewayPeeringAttachmentCall
          (DeleteTransitGatewayPeeringAttachmentWithContext conn) (Some (d_Id d));
  if ErrCodeEquals err errCodeInvalidTransitGatewayAttachmentIDNotFound then
    mret (diags, d)
  else
    match err with
    | Some e =>
        mret (AppendErrorf diags
                ("deleting EC2 Transit Gateway Peering Attachment (" +:+ d_Id d +:+ "): "
                 +:+ Error_text e), d)
    | None =>
        err ← request WaitTransitGatewayPeeringAttachmentDeletedCall
                (WaitTransitGatewayPeeringAttachmentDeleted conn) (d_Id d);
        match err with
        | Some e =>
            mret (AppendErrorf diags
                    ("waiting for EC2 Transit Gateway Peering Attachment (" +:+ d_Id d
                     +:+ ") delete: " +:+ Error_text e), d)
        | None => mret (diags, d)
        end
    end.

Definition resourceTransitGatewayRouteTableRead (d : ResourceData)
  : M St (Diagnostics * ResourceData) :=
  let diags : Diagnostics := [] in
  '(transitGatewayRouteTable, err) ←
    request FindTransitGatewayRouteTableByIDCall
      (FindTransitGatewayRouteTableByID conn) (d_Id d);
  if negb (d_IsNewResource d) && NotFound err then
    mret (diags, d_SetId d EmptyString)
  else
    match err with
    | Some e =>
        mret (AppendErrorf diags
                ("reading EC2 Transit Gateway Route Table (" +:+ d_Id d +:+ "): "
                 +:+ Error_text e), d)
    | None =>
        let arn := "arn:" +:+ Partition meta +:+ ":ec2:" +:+ client_Region meta +:+ ":"
                   +:+ AccountID meta +:+ ":transit-gateway-route-table/" +:+ d_Id d in
        let d := d_Set d "arn" (VString arn) in
        let d := d_Set d "default_association_route_table"
                   (VBoolPtr (DefaultAssociationRouteTable transitGatewayRouteTable)) in
        let d := d_Set d "default_propagation_route_table"
                   (VBoolPtr (DefaultPropagationRouteTable transitGatewayRouteTable)) in
        let d := d_Set d "transit_gateway_id"
                   (VStringPtr (rt_TransitGatewayId transitGatewayRouteTable)) in
        let tags := IgnoreAWSAndConfig meta (rt_Tags transitGatewayRouteTable) in
        let d := d_Set d "tags" (VMap (RemoveDefaultConfig meta tags)) in
        let d := d_Set d "tags_all" (VMap tags) in
        mret (diags, d)
    end.

Definition resourceTransitGatewayRouteTableCreate (d : ResourceData)
  : M St (Diagnostics * ResourceData) :=
  let diags : Diagnostics := [] in
  let tags := MergeTags meta (d_Get_map d "tags") in
  let input := {| crt_TransitGatewayId := Some (d_Get_string d "transit_gateway_id");
                  crt_TagSpecifications := tags |} in
  '(output, err) ← sdk_call_out CreateTransitGatewayRouteTableCall
                     (CreateTransitGatewayRouteTableWithContext conn) input;
  match err with
  | Some e =>
      mret (AppendErrorf diags
              ("creating EC2 Transit Gateway Route Table: " +:+ Error_text e), d)
  | None =>
      let d := d_SetId d (StringValue (TransitGatewayRouteTableId output)) in
      err ← request WaitTransitGatewayRouteTableCreatedCall
              (WaitTransitGatewayRouteTableCreated conn) (d_Id d);
      match err with
      | Some e =>
          mret (AppendErrorf diags
                  ("waiting for EC2 Transit Gateway Route Table (" +:+ d_Id d
                   +:+ ") create: " +:+ Error_text e), d)
      | None =>
          '(diags', d) ← resourceTransitGatewayRouteTableRead d;
          mret (diags ++ diags', d)
      end
  end.

Definition resourceTransitGatewayRouteTableUpdate (d : ResourceData)
  : M St (Diagnostics * ResourceData) :=
  let diags : Diagnostics := [] in
  if d_HasChange d "tags_all" then
    err ← request UpdateTagsCall (UpdateTags conn) (d_Id d, d_GetChange d "tags_all");
    match err with
    | Some e =>
        mret (AppendErrorf diags
                ("updating EC2 Transit Gateway Route Table (" +:+ d_Id d
                 +:+ ") tags: " +:+ Error_text e), d)
    | None => mret (diags, d)
    end
  else mret (diags, d).

Definition resourceTransitGatewayRouteTableDelete (d : ResourceData)
  : M St (Diagnostics * ResourceData) :=
  let diags : Diagnostics := [] in
  err ← sdk_call DeleteTransitGatewayRouteTableCall
          (DeleteTransitGatewayRouteTableWithContext conn) (Some (d_Id d));
  if ErrCodeEquals err errCodeInvalidRouteTableIDNotFound then
    mret (diags, d)
  else
    match err with
    | Some e =>
        mret (AppendErrorf diags
                ("deleting EC2 Transit Gateway Route Table (" +:+ d_Id d +:+ "): "
                 +:+ Error_text e), d)
    | None =>
        err ← request WaitTransitGatewayRouteTableDeletedCall
                (WaitTransitGatewayRouteTableDeleted conn) (d_Id d);
        match err with
        | Some e =>
            mret (AppendErrorf diags
                    ("waiting for EC2 Transit Gateway Route Table (" +:+ d_Id d
                     +:+ ") delete: " +:+ Error_text e), d)
        | None => mret (diags, d)
        end
    end.

End TransitGateway.

(** ** The schemas of the resources

    [schema.Schema], the fields these resources use; [Elem], [Set] and
    [ValidateFunc] refer to functions outside these files and are left
    out. *)

Inductive ValueType :=
| TypeBool | TypeInt | TypeString | TypeList | TypeSet | TypeMap.

Record Schema := {
  sch_Type : ValueType;
  sch_Required : bool;
  sch_Optional : bool;
  sch_Computed : bool;
  sch_ForceNew : bool;
  sch_Default : option Value
}.

Definition required_forcenew (t : ValueType) : Schema :=
  {| sch_Type := t; sch_Required := true; sch_Optional := false;
     sch_Computed := false; sch_ForceNew := true; sch_Default := None |}.

Definition optional_field (t : ValueType) : Schema :=
  {| sch_Type := t; sch_Required := false; sch_Optional := true;
     sch_Computed := false; sch_ForceNew := false; sch_Default := None |}.

Definition optional_forcenew (t : ValueType) : Schema :=
  {| sch_Type := t; sch_Required := false; sch_Optional := true;
     sch_Computed := false; sch_ForceNew := true; sch_Default := None |}.

Definition optional_default (t : ValueType) (v : Value) : Schema :=
  {| sch_Type := t; sch_Required := false; sch_Optional := true;
     sch_Computed := false; sch_ForceNew := false; sch_Default := Some v |}.

Definition optional_computed (t : ValueType) : Schema :=
  {| sch_Type := t; sch_Required := false; sch_Optional := true;
     sch_Computed := true; sch_ForceNew := false; sch_Default := None |}.

Definition computed_field (t : ValueType) : Schema :=
  {| sch_Type := t; sch_Required := false; sch_Optional := false;
     sch_Computed := true; sch_ForceNew := false; sch_Default := None |}.

Section Schemas.
(** [tftags.TagsSchema()] and [tftags.TagsSchemaComputed()], defined outside
    these files *)
Context (TagsSchema TagsSchemaComputed : Schema).

(** The [Schema] map of [DataSourceClusterSnapshot], in the order of the
    source *)
Definition DataSourceClusterSnapshot_Schema : list (string * Schema) :=
  [ ("db_cluster_identifier", optional_field TypeString);
    ("db_cluster_snapshot_identifier", optional_field TypeString);
    ("snapshot_type", optional_field TypeString);
    ("include_shared", optional_default TypeBool (VBool false));
    ("include_public", optional_default TypeBool (VBool false));
    ("most_recent", optional_default TypeBool (VBool false));
    ("allocated_storage", computed_field TypeInt);
    ("availability_zones", computed_field TypeList);
    ("db_cluster_snapshot_arn", computed_field TypeString);
    ("storage_encrypted", computed_field TypeBool);
    ("engine", computed_field TypeString);
    ("engine_version", computed_field TypeString);
    ("kms_key_id", computed_field TypeString);
    ("license_model", computed_field TypeString);
    ("port", computed_field TypeInt);
    ("source_db_cluster_snapshot_arn", computed_field TypeString);
    ("snapshot_create_time", computed_field TypeString);
    ("status", computed_field TypeString);
    ("vpc_id", computed_field TypeString);
    ("tags", TagsSchemaComputed) ].

(** The [Schema] map of [ResourceConfigurationTemplate] *)
Definition ResourceConfigurationTemplate_Schema : list (string * Schema) :=
  [ ("application", required_forcenew TypeString);
    ("description", optional_field TypeString);
    ("environment_id", optional_forcenew TypeString);
    ("name", required_forcenew TypeString);
    ("setting", optional_computed TypeSet);
    ("solution_stack_name", optional_forcenew TypeString) ].

(** The [Schema] map of [ResourceTransitGatewayPeeringAttachmentAccepter] *)
Definition ResourceTransitGatewayPeeringAttachmentAccepter_Schema
  : list (string * Schema) :=
  [ ("peer_account_id", computed_field TypeString);
    ("peer_region", computed_field TypeString);
    ("peer_transit_gateway_id", computed_field TypeString);
    ("tags", TagsSchema);
    ("tags_all", TagsSchemaComputed);
    ("transit_gateway_attachment_id", required_forcenew TypeString);
    ("transit_gateway_id", computed_field TypeString) ].

(** The [Schema] map of [ResourceTransitGatewayRouteTable] *)
Definition ResourceTransitGatewayRouteTable_Schema : list (string * Schema) :=
  [ ("arn", computed_field TypeString);
    ("default_association_route_table", computed_field TypeBool);
    ("default_propagation_route_table", computed_field TypeBool);
    ("tags", TagsSchema);
    ("tags_all", TagsSchemaComputed);
    ("transit_gateway_id", required_forcenew TypeString) ].

End Schemas.

(** The attributes a schema declares *)
Definition declared (schema : list (string * Schema)) (k : string) : Prop :=
  k ∈ schema.*1.

(** From [d] to [d'] only attributes of [schema] were written: the prior
    state and the new-resource mark are as they were, and so is every value
    under a key the schema does not declare (the id may have changed). *)
Definition writes_within (schema : list (string * Schema)) (d d' : ResourceData) : Prop :=
  d_isNew d' = d_isNew d ∧ d_state d' = d_state d ∧
  ∀ k, ¬ declared schema k → d_values d' !! k = d_values d !! k.

(** * Vocabulary of the properties *)

(** ** Sorted slices *)

(** The order a comparator sorts by is given by a rank of the elements:
    the comparator may answer either way on elements of equal rank. *)
Class Rank (A : Type) := rank : A → Z.

Section SortVocabulary.
Context {A : Type} `{Rank A}.

(** The rank of [a[i]] *)
Definition key (a : list A) (i : Z) : Z :=
  match index a i with
  | Some x => rank x
  | None => 0
  end.

Definition sorted (lo hi : Z) (a : list A) : Prop :=
  ∀ k1 k2, lo ≤ k1 → k1 ≤ k2 → k2 < hi → key a k1 ≤ key a k2.

(** What a call that works on [a[lo:hi]] may change: the slice is permuted,
    ranks outside the range stay, and bounds on the ranks inside the range
    are kept. *)
Definition frame (lo hi : Z) (a a' : list A) : Prop :=
  Zlen a' = Zlen a ∧ a' ≡ₚ a ∧
  (∀ k, ¬ (lo ≤ k < hi) → key a' k = key a k) ∧
  (∀ m, (∀ k, lo ≤ k < hi → m ≤ key a k) → ∀ k, lo ≤ k < hi → m ≤ key a' k) ∧
  (∀ m, (∀ k, lo ≤ k < hi → key a k ≤ m) → ∀ k, lo ≤ k < hi → key a' k ≤ m).

(** Every parent at or after [lo] dominates its children below [hi]
    (positions are absolute, the heap starts at [first]). *)
Definition heap (first lo hi : Z) (a : list A) : Prop :=
  ∀ P C, first + lo ≤ P → C < first + hi →
    2 * (P - first) + 1 ≤ C - first → C - first ≤ 2 * (P - first) + 2 →
    key a C ≤ key a P.

(** Everything before [a] ranks at most as high as everything in
    [a[a:b]]: what [pdqsort] knows about the slice it is working on. *)
Definition prefix_le (a b : Z) (data : list A) : Prop :=
  ∀ k1 k2, 0 ≤ k1 → k1 < a → a ≤ k2 → k2 < b → key data k1 ≤ key data k2.

(** Ranks are left as they are (elements of equal rank may have moved). *)
Definition same_keys (data data' : list A) : Prop :=
  Zlen data' = Zlen data ∧ data' ≡ₚ data ∧ ∀ k, key data' k = key data k.

End SortVocabulary.

(** ** Snapshots by creation time *)

(** What [Less] decides from the two elements it reads *)
Definition less_snapshot (x y : DBClusterSnapshot) : bool :=
  match SnapshotCreateTime x with
  | None => true
  | Some ti =>
      match SnapshotCreateTime y with
      | None => false
      | Some tj => Before ti tj
      end
  end.

(** A rank that [less_snapshot] follows: snapshots still being created sit
    at [c], and a snapshot created at [t] sits above [c] and above every
    snapshot created earlier. *)
Definition rank_snapshot (c : Z) (s : DBClusterSnapshot) : Z :=
  match SnapshotCreateTime s with
  | None => c
  | Some t => Z.max t c + 1
  end.

(** [Less] on a slice that may hold nil pointers, as the type
    [[]*rds.DBClusterSnapshot] allows: [a[i].SnapshotCreateTime] panics on
    an index out of range and on a nil entry. *)
Definition rdsClusterSnapshotSort_Less_nilable (a : list (option DBClusterSnapshot))
    (i j : Z) : result bool :=
  let* pi := of_option (index a i) in
  let* x := of_option pi in
  match SnapshotCreateTime x with
  | None => Done true
  | Some ti =>
      let* pj := of_option (index a j) in
      let* y := of_option pj in
      match SnapshotCreateTime y with
      | None => Done false
      | Some tj => Done (Before ti tj)
      end
  end.

(** [x] is at least as recent as [y], an absent creation time being the
    least recent *)
Definition at_least_as_recent (x y : DBClusterSnapshot) : Prop :=
  match SnapshotCreateTime y, SnapshotCreateTime x with
  | None, _ => True
  | Some t, Some t' => t ≤ t'
  | Some _, None => False
  end.

(** Strict weak orderings on the positions of a slice, for a comparator
    that may panic *)
Definition irreflexive_on {T} `{Interface T} (a : T) : Prop :=
  ∀ i, Less a i i ≠ Done true.

Definition asymmetric_on {T} `{Interface T} (a : T) : Prop :=
  ∀ i j, Less a i j = Done true → Less a j i ≠ Done true.

Definition transitive_on {T} `{Interface T} (a : T) : Prop :=
  ∀ i j k, Less a i j = Done true → Less a j k = Done true → Less a i k = Done true.

Definition incomparable_on {T} `{Interface T} (a : T) (i j : Z) : Prop :=
  Less a i j = Done false ∧ Less a j i = Done false.

Definition strict_weak_order_on {T} `{Interface T} (a : T) : Prop :=
  irreflexive_on a ∧ asymmetric_on a ∧ transitive_on a ∧
  ∀ i j k, incomparable_on a i j → incomparable_on a j k → incomparable_on a i k.

(** A snapshot that is still being created, and one created at [t] *)
Definition snapshot_in_progress (id : string) : DBClusterSnapshot :=
  {| AllocatedStorage := None; AvailabilityZones := [];
     DBClusterIdentifier := Some "cluster"; DBClusterSnapshotArn := None;
     DBClusterSnapshotIdentifier := Some id; Engine := None; EngineVersion := None;
     KmsKeyId := None; LicenseModel := None; Port := None;
     SnapshotCreateTime := None; SnapshotType := None;
     SourceDBClusterSnapshotArn := None; Status := Some "creating";
     StorageEncrypted := None; VpcId := None |}.

Definition snapshot_at (id : string) (t : Time) : DBClusterSnapshot :=
  {| AllocatedStorage := None; AvailabilityZones := [];
     DBClusterIdentifier := Some "cluster"; DBClusterSnapshotArn := None;
     DBClusterSnapshotIdentifier := Some id; Engine := None; EngineVersion := None;
     KmsKeyId := None; LicenseModel := None; Port := None;
     SnapshotCreateTime := Some t; SnapshotType := None;
     SourceDBClusterSnapshotArn := None; Status := Some "available";
     StorageEncrypted := None; VpcId := None |}.

(** The read selected [x]: the id and every attribute but the tags are
    those of [x]. *)
Definition snapshot_selected (Format_RFC3339 : Time → string) (d : ResourceData)
    (x : DBClusterSnapshot) (d' : ResourceData) : Prop :=
  d_id d' = StringValue (DBClusterSnapshotIdentifier x) ∧
  ∀ k, k ≠ "tags" →
    d_values d' !! k = d_values (setSnapshotAttributes Format_RFC3339 d x) !! k.

(** A service that answers every describe request with [snapshots] and has
    no tags *)
Definition rds_answering (snapshots : list DBClusterSnapshot) : RDS unit :=
  {| DescribeDBClusterSnapshotsWithContext := λ _ w,
       (({| DBClusterSnapshots := snapshots |}, None), w);
     ListTags := λ _ w, ((∅, None), w) |}.

(** A configuration of the data source that names a cluster *)
Definition snapshot_query (most_recent : bool) : ResourceData :=
  {| d_id := EmptyString; d_isNew := true; d_state := ∅;
     d_values := {[ "db_cluster_identifier" := VString "cluster";
                    "most_recent" := VBool most_recent ]} |}.

(** A service without state that answers every describe request and every
    tag listing the same way *)
Definition rds_service
    (describe : DescribeDBClusterSnapshotsOutput * option api_error)
    (tags : gmap string string * option error) : RDS unit :=
  {| DescribeDBClusterSnapshotsWithContext := λ _ w, (describe, w);
     ListTags := λ _ w, (tags, w) |}.

(** The attributes the read writes for the snapshot it selected, but for
    the creation time and the tags *)
Definition snapshot_attributes (x : DBClusterSnapshot) : list (string * Value) :=
  [ ("allocated_storage", VIntPtr (AllocatedStorage x));
    ("availability_zones", VList (AvailabilityZones x));
    ("db_cluster_identifier", VStringPtr (DBClusterIdentifier x));
    ("db_cluster_snapshot_arn", VStringPtr (DBClusterSnapshotArn x));
    ("db_cluster_snapshot_identifier", VStringPtr (DBClusterSnapshotIdentifier x));
    ("engine", VStringPtr (Engine x));
    ("engine_version", VStringPtr (EngineVersion x));
    ("kms_key_id", VStringPtr (KmsKeyId x));
    ("license_model", VStringPtr (LicenseModel x));
    ("port", VIntPtr (Port x));
    ("snapshot_type", VStringPtr (SnapshotType x));
    ("source_db_cluster_snapshot_arn", VStringPtr (SourceDBClusterSnapshotArn x));
    ("status", VStringPtr (Status x));
    ("storage_encrypted", VBoolPtr (StorageEncrypted x));
    ("vpc_id", VStringPtr (VpcId x)) ].

(** ** Configuration templates *)

(** [sub] occurs in [s] *)
Definition is_substring (sub s : string) : Prop := ∃ p q, s = p +:+ sub +:+ q.

(** The request of the read-back and of the finder *)
Definition describeInput (applicationName templateName : string)
  : DescribeConfigurationSettingsInput :=
  {| describe_ApplicationName := Some applicationName;
     describe_TemplateName := Some templateName |}.

(** The describe request failed because the template or its application
    does not exist. *)
Definition template_missing (sdkerr : option api_error) : Prop :=
  ∃ m, sdkerr = Some (awserr "InvalidParameterValue" m) ∧
       (is_substring "No Configuration Template named" m ∨
        is_substring "No Application named" m).

(** The removals the comment above the loops describes: the settings of
    [rm] whose namespace and option name occur in no setting of [add], each
    once *)
Definition remove_not_in_add (rm add : list ConfigurationOptionSetting)
  : list ConfigurationOptionSetting :=
  List.filter (λ r, forallb (λ a, negb (same_option r a)) add) rm.

(** A service without state that answers every request the same way *)
Definition eb_answering (create update validate : option api_error)
    (describe : option DescribeConfigurationSettingsOutput * option api_error)
  : ElasticBeanstalk unit :=
  {| CreateConfigurationTemplateWithContext := λ _ w, (create, w);
     DescribeConfigurationSettingsWithContext := λ _ w, (describe, w);
     UpdateConfigurationTemplateWithContext := λ _ w, (update, w);
     ValidateConfigurationSettingsWithContext := λ _ w, (validate, w);
     DeleteConfigurationTemplateWithContext := λ _ w, (None, w) |}.

(** [tfresource.NotFound] on the errors of the model *)
Definition is_NotFoundError (err : option error) : bool :=
  match err with
  | Some (NotFoundError _) => true
  | _ => false
  end.

(** The resource data of a template in an update: prior state and plan *)
Definition template_data (old_description new_description : string) (os ns : Set_)
  : ResourceData :=
  {| d_id := "tmpl"; d_isNew := false;
     d_state := {[ "application" := VString "app"; "name" := VString "tmpl";
                   "description" := VString old_description; "setting" := VSet os ]};
     d_values := {[ "application" := VString "app"; "name" := VString "tmpl";
                    "description" := VString new_description; "setting" := VSet ns ]} |}.

Definition template_description : ConfigurationSettingsDescription :=
  {| csd_ApplicationName := Some "app"; csd_Description := Some "first";
     csd_TemplateName := Some "tmpl"; csd_SolutionStackName := Some "stack" |}.

Definition min_size (v : string) : setting :=
  {| setting_namespace := "aws:autoscaling:asg"; setting_name := "MinSize";
     setting_value := v; setting_resource := EmptyString |}.

Definition max_size (v : string) : setting :=
  {| setting_namespace := "aws:autoscaling:asg"; setting_name := "MaxSize";
     setting_value := v; setting_resource := EmptyString |}.

Definition cooldown (v : string) : setting :=
  {| setting_namespace := "aws:autoscaling:asg"; setting_name := "Cooldown";
     setting_value := v; setting_resource := EmptyString |}.

(** The requests by which the steps of an update show in the trace: the
    description update, the validation that opens the option-settings
    update, and the read-back *)
Definition description_call (d : ResourceData) : EBCall :=
  UpdateConfigurationTemplateCall (descriptionUpdateInput d).

Definition validate_call (d : ResourceData) : EBCall :=
  ValidateConfigurationSettingsCall (validateInput d).

Definition read_back_call (d : ResourceData) : EBCall :=
  DescribeConfigurationSettingsCall (describeInput (d_Get_string d "application") (d_Id d)).

(** The requests of an update handler: with no change only the read-back;
    the description update exactly when the description changed; the
    option-settings update exactly when the setting changed. *)
Definition update_calls_by_change (d : ResourceData) (calls : list EBCall) : Prop :=
  (d_HasChange d "description" = false → d_HasChange d "setting" = false →
     calls = [read_back_call d]) ∧
  (description_call d ∈ calls ↔ d_HasChange d "description" = true) ∧
  (validate_call d ∈ calls ↔ d_HasChange d "setting" = true).

(** What a handler of the template may do to the resource data: write
    attributes of the schema, but neither the settings nor the environment
    id, which only the configuration provides *)
Definition template_frame (d d' : ResourceData) : Prop :=
  writes_within ResourceConfigurationTemplate_Schema d d' ∧
  d_values d' !! "setting" = d_values d !! "setting" ∧
  d_values d' !! "environment_id" = d_values d !! "environment_id".

(** The request by which the option-settings update changes the template
    from the old set [os] to the new set [ns] *)
Definition settingsUpdateInput (d : ResourceData) (os ns : Set_)
  : UpdateConfigurationTemplateInput :=
  {| update_ApplicationName := Some (d_Get_string d "application");
     update_TemplateName := Some (d_Get_string d "name");
     update_Description := None;
     update_OptionSettings := settings_add os ns;
     update_OptionsToRemove :=
       optionsToRemove (remove_loop (settings_rm os ns) (settings_add os ns)) |}.

(** The diagnostic by which the update handler reports the error [e] *)
Definition update_failed (d : ResourceData) (e : api_error) : Diagnostic :=
  {| severity := Error;
     Summary := "updating Elastic Beanstalk Configuration Template (" +:+ d_Id d +:+ "): "
                +:+ api_error_text e |}.

(** The request by which the option-settings update changes the
    settings: the last request of that update *)
Definition settings_call (d : ResourceData) : EBCall :=
  let '(o, n) := d_GetChange d "setting" in
  let os := match o with Some (VSet s) => s | _ => [] end in
  let ns := match n with Some (VSet s) => s | _ => [] end in
  UpdateConfigurationTemplateCall (settingsUpdateInput d os ns).

(** The requests of an update handler by what changed and what succeeded:
    with no change only the read-back; the description update exactly when
    the description changed; the validation that opens the option-settings
    update exactly when the setting changed and the description update, if
    there was one, succeeded; and the request that changes the settings
    exactly when, moreover, the validation succeeded. *)
Definition update_calls_by_change_and_success (d : ResourceData)
    (description_failed validation_failed : bool) (calls : list EBCall) : Prop :=
  (d_HasChange d "description" = false → d_HasChange d "setting" = false →
     calls = [read_back_call d]) ∧
  (description_call d ∈ calls ↔ d_HasChange d "description" = true) ∧
  (validate_call d ∈ calls ↔
     d_HasChange d "setting" = true ∧
     ¬ (d_HasChange d "description" = true ∧ description_failed = true)) ∧
  (settings_call d ∈ calls ↔
     d_HasChange d "setting" = true ∧
     ¬ (d_HasChange d "description" = true ∧ description_failed = true) ∧
     validation_failed = false).

(** ** Transit gateways *)

Definition no_attachment : TransitGatewayPeeringAttachment :=
  {| TransitGatewayAttachmentId := None;
     AccepterTgwInfo := {| OwnerId := None; Region := None; tgw_TransitGatewayId := None |};
     RequesterTgwInfo := {| OwnerId := None; Region := None; tgw_TransitGatewayId := None |};
     pa_Tags := ∅ |}.

Definition no_route_table : TransitGatewayRouteTable :=
  {| TransitGatewayRouteTableId := None; rt_TransitGatewayId := None;
     DefaultAssociationRouteTable := None; DefaultPropagationRouteTable := None;
     rt_Tags := ∅ |}.

(** A service without state in which accepting an attachment and deleting
    an attachment or a route table answer with the given errors, and every
    other request succeeds *)
Definition ec2_answering (accept delete : option api_error) : EC2 unit :=
  {| AcceptTransitGatewayPeeringAttachmentWithContext := λ _ w,
       ((no_attachment, accept), w);
     DeleteTransitGatewayPeeringAttachmentWithContext := λ _ w, (delete, w);
     CreateTransitGatewayRouteTableWithContext := λ _ w, ((no_route_table, None), w);
     DeleteTransitGatewayRouteTableWithContext := λ _ w, (delete, w);
     WaitTransitGatewayPeeringAttachmentAccepted := λ _ w, (None, w);
     WaitTransitGatewayPeeringAttachmentDeleted := λ _ w, (None, w);
     WaitTransitGatewayRouteTableCreated := λ _ w, (None, w);
     WaitTransitGatewayRouteTableDeleted := λ _ w, (None, w);
     CreateTags := λ _ w, (None, w);
     UpdateTags := λ _ w, (None, w);
     FindTransitGatewayPeeringAttachmentByID := λ _ w, ((no_attachment, None), w);
     FindTransitGatewayByID := λ _ w, (None, w);
     FindTransitGatewayRouteTableByID := λ _ w, ((no_route_table, None), w) |}.

Definition client : AWSClient :=
  {| MergeTags := id; IgnoreAWSAndConfig := id; RemoveDefaultConfig := id;
     Partition := "aws"; client_Region := "eu-west-1"; AccountID := "123456789012" |}.

(** The resource data of a transit-gateway resource with id [id] *)
Definition gateway_data (id : string) : ResourceData :=
  {| d_id := id; d_isNew := false; d_state := ∅;
     d_values := {[ "transit_gateway_attachment_id" := VString "tgw-attach-1";
                    "transit_gateway_id" := VString "tgw-1" ]} |}.

(** A service without state: [create] answers the accept and the create
    requests, [delete] the delete requests, [wait] the waiters, [tagging]
    the tag helpers and [find] the finders. *)
Definition ec2_service (create delete : option api_error) (wait tagging find : option error)
  : EC2 unit :=
  {| AcceptTransitGatewayPeeringAttachmentWithContext := λ _ w,
       ((no_attachment, create), w);
     DeleteTransitGatewayPeeringAttachmentWithContext := λ _ w, (delete, w);
     CreateTransitGatewayRouteTableWithContext := λ _ w, ((no_route_table, create), w);
     DeleteTransitGatewayRouteTableWithContext := λ _ w, (delete, w);
     WaitTransitGatewayPeeringAttachmentAccepted := λ _ w, (wait, w);
     WaitTransitGatewayPeeringAttachmentDeleted := λ _ w, (wait, w);
     WaitTransitGatewayRouteTableCreated := λ _ w, (wait, w);
     WaitTransitGatewayRouteTableDeleted := λ _ w, (wait, w);
     CreateTags := λ _ w, (tagging, w);
     UpdateTags := λ _ w, (tagging, w);
     FindTransitGatewayPeeringAttachmentByID := λ _ w, ((no_attachment, find), w);
     FindTransitGatewayByID := λ _ w, (find, w);
     FindTransitGatewayRouteTableByID := λ _ w, ((no_route_table, find), w) |}.

(** What a read-back may do to the id: keep it, or clear it when the
    resource is not new *)
Definition id_kept_or_cleared (d d' : ResourceData) : Prop :=
  d_Id d' = d_Id d ∨ d_IsNewResource d = false ∧ d_Id d' = EmptyString.

(** The attributes the read of the accepter writes for the attachment
    [pa], and those the read of the route table with id [id] writes for the
    route table [rt] *)
Definition attachment_attributes (meta : AWSClient) (pa : TransitGatewayPeeringAttachment)
  : list (string * Value) :=
  let tags := IgnoreAWSAndConfig meta (pa_Tags pa) in
  [ ("peer_account_id", VStringPtr (OwnerId (RequesterTgwInfo pa)));
    ("peer_region", VStringPtr (Region (RequesterTgwInfo pa)));
    ("peer_transit_gateway_id", VStringPtr (tgw_TransitGatewayId (RequesterTgwInfo pa)));
    ("transit_gateway_attachment_id", VStringPtr (TransitGatewayAttachmentId pa));
    ("transit_gateway_id", VStringPtr (tgw_TransitGatewayId (AccepterTgwInfo pa)));
    ("tags", VMap (RemoveDefaultConfig meta tags));
    ("tags_all", VMap tags) ].

Definition route_table_attributes (meta : AWSClient) (id : string)
    (rt : TransitGatewayRouteTable) : list (string * Value) :=
  let tags := IgnoreAWSAndConfig meta (rt_Tags rt) in
  [ ("arn", VString ("arn:" +:+ Partition meta +:+ ":ec2:" +:+ client_Region meta +:+ ":"
                     +:+ AccountID meta +:+ ":transit-gateway-route-table/" +:+ id));
    ("default_association_route_table", VBoolPtr (DefaultAssociationRouteTable rt));
    ("default_propagation_route_table", VBoolPtr (DefaultPropagationRouteTable rt));
    ("transit_gateway_id", VStringPtr (rt_TransitGatewayId rt));
    ("tags", VMap (RemoveDefaultConfig meta tags));
    ("tags_all", VMap tags) ].

(** The request of the route-table create, and the merged tags of a
    create *)
Definition mergedTags (meta : AWSClient) (d : ResourceData) : gmap string string :=
  MergeTags meta (d_Get_map d "tags").

Definition routeTableInput (meta : AWSClient) (d : ResourceData)
  : CreateTransitGatewayRouteTableInput :=
  {| crt_TransitGatewayId := Some (d_Get_string d "transit_gateway_id");
     crt_TagSpecifications := mergedTags meta d |}.

(** The requests of the read-backs *)
Definition is_find (c : EC2Call) : Prop :=
  match c with
  | FindTransitGatewayPeeringAttachmentByIDCall _
  | FindTransitGatewayByIDCall _
  | FindTransitGatewayRouteTableByIDCall _ => True
  | _ => False
  end.

(** ** Resources that are being created *)

(** The resource data of a template and of a transit-gateway resource at
    create time: no id yet, no prior state *)
Definition fresh_template : ResourceData :=
  {| d_id := EmptyString; d_isNew := true; d_state := ∅;
     d_values := {[ "application" := VString "app"; "name" := VString "tmpl";
                    "setting" := VSet [min_size "1"] ]} |}.

Definition fresh_gateway_data (tags : gmap string string) : ResourceData :=
  {| d_id := EmptyString; d_isNew := true; d_state := ∅;
     d_values := {[ "transit_gateway_attachment_id" := VString "tgw-attach-1";
                    "transit_gateway_id" := VString "tgw-1";
                    "tags" := VMap tags ]} |}.

(** An attachment and a route table as the service describes them *)
Definition accepted_attachment : TransitGatewayPeeringAttachment :=
  {| TransitGatewayAttachmentId := Some "tgw-attach-1";
     AccepterTgwInfo := {| OwnerId := Some "111122223333"; Region := Some "eu-west-1";
                           tgw_TransitGatewayId := Some "tgw-1" |};
     RequesterTgwInfo := {| OwnerId := Some "444455556666"; Region := Some "us-east-1";
                            tgw_TransitGatewayId := Some "tgw-2" |};
     pa_Tags := {[ "Name" := "peering" ]} |}.

Definition created_route_table : TransitGatewayRouteTable :=
  {| TransitGatewayRouteTableId := Some "tgw-rtb-1"; rt_TransitGatewayId := Some "tgw-1";
     DefaultAssociationRouteTable := Some false;
     DefaultPropagationRouteTable := Some false;
     rt_Tags := ∅ |}.

(** A service without state that holds the attachment [pa] and the route
    table [rt]: the accept, the create and the finders return them, with the
    errors given as for [ec2_service]. *)
Definition ec2_returning (pa : TransitGatewayPeeringAttachment)
    (rt : TransitGatewayRouteTable) (create delete : option api_error)
    (wait tagging find : option error) : EC2 unit :=
  {| AcceptTransitGatewayPeeringAttachmentWithContext := λ _ w, ((pa, create), w);
     DeleteTransitGatewayPeeringAttachmentWithContext := λ _ w, (delete, w);
     CreateTransitGatewayRouteTableWithContext := λ _ w, ((rt, create), w);
     DeleteTransitGatewayRouteTableWithContext := λ _ w, (delete, w);
     WaitTransitGatewayPeeringAttachmentAccepted := λ _ w, (wait, w);
     WaitTransitGatewayPeeringAttachmentDeleted := λ _ w, (wait, w);
     WaitTransitGatewayRouteTableCreated := λ _ w, (wait, w);
     WaitTransitGatewayRouteTableDeleted := λ _ w, (wait, w);
     CreateTags := λ _ w, (tagging, w);
     UpdateTags := λ _ w, (tagging, w);
     FindTransitGatewayPeeringAttachmentByID := λ _ w, ((pa, find), w);
     FindTransitGatewayByID := λ _ w, (find, w);
     FindTransitGatewayRouteTableByID := λ _ w, ((rt, find), w) |}.

(** * Facts about slices *)

Ltac zb :=
  repeat match goal with
  | H : (_ <=? _) = true |- _ => apply Z.leb_le in H
  | H : (_ <=? _) = false |- _ => apply Z.leb_gt in H
  | H : (_ <? _) = true |- _ => apply Z.ltb_lt in H
  | H : (_ <? _) = false |- _ => apply Z.ltb_ge in H
  | H : (_ =? _) = true |- _ => apply Z.eqb_eq in H
  | H : (_ =? _) = false |- _ => apply Z.eqb_neq in H
  end.

Lemma index_Some_inb {A} (a : list A) i x : index a i = Some x → 0 ≤ i < Zlen a.
Proof.
  unfold index, Zlen. destruct (0 <=? i) eqn:E; [|done].
  intros Hl%lookup_lt_Some. lia.
Qed.

Lemma index_inb {A} (a : list A) i : 0 ≤ i < Zlen a → ∃ x, index a i = Some x.
Proof.
  unfold index, Zlen. intros Hi.
  destruct (0 <=? i) eqn:E; [|lia].
  destruct (lookup_lt_is_Some_2 a (Z.to_nat i)) as [x Hx]; [lia|eauto].
Qed.

Lemma index_None {A} (a : list A) i : ¬ (0 ≤ i < Zlen a) → index a i = None.
Proof.
  intros Hi. destruct (index a i) eqn:E; [|done].
  apply index_Some_inb in E. lia.
Qed.

Lemma index_elem_of {A} (a : list A) i x : index a i = Some x → x ∈ a.
Proof.
  unfold index. destruct (0 <=? i); [|done]. apply list_elem_of_lookup_2.
Qed.

Lemma elem_of_index {A} (a : list A) x : x ∈ a → ∃ i, index a i = Some x.
Proof.
  intros [n Hn]%list_elem_of_lookup_1. exists (Z.of_nat n).
  unfold index. destruct (0 <=? Z.of_nat n) eqn:E; [|zb; lia].
  by rewrite Nat2Z.id.
Qed.

Lemma Zlen_swp {A} (a : list A) i j : Zlen (swp a i j) = Zlen a.
Proof.
  unfold swp, Zlen. destruct (index a i), (index a j); try done.
  by rewrite !length_insert.
Qed.

Lemma index_swp_l {A} (a : list A) i j :
  0 ≤ i < Zlen a → 0 ≤ j < Zlen a → index (swp a i j) i = index a j.
Proof.
  intros Hi Hj. unfold swp.
  destruct (index_inb a i Hi) as [x Hx], (index_inb a j Hj) as [y Hy].
  rewrite Hx, Hy. unfold index. destruct (0 <=? i) eqn:E; [|lia].
  rewrite list_lookup_insert_eq; [|rewrite length_insert; unfold Zlen in *; lia].
  unfold index in Hy. by destruct (0 <=? j).
Qed.

Lemma index_swp_r {A} (a : list A) i j :
  0 ≤ i < Zlen a → 0 ≤ j < Zlen a → index (swp a i j) j = index a i.
Proof.
  intros Hi Hj. destruct (decide (i = j)) as [->|Hne]; [by apply index_swp_l|].
  unfold swp.
  destruct (index_inb a i Hi) as [x Hx], (index_inb a j Hj) as [y Hy].
  rewrite Hx, Hy. unfold index. destruct (0 <=? j) eqn:E; [|lia].
  unfold Zlen in *.
  rewrite list_lookup_insert_ne by lia.
  rewrite list_lookup_insert_eq by lia.
  unfold index in Hx. by destruct (0 <=? i).
Qed.

Lemma index_swp_ne {A} (a : list A) i j k :
  k ≠ i → k ≠ j → index (swp a i j) k = index a k.
Proof.
  intros Hi Hj. unfold swp.
  destruct (index a i) as [x|] eqn:Hx; [|done].
  destruct (index a j) as [y|] eqn:Hy; [|done].
  apply index_Some_inb in Hx, Hy. unfold Zlen in *.
  unfold index. destruct (0 <=? k) eqn:E; [|done].
  rewrite !list_lookup_insert_ne by lia. done.
Qed.

Lemma insert_swap_perm {A} (l : list A) (j : nat) (x y : A) :
  l !! j = Some y → y :: <[j:=x]> l ≡ₚ x :: l.
Proof.
  revert j. induction l as [|z l IH]; intros [|j] Hj; simplify_eq/=.
  - apply Permutation_swap.
  - etrans; [apply Permutation_swap|]. etrans; [|apply Permutation_swap].
    f_equiv. by apply IH.
Qed.

Lemma insert_insert_perm {A} (l : list A) (i j : nat) (x y : A) :
  l !! i = Some x → l !! j = Some y → <[i:=y]> (<[j:=x]> l) ≡ₚ l.
Proof.
  revert i j. induction l as [|z l IH]; intros [|i] [|j] Hi Hj; simplify_eq/=.
  - done.
  - by apply insert_swap_perm.
  - by apply insert_swap_perm.
  - f_equiv. by apply IH.
Qed.

Lemma swp_perm {A} (a : list A) i j : swp a i j ≡ₚ a.
Proof.
  unfold swp.
  destruct (index a i) as [x|] eqn:Hx; [|done].
  destruct (index a j) as [y|] eqn:Hy; [|done].
  unfold index in *. destruct (0 <=? i), (0 <=? j); try done.
  by apply insert_insert_perm.
Qed.

Lemma swap_slice_inb {A} (a : list A) i j :
  0 ≤ i < Zlen a → 0 ≤ j < Zlen a → swap_slice a i j = Done (swp a i j).
Proof.
  intros Hi Hj. unfold swap_slice.
  destruct (index_inb a i Hi) as [x ->], (index_inb a j Hj) as [y ->]. done.
Qed.

(** * Correctness of the sort package on slices

    The comparator is only required to be compatible with a ranking of the
    elements: [less x y] implies [rank x ≤ rank y], and its failure implies
    [rank y ≤ rank x].  Nothing is assumed about how it answers on elements
    of equal rank, so it need not be a strict weak ordering. *)

Section SortCorrect.
Context {A : Type} (less : A → A → bool) `{R : Rank A}.
Context `{I : Interface (list A)}.
Hypothesis Len_spec : ∀ a, Len a = Zlen a.
Hypothesis Swap_spec : ∀ a i j, Swap a i j = swap_slice a i j.
Hypothesis Less_spec : ∀ a i j x y,
  index a i = Some x → index a j = Some y → Less a i j = Done (less x y).
Hypothesis less_true : ∀ x y, less x y = true → rank x ≤ rank y.
Hypothesis less_false : ∀ x y, less x y = false → rank y ≤ rank x.

Lemma Less_inb a i j :
  0 ≤ i < Zlen a → 0 ≤ j < Zlen a →
  ∃ c : bool, Less a i j = Done c ∧
    if c then key a i ≤ key a j else key a j ≤ key a i.
Proof.
  intros Hi Hj.
  destruct (index_inb a i Hi) as [x Hx], (index_inb a j Hj) as [y Hy].
  exists (less x y). split; [by apply Less_spec|].
  unfold key. rewrite Hx, Hy.
  destruct (less x y) eqn:E; [by apply less_true|by apply less_false].
Qed.

Lemma Swap_inb a i j :
  0 ≤ i < Zlen a → 0 ≤ j < Zlen a → Swap a i j = Done (swp a i j).
Proof. intros. rewrite Swap_spec. by apply swap_slice_inb. Qed.

Lemma key_swp a i j k :
  0 ≤ i < Zlen a → 0 ≤ j < Zlen a →
  key (swp a i j) k =
    if decide (k = i) then key a j
    else if decide (k = j) then key a i else key a k.
Proof.
  intros Hi Hj. unfold key. repeat case_decide; subst.
  - by rewrite index_swp_l.
  - by rewrite index_swp_r.
  - by rewrite index_swp_ne.
Qed.

Lemma frame_refl lo hi a : frame lo hi a a.
Proof. repeat split; auto. Qed.

Lemma frame_trans lo hi a1 a2 a3 :
  frame lo hi a1 a2 → frame lo hi a2 a3 → frame lo hi a1 a3.
Proof.
  intros (Hl1 & Hp1 & Ho1 & Hlb1 & Hub1) (Hl2 & Hp2 & Ho2 & Hlb2 & Hub2).
  repeat split.
  - congruence.
  - by rewrite Hp2.
  - intros k Hk. rewrite Ho2, Ho1; auto.
  - intros m Hm. apply Hlb2, Hlb1, Hm.
  - intros m Hm. apply Hub2, Hub1, Hm.
Qed.

Lemma frame_mono lo hi lo' hi' a a' :
  lo' ≤ lo → hi ≤ hi' → frame lo hi a a' → frame lo' hi' a a'.
Proof.
  intros Hlo Hhi (Hl & Hp & Ho & Hlb & Hub). repeat split; auto.
  - intros k Hk. apply Ho. lia.
  - intros m Hm k Hk. destruct (decide (lo ≤ k < hi)) as [Hin|Hout].
    + apply Hlb; [|done]. intros k' Hk'. apply Hm. lia.
    + rewrite Ho by done. by apply Hm.
  - intros m Hm k Hk. destruct (decide (lo ≤ k < hi)) as [Hin|Hout].
    + apply Hub; [|done]. intros k' Hk'. apply Hm. lia.
    + rewrite Ho by done. by apply Hm.
Qed.

Lemma frame_swp lo hi a i j :
  0 ≤ i < Zlen a → 0 ≤ j < Zlen a → lo ≤ i < hi → lo ≤ j < hi →
  frame lo hi a (swp a i j).
Proof.
  intros Hi Hj Hi' Hj'. repeat split.
  - apply Zlen_swp.
  - apply swp_perm.
  - intros k Hk. rewrite key_swp by done. repeat case_decide; subst; lia.
  - intros m Hm k Hk. rewrite key_swp by done. repeat case_decide; subst; auto.
  - intros m Hm k Hk. rewrite key_swp by done. repeat case_decide; subst; auto.
Qed.

(** Exchanging two elements of equal rank is invisible to ranks. *)
Lemma frame_swp_eq lo hi a i j :
  0 ≤ i < Zlen a → 0 ≤ j < Zlen a → key a i = key a j →
  frame lo hi a (swp a i j).
Proof.
  intros Hi Hj Heq.
  assert (∀ k, key (swp a i j) k = key a k) as Hk.
  { intros k. rewrite key_swp by done. repeat case_decide; subst; auto. }
  repeat split.
  - apply Zlen_swp.
  - apply swp_perm.
  - intros k _. apply Hk.
  - intros m Hm k Hin. rewrite Hk. auto.
  - intros m Hm k Hin. rewrite Hk. auto.
Qed.

Lemma frame_len lo hi a a' : frame lo hi a a' → Zlen a' = Zlen a.
Proof. by intros (? & _). Qed.

Lemma frame_out lo hi a a' k :
  frame lo hi a a' → ¬ (lo ≤ k < hi) → key a' k = key a k.
Proof. intros (_ & _ & Ho & _) ?. by apply Ho. Qed.

Lemma frame_lb lo hi a a' m :
  frame lo hi a a' → (∀ k, lo ≤ k < hi → m ≤ key a k) →
  ∀ k, lo ≤ k < hi → m ≤ key a' k.
Proof. intros (_ & _ & _ & Hlb & _). apply Hlb. Qed.

Lemma frame_ub lo hi a a' m :
  frame lo hi a a' → (∀ k, lo ≤ k < hi → key a k ≤ m) →
  ∀ k, lo ≤ k < hi → key a' k ≤ m.
Proof. intros (_ & _ & _ & _ & Hub). apply Hub. Qed.

(** A sorted range in which nothing moved stays sorted. *)
Lemma sorted_frame_out lo hi lo' hi' a a' :
  frame lo hi a a' → (hi' ≤ lo ∨ hi ≤ lo') → sorted lo' hi' a → sorted lo' hi' a'.
Proof.
  intros Hf Hd Hs k1 k2 H1 H2 H3.
  rewrite !(frame_out _ _ _ _ _ Hf) by lia. by apply Hs.
Qed.

(** ** Proof automation for goals about ranks

    [ksolve] instantiates every quantified fact about ranks at every index
    that occurs in the goal and leaves the arithmetic to [lia]. *)

Ltac collect acc :=
  match goal with
  | |- context [key _ ?t] =>
      lazymatch acc with
      | context [cons t _] => fail
      | _ => collect (cons t acc)
      end
  | _ : context [key _ ?t] |- _ =>
      lazymatch acc with
      | context [cons t _] => fail
      | _ => collect (cons t acc)
      end
  | _ => acc
  end.

Ltac foreach L tac :=
  lazymatch L with
  | nil => idtac
  | cons ?t ?L' => tac t; foreach L' tac
  end.

(** An instance is kept only once all its premises are discharged. *)
Ltac discharge H :=
  repeat (let P := fresh in
          lazymatch type of H with
          | ?X → _ => assert X as P by lia; specialize (H P); clear P
          end);
  lazymatch type of H with
  | _ → _ => fail
  | _ => idtac
  end.

Ltac inst2 H t1 t2 :=
  try (let H' := fresh in pose proof (H t1 t2) as H'; discharge H').

Ltac inst1 H t :=
  try (let H' := fresh in pose proof (H t) as H'; discharge H').

(** Indices that are provably equal are made syntactically equal. *)
Ltac merge2 t1 t2 :=
  let E := fresh in
  assert (t1 = t2) as E by lia;
  first [ subst t1 | subst t2 | rewrite E in *; clear E ].

Ltac try_merge2 t1 t2 :=
  tryif constr_eq t1 t2 then idtac else (try (merge2 t1 t2)).

Ltac merge_terms L :=
  foreach L ltac:(fun t1 => foreach L ltac:(fun t2 => try_merge2 t1 t2)).

Ltac ksolve :=
  unfold sorted in *;
  let L0 := collect (@nil Z) in
  merge_terms L0;
  let L := collect (@nil Z) in
  repeat match goal with
  | H : ∀ k1 k2 : Z, _ |- _ =>
      foreach L ltac:(fun t1 => foreach L ltac:(fun t2 => inst2 H t1 t2));
      clear H
  | H : ∀ k : Z, _ |- _ =>
      foreach L ltac:(fun t => inst1 H t); clear H
  end;
  lia.

Ltac fin := repeat split; try lia; try done; try (intros; lia).

Ltac kswp := rewrite ?key_swp by lia; repeat case_decide; subst; try lia.

(** ** [insertionSort] *)

Lemma insertionSort_shift_spec n data a j i :
  0 ≤ a → a ≤ j → j ≤ i → i < Zlen data → j - a ≤ Z.of_nat n →
  sorted a j data → sorted j (i + 1) data →
  (∀ k1 k2, a ≤ k1 → k1 < j → j < k2 → k2 ≤ i → key data k1 ≤ key data k2) →
  ∃ data', insertionSort_shift n data a j = Done data' ∧
    frame a (i + 1) data data' ∧ sorted a (i + 1) data'.
Proof.
  revert data j. induction n as [|n IH]; intros data j Ha Haj Hji Hi Hn Hs1 Hs2 Hx; simpl.
  - destruct (a <? j) eqn:E; zb; [lia|].
    assert (j = a) as -> by lia.
    exists data. split; [done|]. split; [apply frame_refl|]. done.
  - destruct (a <? j) eqn:E; zb.
    2:{ assert (j = a) as -> by lia.
        exists data. split; [done|]. split; [apply frame_refl|]. done. }
    destruct (Less_inb data j (j - 1)) as (c & -> & Hc); [lia..|]. simpl.
    destruct c.
    + rewrite Swap_inb by lia. simpl.
      destruct (IH (swp data j (j - 1)) (j - 1)) as (data' & Hr & Hf & Hs);
        rewrite ?Zlen_swp; try lia.
      * intros k1 k2 H1 H2 H3. kswp. ksolve.
      * intros k1 k2 H1 H2 H3. kswp; ksolve.
      * intros k1 k2 H1 H2 H3 H4. kswp; ksolve.
      * exists data'. split; [done|]. split; [|done].
        eapply frame_trans; [|exact Hf]. apply frame_swp; lia.
    + exists data. split; [done|]. split; [apply frame_refl|].
      intros k1 k2 H1 H2 H3.
      destruct (decide (k2 < j)); [ksolve|].
      destruct (decide (j ≤ k1)); [ksolve|].
      destruct (decide (k2 = j)) as [->|]; ksolve.
Qed.

Lemma insertionSort_loop_spec n data a b i :
  0 ≤ a → a < i → i ≤ b → b ≤ Zlen data → b - i ≤ Z.of_nat n →
  sorted a i data →
  ∃ data', insertionSort_loop n data a b i = Done data' ∧
    frame a b data data' ∧ sorted a b data'.
Proof.
  revert data i. induction n as [|n IH]; intros data i Ha Hai Hib Hb Hn Hs; simpl.
  - destruct (i <? b) eqn:E; zb; [lia|].
    assert (i = b) as -> by lia.
    exists data. split; [done|]. split; [apply frame_refl|done].
  - destruct (i <? b) eqn:E; zb.
    2:{ assert (i = b) as -> by lia.
        exists data. split; [done|]. split; [apply frame_refl|done]. }
    destruct (insertionSort_shift_spec (Z.to_nat (i - a)) data a i i)
      as (data1 & -> & Hf1 & Hs1); try lia; try done.
    { intros k1 k2 ???. assert (k1 = k2) as -> by lia. done. }
    simpl.
    destruct (IH data1 (i + 1)) as (data2 & -> & Hf2 & Hs2); try lia; try done.
    { rewrite (frame_len _ _ _ _ Hf1). lia. }
    exists data2. split; [done|]. split; [|done].
    eapply frame_trans; [|exact Hf2]. eapply frame_mono; [| |exact Hf1]; lia.
Qed.

Lemma insertionSort_spec data a b :
  0 ≤ a → a ≤ b → b ≤ Zlen data →
  ∃ data', insertionSort data a b = Done data' ∧
    frame a b data data' ∧ sorted a b data'.
Proof.
  intros Ha Hab Hb. unfold insertionSort.
  destruct (decide (a = b)) as [->|Hne].
  - replace (Z.to_nat (b - b)) with O by lia. simpl.
    destruct (b + 1 <? b) eqn:E; zb; [lia|].
    exists data. split; [done|]. split; [apply frame_refl|].
    intros k1 k2 ???; lia.
  - apply insertionSort_loop_spec; try lia.
    intros k1 k2 ???. assert (k1 = k2) as -> by lia. done.
Qed.

(** ** [heapSort] *)

Lemma siftDown_loop_spec n data lo root hi first :
  0 ≤ first → first + hi ≤ Zlen data → 0 ≤ lo → lo ≤ root →
  hi - root ≤ Z.of_nat n →
  (∀ P C, first + lo ≤ P → P ≠ first + root → C < first + hi →
     2 * (P - first) + 1 ≤ C - first → C - first ≤ 2 * (P - first) + 2 →
     key data C ≤ key data P) →
  (∀ G C, first + lo ≤ G →
     2 * (G - first) + 1 ≤ root → root ≤ 2 * (G - first) + 2 →
     C < first + hi → 2 * root + 1 ≤ C - first → C - first ≤ 2 * root + 2 →
     key data C ≤ key data G) →
  ∃ data', siftDown_loop n data root hi first = Done data' ∧
    frame (first + root) (first + hi) data data' ∧ heap first lo hi data'.
Proof.
  revert data root.
  induction n as [|n IH]; intros data root Hf Hhi Hlo Hroot Hn H1 H2; simpl.
  - destruct (hi <=? 2 * root + 1) eqn:E; zb; [|lia].
    exists data. split; [done|]. split; [apply frame_refl|].
    intros P C ????. destruct (decide (P = first + root)) as [->|]; [lia|].
    by apply H1.
  - destruct (hi <=? 2 * root + 1) eqn:E; zb.
    { exists data. split; [done|]. split; [apply frame_refl|].
      intros P C ????. destruct (decide (P = first + root)) as [->|]; [lia|].
      by apply H1. }
    assert (∃ child, (if 2 * root + 1 + 1 <? hi
               then let* lt := Less data (first + (2 * root + 1)) (first + (2 * root + 1) + 1) in
                    Done (if lt : bool then 2 * root + 1 + 1 else 2 * root + 1)
               else Done (2 * root + 1)) = Done child ∧
             2 * root + 1 ≤ child ∧ child ≤ 2 * root + 2 ∧ child < hi ∧
             ∀ C, C < first + hi → 2 * root + 1 ≤ C - first → C - first ≤ 2 * root + 2 →
                  key data C ≤ key data (first + child)) as (child & -> & Hc1 & Hc2 & Hc3 & Hc4).
    { destruct (2 * root + 1 + 1 <? hi) eqn:E2; zb.
      - destruct (Less_inb data (first + (2 * root + 1)) (first + (2 * root + 1) + 1))
          as (c & -> & Hc); [lia..|]. simpl. destruct c.
        + eexists. split; [done|]. repeat split; try lia.
          intros C ???.
          replace (first + (2 * root + 1 + 1)) with (first + (2 * root + 1) + 1) by lia.
          destruct (decide (C = first + (2 * root + 1))) as [->|]; [done|].
          assert (C = first + (2 * root + 1) + 1) as -> by lia. done.
        + eexists. split; [done|]. repeat split; try lia.
          intros C ???.
          destruct (decide (C = first + (2 * root + 1))) as [->|]; [done|].
          assert (C = first + (2 * root + 1) + 1) as -> by lia. done.
      - eexists. split; [done|]. repeat split; try lia.
        intros C ???. assert (C = first + (2 * root + 1)) as -> by lia. done. }
    simpl.
    destruct (Less_inb data (first + root) (first + child)) as (c & -> & Hc); [lia..|].
    simpl. destruct c; simpl.
    + rewrite Swap_inb by lia. simpl.
      destruct (IH (swp data (first + root) (first + child)) child)
        as (data' & -> & Hfr & Hh); rewrite ?Zlen_swp; try lia.
      * intros P C HP1 HP2 HC1 HC2 HC3. kswp; ksolve.
      * intros G C HG1 HG2 HG3 HC1 HC2 HC3.
        assert (G = first + root) as -> by lia. kswp; ksolve.
      * exists data'. split; [done|]. split; [|done].
        eapply frame_trans; [|eapply frame_mono; [| |exact Hfr]; lia].
        apply frame_swp; lia.
    + exists data. split; [done|]. split; [apply frame_refl|].
      intros P C ????. destruct (decide (P = first + root)) as [->|].
      * pose proof (Hc4 C). ksolve.
      * by apply H1.
Qed.

Lemma siftDown_spec data lo hi first :
  0 ≤ first → first + hi ≤ Zlen data → 0 ≤ lo →
  (∀ P C, first + lo ≤ P → P ≠ first + lo → C < first + hi →
     2 * (P - first) + 1 ≤ C - first → C - first ≤ 2 * (P - first) + 2 →
     key data C ≤ key data P) →
  ∃ data', siftDown data lo hi first = Done data' ∧
    frame (first + lo) (first + hi) data data' ∧ heap first lo hi data'.
Proof.
  intros Hf Hhi Hlo H1. unfold siftDown.
  apply siftDown_loop_spec; try lia; done.
Qed.

(** The root of a heap carries the greatest rank. *)
Lemma heap_root_max first hi a :
  heap first 0 hi a → ∀ C, first ≤ C → C < first + hi → key a C ≤ key a first.
Proof.
  intros Hh C HC1 HC2.
  assert (∀ n : nat, ∀ C, C - first ≤ Z.of_nat n → first ≤ C → C < first + hi →
            key a C ≤ key a first) as Hind.
  { clear C HC1 HC2. induction n as [|n IH]; intros C Hn HC1 HC2.
    - assert (C = first) as -> by lia. done.
    - destruct (decide (C = first)) as [->|Hne]; [done|].
      set (P := first + (C - first - 1) `div` 2).
      pose proof (Z.div_mod (C - first - 1) 2 ltac:(lia)) as Hdm.
      pose proof (Z.mod_pos_bound (C - first - 1) 2 ltac:(lia)) as Hmb.
      trans (key a P).
      + apply Hh; unfold P; lia.
      + apply IH; unfold P; lia. }
  apply (Hind (Z.to_nat (C - first))); lia.
Qed.

Lemma heapSort_build_spec n data i hi first :
  0 ≤ first → first + hi ≤ Zlen data → -1 ≤ i → i + 1 ≤ Z.of_nat n →
  heap first (i + 1) hi data →
  ∃ data', heapSort_build n data i hi first = Done data' ∧
    frame first (first + hi) data data' ∧ heap first 0 hi data'.
Proof.
  revert data i. induction n as [|n IH]; intros data i Hf Hhi Hi Hn Hh; simpl.
  - destruct (0 <=? i) eqn:E; zb; [lia|]. assert (i = -1) as -> by lia.
    exists data. split; [done|]. split; [apply frame_refl|done].
  - destruct (0 <=? i) eqn:E; zb.
    2:{ assert (i = -1) as -> by lia.
        exists data. split; [done|]. split; [apply frame_refl|done]. }
    destruct (siftDown_spec data i hi first) as (data1 & -> & Hf1 & Hh1); try lia.
    { intros P C ?????. apply Hh; lia. }
    simpl.
    destruct (IH data1 (i - 1)) as (data2 & -> & Hf2 & Hh2); try lia.
    { rewrite (frame_len _ _ _ _ Hf1). lia. }
    { by replace (i - 1 + 1) with i by lia. }
    exists data2. split; [done|]. split; [|done].
    eapply frame_trans; [|exact Hf2]. eapply frame_mono; [| |exact Hf1]; lia.
Qed.

Lemma heapSort_pop_spec n data i hi first :
  0 ≤ first → first + hi ≤ Zlen data → -1 ≤ i → i < hi → i + 1 ≤ Z.of_nat n →
  heap first 0 (i + 1) data →
  sorted (first + i + 1) (first + hi) data →
  (∀ k1 k2, first ≤ k1 → k1 ≤ first + i → first + i < k2 → k2 < first + hi →
     key data k1 ≤ key data k2) →
  ∃ data', heapSort_pop n data i 0 first = Done data' ∧
    frame first (first + hi) data data' ∧ sorted first (first + hi) data'.
Proof.
  revert data i.
  induction n as [|n IH]; intros data i Hf Hhi Hi1 Hi2 Hn Hh Hs Hx; simpl.
  - destruct (0 <=? i) eqn:E; zb; [lia|]. assert (i = -1) as -> by lia.
    exists data. split; [done|]. split; [apply frame_refl|].
    by replace (first + -1 + 1) with first in Hs by lia.
  - destruct (0 <=? i) eqn:E; zb.
    2:{ assert (i = -1) as -> by lia.
        exists data. split; [done|]. split; [apply frame_refl|].
        by replace (first + -1 + 1) with first in Hs by lia. }
    pose proof (heap_root_max _ _ _ Hh) as Hmax.
    rewrite Swap_inb by lia. simpl.
    destruct (siftDown_spec (swp data first (first + i)) 0 i first)
      as (data1 & -> & Hf1 & Hh1); rewrite ?Zlen_swp; try lia.
    { intros P C ?????. kswp. apply Hh; lia. }
    simpl.
    assert (frame first (first + hi) data data1) as Hfr.
    { eapply frame_trans; [|eapply frame_mono; [| |exact Hf1]; lia].
      apply frame_swp; lia. }
    assert (∀ k1 k2, first ≤ k1 → k1 < first + i → first + i ≤ k2 → k2 < first + hi →
              key data1 k1 ≤ key data1 k2) as Hx1.
    { intros k1 k2 ????.
      rewrite (frame_out _ _ _ _ k2 Hf1) by lia.
      eapply (frame_ub _ _ _ _ _ Hf1); [|lia].
      intros k ?. kswp.
      - pose proof (Hmax (first + i)). ksolve.
      - pose proof (Hx (first + i) k2). ksolve.
      - pose proof (Hmax (first + i)). ksolve.
      - pose proof (Hmax k). pose proof (Hx k k2). ksolve. }
    destruct (IH data1 (i - 1)) as (data2 & -> & Hf2 & Hs2); try lia.
    { rewrite (frame_len _ _ _ _ Hfr). lia. }
    { by replace (i - 1 + 1) with i by lia. }
    { intros k1 k2 ???. rewrite !(frame_out _ _ _ _ _ Hf1) by lia. kswp.
      - pose proof (Hmax (first + i)). ksolve.
      - pose proof (Hmax first). pose proof (Hx first k2). ksolve.
      - ksolve. }
    { intros k1 k2 ????. apply Hx1; lia. }
    exists data2. split; [done|]. split; [|done].
    eapply frame_trans; [exact Hfr|done].
Qed.

Lemma heapSort_spec data a b :
  0 ≤ a → a ≤ b → b ≤ Zlen data →
  ∃ data', heapSort data a b = Done data' ∧
    frame a b data data' ∧ sorted a b data'.
Proof.
  intros Ha Hab Hb. unfold heapSort.
  pose proof (Z.quot_div_nonneg (b - a - 1) 2) as Hq.
  destruct (decide (a = b)) as [->|Hne].
  { replace (b - b) with 0 by lia. simpl.
    exists data. split; [done|]. split; [apply frame_refl|].
    intros k1 k2 ???; lia. }
  rewrite Hq by lia.
  pose proof (Z.div_mod (b - a - 1) 2 ltac:(lia)) as Hdm.
  pose proof (Z.mod_pos_bound (b - a - 1) 2 ltac:(lia)) as Hmb.
  destruct (heapSort_build_spec (Z.to_nat ((b - a - 1) `div` 2 + 1)) data
              ((b - a - 1) `div` 2) (b - a) a) as (data1 & -> & Hf1 & Hh1); try lia.
  { intros P C ????. lia. }
  simpl.
  destruct (heapSort_pop_spec (Z.to_nat (b - a)) data1 (b - a - 1) (b - a) a)
    as (data2 & -> & Hf2 & Hs2); try lia.
  { rewrite (frame_len _ _ _ _ Hf1). lia. }
  { by replace (b - a - 1 + 1) with (b - a) by lia. }
  { intros k1 k2 ???; lia. }
  replace (a + (b - a)) with b in * by lia.
  exists data2. split; [done|]. split; [|done].
  eapply frame_trans; [exact Hf1|done].
Qed.

(** ** [partition] *)

Lemma scan_up_less_spec n data a i j :
  0 ≤ a → a < i → j < Zlen data → a < Zlen data → j + 1 - i ≤ Z.of_nat n →
  ∃ i', scan_up_less n data a i j = Done i' ∧ i ≤ i' ∧ (i' ≤ j + 1 ∨ i' = i) ∧
    (∀ k, i ≤ k → k < i' → key data k ≤ key data a) ∧
    (i' ≤ j → key data a ≤ key data i').
Proof.
  revert i. induction n as [|n IH]; intros i Ha Hai Hj Hal Hn; simpl.
  - destruct (i <=? j) eqn:E; zb; [lia|].
    exists i. fin.
  - destruct (i <=? j) eqn:E; zb.
    2:{ exists i. fin. }
    destruct (Less_inb data i a) as (c & -> & Hc); [lia..|]. simpl.
    destruct c.
    + destruct (IH (i + 1)) as (i' & -> & H1 & H2 & H3 & H4); try lia.
      exists i'. fin.
      intros k ??. destruct (decide (k = i)) as [->|]; [done|]. apply H3; lia.
    + exists i. fin.
Qed.

Lemma scan_down_not_less_spec n data a i j :
  0 ≤ a → a < i → j < Zlen data → a < Zlen data → j + 1 - i ≤ Z.of_nat n →
  ∃ j', scan_down_not_less n data a i j = Done j' ∧ j' ≤ j ∧ (i ≤ j' + 1 ∨ j' = j) ∧
    (∀ k, j' < k → k ≤ j → key data a ≤ key data k) ∧
    (i ≤ j' → key data j' ≤ key data a).
Proof.
  revert j. induction n as [|n IH]; intros j Ha Hai Hj Hal Hn; simpl.
  - destruct (i <=? j) eqn:E; zb; [lia|].
    exists j. fin.
  - destruct (i <=? j) eqn:E; zb.
    2:{ exists j. fin. }
    destruct (Less_inb data j a) as (c & -> & Hc); [lia..|]. simpl.
    destruct c; simpl.
    + exists j. fin.
    + destruct (IH (j - 1)) as (j' & -> & H1 & H2 & H3 & H4); try lia.
      exists j'. fin.
      intros k ??. destruct (decide (k = j)) as [->|]; [done|]. apply H3; lia.
Qed.

Lemma partition_loop_spec n data a b i j :
  0 ≤ a → a < b → a < i → a ≤ j → j < b → b ≤ Zlen data → i ≤ j + 2 →
  j + 1 - i ≤ Z.of_nat n →
  (∀ k, a < k → k < i → key data k ≤ key data a) →
  (∀ k, j < k → k < b → key data a ≤ key data k) →
  ∃ data' j', partition_loop n data a i j = Done (data', j') ∧
    frame (a + 1) b data data' ∧ a ≤ j' ∧ j' < b ∧
    (∀ k, a < k → k ≤ j' → key data' k ≤ key data' a) ∧
    (∀ k, j' < k → k < b → key data' a ≤ key data' k).
Proof.
  revert data i j.
  induction n as [|n IH]; intros data i j Ha Hab Hai Haj Hjb Hb Hij Hn Hl Hr;
    unfold partition_loop; fold partition_loop.
  - destruct (scan_up_less_spec (Z.to_nat (j + 1 - i)) data a i j)
      as (i' & -> & Hi1 & Hi2 & Hi3 & Hi4); try lia. simpl.
    destruct (scan_down_not_less_spec (Z.to_nat (j + 1 - i')) data a i' j)
      as (j' & -> & Hj1 & Hj2 & Hj3 & Hj4); try lia. simpl.
    destruct (j' <? i') eqn:E; zb; [|lia].
    exists data, j'. split; [done|]. split; [apply frame_refl|].
    fin.
    + intros k ??. destruct (decide (k < i)); [apply Hl; lia|apply Hi3; lia].
    + intros k ??. destruct (decide (j < k)); [apply Hr; lia|apply Hj3; lia].
  - destruct (scan_up_less_spec (Z.to_nat (j + 1 - i)) data a i j)
      as (i' & -> & Hi1 & Hi2 & Hi3 & Hi4); try lia. simpl.
    destruct (scan_down_not_less_spec (Z.to_nat (j + 1 - i')) data a i' j)
      as (j' & -> & Hj1 & Hj2 & Hj3 & Hj4); try lia. simpl.
    destruct (j' <? i') eqn:E; zb.
    { exists data, j'. split; [done|]. split; [apply frame_refl|].
      fin.
      + intros k ??. destruct (decide (k < i)); [apply Hl; lia|apply Hi3; lia].
      + intros k ??. destruct (decide (j < k)); [apply Hr; lia|apply Hj3; lia]. }
    rewrite Swap_inb by lia. simpl.
    destruct (IH (swp data i' j') (i' + 1) (j' - 1))
      as (data' & j'' & -> & Hf & H1 & H2 & H3 & H4); rewrite ?Zlen_swp; try lia.
    + intros k ??. destruct (decide (k < i)); kswp; ksolve.
    + intros k ??. destruct (decide (j < k)); kswp; ksolve.
    + exists data', j''. split; [done|]. split; [|done].
      eapply frame_trans; [|exact Hf]. apply frame_swp; lia.
Qed.

Lemma partition_spec data a b pivot :
  0 ≤ a → a ≤ pivot → pivot < b → b ≤ Zlen data →
  ∃ data' mid flag, partition data a b pivot = Done (data', mid, flag) ∧
    frame a b data data' ∧ a ≤ mid ∧ mid < b ∧
    (∀ k, a ≤ k → k < mid → key data' k ≤ key data' mid) ∧
    (∀ k, mid < k → k < b → key data' mid ≤ key data' k).
Proof.
  intros Ha Hap Hpb Hb. unfold partition.
  rewrite Swap_inb by lia. simpl.
  set (d0 := swp data a pivot).
  assert (Zlen d0 = Zlen data) as Hl0 by apply Zlen_swp.
  assert (frame a b data d0) as Hf0 by (apply frame_swp; lia).
  destruct (scan_up_less_spec (Z.to_nat (b - 1 + 1 - (a + 1))) d0 a (a + 1) (b - 1))
    as (i & -> & Hi1 & Hi2 & Hi3 & Hi4); try lia. simpl.
  destruct (scan_down_not_less_spec (Z.to_nat (b - 1 + 1 - i)) d0 a i (b - 1))
    as (j & -> & Hj1 & Hj2 & Hj3 & Hj4); try lia. simpl.
  destruct (j <? i) eqn:E; zb.
  - rewrite Swap_inb by lia. simpl.
    exists (swp d0 j a), j, true. split; [done|]. split.
    { eapply frame_trans; [exact Hf0|]. apply frame_swp; lia. }
    fin.
    + intros k ??. kswp; ksolve.
    + intros k ??. kswp; ksolve.
  - rewrite Swap_inb by lia. simpl.
    set (d1 := swp d0 i j).
    assert (Zlen d1 = Zlen data) as Hl1 by (unfold d1; rewrite Zlen_swp; lia).
    destruct (partition_loop_spec (Z.to_nat (j - 1 + 1 - (i + 1))) d1 a b (i + 1) (j - 1))
      as (d2 & j' & -> & Hf2 & H1 & H2 & H3 & H4); try lia.
    + intros k ??. unfold d1. kswp; ksolve.
    + intros k ??. unfold d1. kswp; ksolve.
    + simpl. rewrite Swap_inb by (rewrite (frame_len _ _ _ _ Hf2); lia). simpl.
      exists (swp d2 j' a), j', false. split; [done|].
      pose proof (frame_len _ _ _ _ Hf2) as Hl2.
      split.
      { apply (frame_trans _ _ _ d0); [exact Hf0|].
        apply (frame_trans _ _ _ d1); [apply frame_swp; lia|].
        apply (frame_trans _ _ _ d2); [eapply frame_mono; [| |exact Hf2]; lia|].
        apply frame_swp; lia. }
      fin.
      * intros k ??. kswp; ksolve.
      * intros k ??. kswp; ksolve.
Qed.

(** ** [partitionEqual] *)

Lemma scan_up_not_less_spec n data a i j :
  0 ≤ a → a < i → j < Zlen data → a < Zlen data → j + 1 - i ≤ Z.of_nat n →
  ∃ i', scan_up_not_less n data a i j = Done i' ∧ i ≤ i' ∧ (i' ≤ j + 1 ∨ i' = i) ∧
    (∀ k, i ≤ k → k < i' → key data k ≤ key data a) ∧
    (i' ≤ j → key data a ≤ key data i').
Proof.
  revert i. induction n as [|n IH]; intros i Ha Hai Hj Hal Hn; simpl.
  - destruct (i <=? j) eqn:E; zb; [lia|].
    exists i. fin.
  - destruct (i <=? j) eqn:E; zb.
    2:{ exists i. fin. }
    destruct (Less_inb data a i) as (c & -> & Hc); [lia..|]. simpl.
    destruct c; simpl.
    + exists i. fin.
    + destruct (IH (i + 1)) as (i' & -> & H1 & H2 & H3 & H4); try lia.
      exists i'. fin.
      intros k ??. destruct (decide (k = i)) as [->|]; [done|]. apply H3; lia.
Qed.

Lemma scan_down_less_spec n data a i j :
  0 ≤ a → a < i → j < Zlen data → a < Zlen data → j + 1 - i ≤ Z.of_nat n →
  ∃ j', scan_down_less n data a i j = Done j' ∧ j' ≤ j ∧ (i ≤ j' + 1 ∨ j' = j) ∧
    (∀ k, j' < k → k ≤ j → key data a ≤ key data k) ∧
    (i ≤ j' → key data j' ≤ key data a).
Proof.
  revert j. induction n as [|n IH]; intros j Ha Hai Hj Hal Hn; simpl.
  - destruct (i <=? j) eqn:E; zb; [lia|].
    exists j. fin.
  - destruct (i <=? j) eqn:E; zb.
    2:{ exists j. fin. }
    destruct (Less_inb data a j) as (c & -> & Hc); [lia..|]. simpl.
    destruct c; simpl.
    + destruct (IH (j - 1)) as (j' & -> & H1 & H2 & H3 & H4); try lia.
      exists j'. fin.
      intros k ??. destruct (decide (k = j)) as [->|]; [done|]. apply H3; lia.
    + exists j. fin.
Qed.

Lemma partitionEqual_loop_spec n data a b i j :
  0 ≤ a → a < b → a < i → i ≤ b → a ≤ j → j < b → b ≤ Zlen data → i ≤ j + 2 →
  j + 1 - i ≤ Z.of_nat n →
  (∀ k, a < k → k < i → key data k ≤ key data a) →
  (∀ k, j < k → k < b → key data a ≤ key data k) →
  ∃ data' i', partitionEqual_loop n data a i j = Done (data', i') ∧
    frame (a + 1) b data data' ∧ a < i' ∧ i' ≤ b ∧
    (∀ k, a < k → k < i' → key data' k ≤ key data' a) ∧
    (∀ k, i' ≤ k → k < b → key data' a ≤ key data' k).
Proof.
  revert data i j.
  induction n as [|n IH]; intros data i j Ha Hab Hai Hib Haj Hjb Hb Hij Hn Hl Hr;
    unfold partitionEqual_loop; fold partitionEqual_loop.
  - destruct (scan_up_not_less_spec (Z.to_nat (j + 1 - i)) data a i j)
      as (i' & -> & Hi1 & Hi2 & Hi3 & Hi4); try lia. simpl.
    destruct (scan_down_less_spec (Z.to_nat (j + 1 - i')) data a i' j)
      as (j' & -> & Hj1 & Hj2 & Hj3 & Hj4); try lia. simpl.
    destruct (j' <? i') eqn:E; zb; [|lia].
    exists data, i'. split; [done|]. split; [apply frame_refl|].
    fin.
    + intros k ??. destruct (decide (k < i)); [apply Hl; lia|apply Hi3; lia].
    + intros k ??. destruct (decide (j < k)); [apply Hr; lia|apply Hj3; lia].
  - destruct (scan_up_not_less_spec (Z.to_nat (j + 1 - i)) data a i j)
      as (i' & -> & Hi1 & Hi2 & Hi3 & Hi4); try lia. simpl.
    destruct (scan_down_less_spec (Z.to_nat (j + 1 - i')) data a i' j)
      as (j' & -> & Hj1 & Hj2 & Hj3 & Hj4); try lia. simpl.
    destruct (j' <? i') eqn:E; zb.
    { exists data, i'. split; [done|]. split; [apply frame_refl|].
      fin.
      + intros k ??. destruct (decide (k < i)); [apply Hl; lia|apply Hi3; lia].
      + intros k ??. destruct (decide (j < k)); [apply Hr; lia|apply Hj3; lia]. }
    rewrite Swap_inb by lia. simpl.
    destruct (IH (swp data i' j') (i' + 1) (j' - 1))
      as (data' & i'' & -> & Hf & H1 & H2 & H3 & H4); rewrite ?Zlen_swp; try lia.
    + intros k ??. destruct (decide (k < i)); kswp; ksolve.
    + intros k ??. destruct (decide (j < k)); kswp; ksolve.
    + exists data', i''. split; [done|]. split; [|done].
      eapply frame_trans; [|exact Hf]. apply frame_swp; lia.
Qed.

Lemma partitionEqual_spec data a b pivot :
  0 ≤ a → a ≤ pivot → pivot < b → b ≤ Zlen data →
  ∃ data' mid, partitionEqual data a b pivot = Done (data', mid) ∧
    frame a b data data' ∧ a < mid ∧ mid ≤ b ∧
    (∀ k, a ≤ k → k < mid → key data' k ≤ key data pivot) ∧
    (∀ k, mid ≤ k → k < b → key data pivot ≤ key data' k).
Proof.
  intros Ha Hap Hpb Hb. unfold partitionEqual.
  rewrite Swap_inb by lia. simpl.
  set (d0 := swp data a pivot).
  assert (Zlen d0 = Zlen data) as Hl0 by apply Zlen_swp.
  assert (frame a b data d0) as Hf0 by (apply frame_swp; lia).
  assert (key d0 a = key data pivot) as Hp.
  { unfold d0. kswp. }
  destruct (partitionEqual_loop_spec (Z.to_nat (b - 1 + 1 - (a + 1))) d0 a b (a + 1) (b - 1))
    as (d1 & mid & -> & Hf1 & H1 & H2 & H3 & H4); try lia.
  exists d1, mid. split; [done|].
  assert (key d1 a = key data pivot) as Hp1.
  { rewrite (frame_out _ _ _ _ a Hf1) by lia. done. }
  split.
  { apply (frame_trans _ _ _ d0); [done|]. eapply frame_mono; [| |exact Hf1]; lia. }
  fin.
  - intros k ??. destruct (decide (k = a)) as [->|]; [lia|].
    rewrite <- Hp1. apply H3; lia.
  - intros k ??. rewrite <- Hp1. apply H4; lia.
Qed.

(** ** [partialInsertionSort] *)

Lemma prefix_le_frame a b data data' :
  frame a b data data' → prefix_le a b data → prefix_le a b data'.
Proof.
  intros Hf Hp k1 k2 ????.
  rewrite (frame_out _ _ _ _ k1 Hf) by lia.
  apply (frame_lb _ _ _ _ _ Hf); [|lia].
  intros k ?. apply Hp; lia.
Qed.

Lemma same_keys_frame lo hi data data' : same_keys data data' → frame lo hi data data'.
Proof.
  intros (Hl & Hp & Hk). repeat split; auto.
  - intros m Hm k Hin. rewrite Hk. auto.
  - intros m Hm k Hin. rewrite Hk. auto.
Qed.

Lemma scan_ordered_spec n data a b i :
  0 ≤ a → a < i → i ≤ b → b ≤ Zlen data → b - i ≤ Z.of_nat n →
  sorted a i data →
  ∃ i', scan_ordered n data b i = Done i' ∧ i ≤ i' ∧ i' ≤ b ∧ sorted a i' data.
Proof.
  revert i. induction n as [|n IH]; intros i Ha Hai Hib Hb Hn Hs; simpl.
  - destruct (i <? b) eqn:E; zb; [lia|]. exists i. fin.
  - destruct (i <? b) eqn:E; zb.
    2:{ exists i. fin. }
    destruct (Less_inb data i (i - 1)) as (c & -> & Hc); [lia..|]. simpl.
    destruct c; simpl.
    + exists i. fin.
    + destruct (IH (i + 1)) as (i' & -> & H1 & H2 & H3); try lia.
      * intros k1 k2 ???.
        destruct (decide (k2 < i)); [ksolve|].
        assert (k2 = i) as -> by lia.
        destruct (decide (k1 = i)) as [->|]; ksolve.
      * exists i'. fin.
Qed.

(** The left shift once it has left the slice: it can only exchange
    elements of equal rank. *)
Lemma shift_left_low_spec n data a b j :
  0 ≤ j → j ≤ a → a < b → b ≤ Zlen data → j ≤ Z.of_nat n →
  key data j = key data a → prefix_le a b data →
  ∃ data', shift_left n data j = Done data' ∧ same_keys data data'.
Proof.
  revert data j. induction n as [|n IH]; intros data j Hj Hja Hab Hb Hn Hk Hp; simpl.
  - destruct (1 <=? j) eqn:E; zb; [lia|].
    exists data. split; [done|]. by repeat split.
  - destruct (1 <=? j) eqn:E; zb.
    2:{ exists data. split; [done|]. by repeat split. }
    destruct (Less_inb data j (j - 1)) as (c & -> & Hc); [lia..|]. simpl.
    destruct c; simpl.
    2:{ exists data. split; [done|]. by repeat split. }
    rewrite Swap_inb by lia. simpl.
    assert (key data (j - 1) = key data j) as Heq.
    { pose proof (Hp (j - 1) a). lia. }
    assert (∀ k, key (swp data j (j - 1)) k = key data k) as Hsame.
    { intros k. kswp. }
    destruct (IH (swp data j (j - 1)) (j - 1)) as (data' & -> & Hl & Hperm & Hkeys);
      rewrite ?Zlen_swp; try lia.
    + rewrite !Hsame. lia.
    + intros k1 k2 ????. rewrite !Hsame. by apply Hp.
    + exists data'. split; [done|]. repeat split.
      * rewrite Hl. apply Zlen_swp.
      * rewrite Hperm. apply swp_perm.
      * intros k. rewrite Hkeys. apply Hsame.
Qed.

Lemma shift_left_spec n data a b j i :
  0 ≤ a → a ≤ j → j < i → i ≤ b → b ≤ Zlen data → j ≤ Z.of_nat n →
  prefix_le a b data →
  sorted a j data → sorted j i data →
  (∀ k1 k2, a ≤ k1 → k1 < j → j < k2 → k2 < i → key data k1 ≤ key data k2) →
  ∃ data', shift_left n data j = Done data' ∧
    frame a i data data' ∧ sorted a i data'.
Proof.
  revert data j.
  induction n as [|n IH]; intros data j Ha Haj Hji Hib Hb Hn Hp Hs1 Hs2 Hx; simpl.
  - destruct (1 <=? j) eqn:E; zb; [lia|].
    assert (j = a) as -> by lia.
    exists data. split; [done|]. split; [apply frame_refl|done].
  - destruct (1 <=? j) eqn:E; zb.
    2:{ assert (j = a) as -> by lia.
        exists data. split; [done|]. split; [apply frame_refl|done]. }
    destruct (Less_inb data j (j - 1)) as (c & -> & Hc); [lia..|]. simpl.
    destruct c; simpl.
    2:{ exists data. split; [done|]. split; [apply frame_refl|].
        intros k1 k2 H1 H2 H3.
        destruct (decide (k2 < j)); [ksolve|].
        destruct (decide (j ≤ k1)); [ksolve|].
        destruct (decide (k2 = j)) as [->|]; ksolve. }
    rewrite Swap_inb by lia. simpl.
    destruct (decide (j = a)) as [->|Hne].
    + (* the element leaves the slice *)
      assert (key data (a - 1) = key data a) as Heq.
      { pose proof (Hp (a - 1) a). lia. }
      assert (∀ k, key (swp data a (a - 1)) k = key data k) as Hsame.
      { intros k. kswp. }
      destruct (shift_left_low_spec n (swp data a (a - 1)) a b (a - 1))
        as (data' & -> & Hl & Hperm & Hkeys); rewrite ?Zlen_swp; try lia.
      * rewrite !Hsame. lia.
      * intros k1 k2 ????. rewrite !Hsame. by apply Hp.
      * exists data'. split; [done|].
        assert (∀ k, key data' k = key data k) as Hall.
        { intros k. rewrite Hkeys. apply Hsame. }
        split.
        -- apply same_keys_frame. repeat split; [| |done].
           ++ rewrite Hl. apply Zlen_swp.
           ++ rewrite Hperm. apply swp_perm.
        -- intros k1 k2 ???. rewrite !Hall. by apply Hs2.
    + destruct (IH (swp data j (j - 1)) (j - 1)) as (data' & -> & Hf & Hs);
        rewrite ?Zlen_swp; try lia.
      * apply (prefix_le_frame a b data); [apply frame_swp; lia|done].
      * intros k1 k2 H1 H2 H3. kswp; ksolve.
      * intros k1 k2 H1 H2 H3. kswp; ksolve.
      * intros k1 k2 H1 H2 H3 H4. kswp; ksolve.
      * exists data'. split; [done|]. split; [|done].
        eapply frame_trans; [|exact Hf]. apply frame_swp; lia.
Qed.

Lemma shift_right_spec n data lo b j :
  0 ≤ lo → lo < j → b ≤ Zlen data → b - j ≤ Z.of_nat n →
  ∃ data', shift_right n data b j = Done data' ∧ frame lo b data data'.
Proof.
  revert data j. induction n as [|n IH]; intros data j Hlo Hj Hb Hn; simpl.
  - destruct (j <? b) eqn:E; zb; [lia|].
    exists data. split; [done|apply frame_refl].
  - destruct (j <? b) eqn:E; zb.
    2:{ exists data. split; [done|apply frame_refl]. }
    destruct (Less_inb data j (j - 1)) as (c & -> & Hc); [lia..|]. simpl.
    destruct c; simpl.
    2:{ exists data. split; [done|apply frame_refl]. }
    rewrite Swap_inb by lia. simpl.
    destruct (IH (swp data j (j - 1)) (j + 1)) as (data' & -> & Hf);
      rewrite ?Zlen_swp; try lia.
    exists data'. split; [done|].
    eapply frame_trans; [|exact Hf]. apply frame_swp; lia.
Qed.

Lemma partialInsertionSort_loop_spec steps data a b i :
  0 ≤ a → a < i → i ≤ b → b ≤ Zlen data →
  prefix_le a b data → sorted a i data →
  ∃ data' flag, partialInsertionSort_loop steps data a b i = Done (data', flag) ∧
    frame a b data data' ∧ (flag = true → sorted a b data').
Proof.
  revert data i.
  induction steps as [|steps IH]; intros data i Ha Hai Hib Hb Hp Hs; simpl.
  { exists data, false. split; [done|]. split; [apply frame_refl|done]. }
  destruct (scan_ordered_spec (Z.to_nat (b - i)) data a b i)
    as (i' & -> & Hi1 & Hi2 & Hs'); try lia; [done|]. simpl.
  destruct (i' =? b) eqn:E; zb.
  { subst i'. exists data, true. split; [done|]. split; [apply frame_refl|done]. }
  destruct (b - a <? shortestShifting) eqn:E2; zb.
  { exists data, false. split; [done|]. split; [apply frame_refl|done]. }
  rewrite Swap_inb by lia. simpl.
  set (d1 := swp data i' (i' - 1)).
  assert (Zlen d1 = Zlen data) as Hl1 by apply Zlen_swp.
  assert (frame a b data d1) as Hf1 by (apply frame_swp; lia).
  assert (∃ d2, (if 2 <=? i' - a then shift_left (Z.to_nat (i' - 1)) d1 (i' - 1)
                 else Done d1) = Done d2 ∧ frame a i' d1 d2 ∧ sorted a i' d2)
    as (d2 & -> & Hf2 & Hs2).
  { destruct (2 <=? i' - a) eqn:E3; zb.
    - apply (shift_left_spec _ _ a b); try lia.
      + by apply (prefix_le_frame a b data).
      + intros k1 k2 ???. unfold d1. kswp; ksolve.
      + intros k1 k2 ???. assert (k1 = k2) as -> by lia. done.
    - exists d1. split; [done|]. split; [apply frame_refl|].
      intros k1 k2 ???. assert (k1 = k2) as -> by lia. done. }
  simpl.
  pose proof (frame_len _ _ _ _ Hf2) as Hl2.
  assert (∃ d3, (if 2 <=? b - i' then shift_right (Z.to_nat (b - i')) d2 b (i' + 1)
                 else Done d2) = Done d3 ∧ frame i' b d2 d3)
    as (d3 & -> & Hf3).
  { destruct (2 <=? b - i') eqn:E3; zb.
    - apply shift_right_spec; lia.
    - exists d2. split; [done|apply frame_refl]. }
  simpl.
  pose proof (frame_len _ _ _ _ Hf3) as Hl3.
  assert (frame a b data d3) as Hf.
  { apply (frame_trans _ _ _ d1); [done|].
    apply (frame_trans _ _ _ d2); [eapply frame_mono; [| |exact Hf2]; lia|].
    eapply frame_mono; [| |exact Hf3]; lia. }
  destruct (IH d3 i') as (data' & flag & -> & Hf' & Hs''); try lia.
  - by apply (prefix_le_frame a b data).
  - apply (sorted_frame_out i' b a i' d2); [done|lia|done].
  - exists data', flag. split; [done|]. split; [|done].
    by apply (frame_trans _ _ _ d3).
Qed.

Lemma partialInsertionSort_spec data a b :
  0 ≤ a → a < b → b ≤ Zlen data → prefix_le a b data →
  ∃ data' flag, partialInsertionSort data a b = Done (data', flag) ∧
    frame a b data data' ∧ (flag = true → sorted a b data').
Proof.
  intros Ha Hab Hb Hp. unfold partialInsertionSort.
  apply partialInsertionSort_loop_spec; try lia; [done|].
  intros k1 k2 ???. assert (k1 = k2) as -> by lia. done.
Qed.

(** ** [reverseRange], [breakPatterns], [choosePivot] *)

Lemma reverseRange_loop_spec n data lo hi i j :
  0 ≤ lo → lo ≤ i → j < hi → hi ≤ Zlen data → j - i ≤ Z.of_nat n →
  ∃ data', reverseRange_loop n data i j = Done data' ∧ frame lo hi data data'.
Proof.
  revert data i j. induction n as [|n IH]; intros data i j Hlo Hi Hj Hhi Hn; simpl.
  - destruct (i <? j) eqn:E; zb; [lia|].
    exists data. split; [done|apply frame_refl].
  - destruct (i <? j) eqn:E; zb.
    2:{ exists data. split; [done|apply frame_refl]. }
    rewrite Swap_inb by lia. simpl.
    destruct (IH (swp data i j) (i + 1) (j - 1)) as (data' & -> & Hf);
      rewrite ?Zlen_swp; try lia.
    exists data'. split; [done|].
    eapply frame_trans; [|exact Hf]. apply frame_swp; lia.
Qed.

Lemma reverseRange_spec data a b :
  0 ≤ a → a ≤ b → b ≤ Zlen data →
  ∃ data', reverseRange data a b = Done data' ∧ frame a b data data'.
Proof.
  intros. unfold reverseRange. apply reverseRange_loop_spec; lia.
Qed.

Lemma xorshift_Next_nonneg r : 0 ≤ r → 0 ≤ xorshift_Next r.
Proof.
  intros Hr. unfold xorshift_Next, uint64.
  assert (∀ x y, 0 ≤ x → 0 ≤ y → 0 ≤ Z.lxor x y) as Hx.
  { intros x y ??. apply Z.lxor_nonneg. tauto. }
  assert (∀ z, 0 ≤ z mod 2 ^ 64) as Hm.
  { intros z. apply Z.mod_pos_bound. lia. }
  apply Hx; [|apply Hm].
  apply Hx; [|apply Z.shiftr_nonneg]; apply Hx; auto.
Qed.

Lemma nextPowerOfTwo_bounds length :
  0 < length → length < nextPowerOfTwo length ∧ nextPowerOfTwo length ≤ 2 * length.
Proof.
  intros Hl. unfold nextPowerOfTwo, bits_Len.
  destruct (length <=? 0) eqn:E; zb; [lia|].
  rewrite Z.shiftl_1_l.
  pose proof (Z.log2_spec length Hl) as [H1 H2].
  pose proof (Z.log2_nonneg length).
  replace (Z.succ (Z.log2 length)) with (Z.log2 length + 1) in H2 by lia.
  rewrite Z.pow_add_r in * by lia. lia.
Qed.

Lemma land_pow2_bounds r length :
  0 < length →
  0 ≤ Z.land r (nextPowerOfTwo length - 1) ∧
  Z.land r (nextPowerOfTwo length - 1) < nextPowerOfTwo length.
Proof.
  intros Hl. unfold nextPowerOfTwo, bits_Len.
  destruct (length <=? 0) eqn:E; zb; [lia|].
  rewrite Z.shiftl_1_l.
  pose proof (Z.log2_nonneg length).
  replace (2 ^ (Z.log2 length + 1) - 1) with (Z.ones (Z.log2 length + 1))
    by (rewrite Z.ones_equiv; lia).
  rewrite Z.land_ones by lia.
  apply Z.mod_pos_bound. lia.
Qed.

Lemma breakPatterns_loop_spec k data a b idx i random :
  0 ≤ a → a < b → b ≤ Zlen data →
  a ≤ idx - 1 + i → idx - 1 + i + Z.of_nat k ≤ b →
  ∃ data', breakPatterns_loop k data a (b - a) idx i random (nextPowerOfTwo (b - a))
           = Done data' ∧ frame a b data data'.
Proof.
  revert data i random.
  induction k as [|k IH]; intros data i random Ha Hab Hb Hi1 Hi2; simpl.
  { exists data. split; [done|apply frame_refl]. }
  pose proof (nextPowerOfTwo_bounds (b - a) ltac:(lia)) as [Hm1 Hm2].
  pose proof (land_pow2_bounds (xorshift_Next random) (b - a) ltac:(lia)) as [Ho1 Ho2].
  set (other := Z.land (xorshift_Next random) (nextPowerOfTwo (b - a) - 1)) in *.
  set (other' := if b - a <=? other then other - (b - a) else other).
  assert (0 ≤ other' ∧ other' < b - a) as [Ho3 Ho4].
  { unfold other'. destruct (b - a <=? other) eqn:E; zb; lia. }
  rewrite Swap_inb by lia. simpl.
  destruct (IH (swp data (idx - 1 + i) (a + other')) (i + 1) (xorshift_Next random))
    as (data' & -> & Hf); rewrite ?Zlen_swp; try lia.
  exists data'. split; [done|].
  eapply frame_trans; [|exact Hf]. apply frame_swp; lia.
Qed.

Lemma breakPatterns_spec data a b :
  0 ≤ a → a < b → b ≤ Zlen data →
  ∃ data', breakPatterns data a b = Done data' ∧ frame a b data data'.
Proof.
  intros Ha Hab Hb. unfold breakPatterns.
  destruct (8 <=? b - a) eqn:E; zb.
  2:{ exists data. split; [done|apply frame_refl]. }
  rewrite Z.quot_div_nonneg by lia.
  pose proof (Z.div_mod (b - a) 4 ltac:(lia)) as Hdm.
  pose proof (Z.mod_pos_bound (b - a) 4 ltac:(lia)) as Hmb.
  apply breakPatterns_loop_spec; simpl; lia.
Qed.

Lemma order2_spec data a b swaps :
  0 ≤ a < Zlen data → 0 ≤ b < Zlen data →
  ∃ x y s, order2 data a b swaps = Done (x, y, s) ∧
    ((x = a ∧ y = b) ∨ (x = b ∧ y = a)).
Proof.
  intros Ha Hb. unfold order2.
  destruct (Less_inb data b a) as (c & -> & _); [lia..|]. simpl.
  destruct c; eauto 10.
Qed.

Lemma median_spec data a b c swaps :
  0 ≤ a < Zlen data → 0 ≤ b < Zlen data → 0 ≤ c < Zlen data →
  ∃ m s, median data a b c swaps = Done (m, s) ∧ (m = a ∨ m = b ∨ m = c).
Proof.
  intros Ha Hb Hc. unfold median.
  destruct (order2_spec data a b swaps) as (a1 & b1 & s1 & -> & H1); [lia..|]. simpl.
  destruct (order2_spec data b1 c s1) as (b2 & c2 & s2 & -> & H2); [lia..|]. simpl.
  destruct (order2_spec data a1 b2 s2) as (a3 & b3 & s3 & -> & H3); [lia..|]. simpl.
  exists b3, s3. split; [done|]. lia.
Qed.

Lemma choosePivot_spec data a b :
  0 ≤ a → a < b → b ≤ Zlen data →
  ∃ pivot hint, choosePivot data a b = Done (pivot, hint) ∧ a ≤ pivot ∧ pivot < b.
Proof.
  intros Ha Hab Hb. unfold choosePivot.
  rewrite Z.quot_div_nonneg by lia.
  pose proof (Z.div_mod (b - a) 4 ltac:(lia)) as Hdm.
  pose proof (Z.mod_pos_bound (b - a) 4 ltac:(lia)) as Hmb.
  set (q := (b - a) `div` 4) in *.
  assert (∃ j s, (if 8 <=? b - a
            then let* '(i, j, k, swaps) :=
                   (if shortestNinther <=? b - a
                    then let* '(i, swaps) := medianAdjacent data (a + q * 1) 0 in
                         let* '(j, swaps) := medianAdjacent data (a + q * 2) swaps in
                         let* '(k, swaps) := medianAdjacent data (a + q * 3) swaps in
                         Done (i, j, k, swaps)
                    else Done (a + q * 1, a + q * 2, a + q * 3, 0)) in
                 median data i j k swaps
            else Done (a + q * 2, 0)) = Done (j, s) ∧ a ≤ j ∧ j < b)
    as (j & s & -> & Hj1 & Hj2).
  { destruct (8 <=? b - a) eqn:E; zb.
    2:{ eexists _, _. split; [done|]. lia. }
    destruct (shortestNinther <=? b - a) eqn:E2; unfold shortestNinther in *; zb.
    - unfold medianAdjacent.
      destruct (median_spec data (a + q * 1 - 1) (a + q * 1) (a + q * 1 + 1) 0)
        as (i1 & s1 & -> & H1); [lia..|]. simpl.
      destruct (median_spec data (a + q * 2 - 1) (a + q * 2) (a + q * 2 + 1) s1)
        as (j1 & s2 & -> & H2); [lia..|]. simpl.
      destruct (median_spec data (a + q * 3 - 1) (a + q * 3) (a + q * 3 + 1) s2)
        as (k1 & s3 & -> & H3); [lia..|]. simpl.
      destruct (median_spec data i1 j1 k1 s3) as (m & s4 & -> & H4); [lia..|].
      eexists _, _. split; [done|]. lia.
    - simpl.
      destruct (median_spec data (a + q * 1) (a + q * 2) (a + q * 3) 0)
        as (m & s4 & -> & H4); [lia..|].
      eexists _, _. split; [done|]. lia. }
  simpl.
  destruct (s =? 0); [eauto|]. destruct (s =? maxSwaps); eauto.
Qed.

(** ** [pdqsort] *)

Lemma bind_spec {X Y} (m : result X) (k : X → result Y) (P : X → Prop) (Q : Y → Prop) :
  (∃ x, m = Done x ∧ P x) → (∀ x, P x → ∃ y, k x = Done y ∧ Q y) →
  ∃ y, bind m k = Done y ∧ Q y.
Proof. intros (x & -> & HP) Hk. simpl. by apply Hk. Qed.

Lemma sorted_join a mid b d :
  a ≤ mid → mid < b →
  sorted a mid d → sorted (mid + 1) b d →
  (∀ k, a ≤ k → k < mid → key d k ≤ key d mid) →
  (∀ k, mid < k → k < b → key d mid ≤ key d k) →
  sorted a b d.
Proof.
  intros Ham Hmb Hs1 Hs2 Hl Hr k1 k2 H1 H2 H3.
  destruct (decide (k2 < mid)); [ksolve|].
  destruct (decide (mid < k1)); [ksolve|].
  destruct (decide (k1 = mid)) as [->|]; destruct (decide (k2 = mid)) as [->|]; ksolve.
Qed.

Lemma pdqsort_spec fuel : ∀ data a b limit wasBalanced wasPartitioned,
  0 ≤ a → a ≤ b → b ≤ Zlen data → b - a ≤ Z.of_nat fuel →
  prefix_le a b data →
  ∃ data', pdqsort fuel data a b limit wasBalanced wasPartitioned = Done data' ∧
    frame a b data data' ∧ sorted a b data'.
Proof.
  induction fuel as [|fuel IH]; intros data a b limit wb wp Ha Hab Hb Hn Hp;
    unfold pdqsort; fold (@pdqsort (list A) I).
  - destruct (b - a <=? maxInsertion) eqn:E; unfold maxInsertion in *; zb; [|lia].
    by apply insertionSort_spec.
  - destruct (b - a <=? maxInsertion) eqn:E; unfold maxInsertion in *; zb.
    { by apply insertionSort_spec. }
    destruct (limit =? 0) eqn:E0.
    { by apply heapSort_spec. }
    clear E0.
    (* breakPatterns *)
    apply (bind_spec _ _ (λ x, frame a b data x.1)).
    { destruct (negb wb).
      - destruct (breakPatterns_spec data a b) as (d1 & -> & Hf1); try lia.
        simpl. eauto.
      - eexists. split; [done|]. apply frame_refl. }
    intros [d1 limit1] Hf1. simpl in Hf1.
    pose proof (frame_len _ _ _ _ Hf1) as Hl1.
    (* choosePivot *)
    destruct (choosePivot_spec d1 a b) as (pivot0 & hint0 & -> & Hpv1 & Hpv2); try lia.
    simpl.
    (* reverseRange *)
    apply (bind_spec _ _ (λ x, frame a b data x.1.1 ∧ a ≤ x.1.2 ∧ x.1.2 < b)).
    { destruct (sortedHint_eqb hint0 decreasingHint).
      - destruct (reverseRange_spec d1 a b) as (d2 & -> & Hf2); try lia.
        simpl. eexists. split; [done|]. simpl.
        split; [by apply (frame_trans _ _ _ d1)|lia].
      - eexists. split; [done|]. simpl. split; [done|lia]. }
    intros [[d2 pivot] hint] (Hf2 & Hpv3 & Hpv4). simpl in Hf2, Hpv3, Hpv4.
    pose proof (frame_len _ _ _ _ Hf2) as Hl2.
    pose proof (prefix_le_frame _ _ _ _ Hf2 Hp) as Hp2.
    (* partialInsertionSort *)
    apply (bind_spec _ _ (λ x, frame a b data x.1 ∧ (x.2 = true → sorted a b x.1))).
    { destruct (wb && wp && sortedHint_eqb hint increasingHint).
      - destruct (partialInsertionSort_spec d2 a b) as (d3 & flag & -> & Hf3 & Hs3);
          try lia; [done|].
        eexists. split; [done|]. simpl.
        split; [by apply (frame_trans _ _ _ d2)|done].
      - eexists. split; [done|]. simpl. split; done. }
    intros [d3 [|]] (Hf3 & Hs3); simpl in Hf3, Hs3.
    { exists d3. split; [done|]. split; [done|]. by apply Hs3. }
    clear Hs3.
    pose proof (frame_len _ _ _ _ Hf3) as Hl3.
    pose proof (prefix_le_frame _ _ _ _ Hf3 Hp) as Hp3.
    (* the element before the slice against the pivot *)
    apply (bind_spec _ _ (λ x : bool, x = true → 0 < a ∧ key d3 pivot ≤ key d3 (a - 1))).
    { destruct (0 <? a) eqn:E1; zb.
      - destruct (Less_inb d3 (a - 1) pivot) as (c & -> & Hc); [lia..|]. simpl.
        eexists. split; [done|]. destruct c; simpl; [done|]. intros _. lia.
      - eexists. split; [done|]. done. }
    intros [|] Hequal.
    + (* partitionEqual *)
      destruct Hequal as [Ha0 Hpk]; [done|].
      destruct (partitionEqual_spec d3 a b pivot)
        as (d4 & mid & -> & Hf4 & Hm1 & Hm2 & Hlo & Hhi); try lia.
      simpl.
      pose proof (frame_len _ _ _ _ Hf4) as Hl4.
      pose proof (prefix_le_frame _ _ _ _ Hf4 Hp3) as Hp4.
      assert (∀ k, a ≤ k → k < b → key d3 (a - 1) ≤ key d4 k) as Hge.
      { intros k ??. apply (frame_lb _ _ _ _ _ Hf4); [|lia].
        intros k' ?. apply Hp3; lia. }
      destruct (IH d4 mid b limit1 wb wp) as (d5 & -> & Hf5 & Hs5); try lia.
      { intros k1 k2 ????. destruct (decide (k1 < a)); [apply Hp4; lia|].
        trans (key d3 pivot); [apply Hlo; lia|apply Hhi; lia]. }
      exists d5. split; [done|]. split.
      { apply (frame_trans _ _ _ d3); [done|].
        apply (frame_trans _ _ _ d4); [done|].
        eapply frame_mono; [| |exact Hf5]; lia. }
      intros k1 k2 H1 H2 H3.
      destruct (decide (mid ≤ k1)); [by apply Hs5; lia|].
      rewrite (frame_out _ _ _ _ k1 Hf5) by lia.
      destruct (decide (k2 < mid)).
      * rewrite (frame_out _ _ _ _ k2 Hf5) by lia.
        pose proof (Hlo k1). pose proof (Hge k1). pose proof (Hge k2).
        pose proof (Hlo k2). lia.
      * trans (key d3 pivot); [apply Hlo; lia|].
        apply (frame_lb _ _ _ _ _ Hf5); [|lia].
        intros k ?. apply Hhi; lia.
    + (* partition *)
      clear Hequal.
      destruct (partition_spec d3 a b pivot)
        as (d4 & mid & ap & -> & Hf4 & Hm1 & Hm2 & Hlo & Hhi); try lia.
      simpl.
      pose proof (frame_len _ _ _ _ Hf4) as Hl4.
      pose proof (prefix_le_frame _ _ _ _ Hf4 Hp3) as Hp4.
      assert (frame a b data d4) as Hf04 by (by apply (frame_trans _ _ _ d3)).
      destruct (mid - a <? b - mid).
      * (* left part first *)
        destruct (IH d4 a mid limit1 true true) as (d5 & -> & Hf5 & Hs5); try lia.
        { intros k1 k2 ????. apply Hp4; lia. }
        simpl.
        pose proof (frame_len _ _ _ _ Hf5) as Hl5.
        assert (key d5 mid = key d4 mid) as Hmid5
          by (apply (frame_out _ _ _ _ _ Hf5); lia).
        assert (∀ k, a ≤ k → k < mid → key d5 k ≤ key d4 mid) as Hlo5.
        { intros k ??. apply (frame_ub _ _ _ _ _ Hf5); [|lia].
          intros k' ?. apply Hlo; lia. }
        assert (∀ k, mid < k → k < b → key d5 k = key d4 k) as Hhi5.
        { intros k ??. apply (frame_out _ _ _ _ _ Hf5). lia. }
        destruct (IH d5 (mid + 1) b limit1 ((b - a) ÷ 8 <=? mid - a) ap)
          as (d6 & -> & Hf6 & Hs6); try lia.
        { intros k1 k2 ????. rewrite (Hhi5 k2) by lia.
          destruct (decide (k1 < a)).
          - rewrite (frame_out _ _ _ _ k1 Hf5) by lia. apply Hp4; lia.
          - destruct (decide (k1 = mid)) as [->|].
            + rewrite Hmid5. apply Hhi; lia.
            + trans (key d4 mid); [apply Hlo5; lia|apply Hhi; lia]. }
        exists d6. split; [done|]. split.
        { apply (frame_trans _ _ _ d4); [done|].
          apply (frame_trans _ _ _ d5); [eapply frame_mono; [| |exact Hf5]; lia|].
          eapply frame_mono; [| |exact Hf6]; lia. }
        assert (key d6 mid = key d4 mid) as Hmid6.
        { rewrite (frame_out _ _ _ _ mid Hf6) by lia. done. }
        apply (sorted_join a mid b); try lia.
        -- apply (sorted_frame_out (mid + 1) b a mid d5); [done|lia|done].
        -- done.
        -- intros k ??. rewrite Hmid6, (frame_out _ _ _ _ k Hf6) by lia.
           apply Hlo5; lia.
        -- intros k ??. rewrite Hmid6.
           apply (frame_lb _ _ _ _ _ Hf6); [|lia].
           intros k' ?. rewrite Hhi5 by lia. apply Hhi; lia.
      * (* right part first *)
        destruct (IH d4 (mid + 1) b limit1 true true) as (d5 & -> & Hf5 & Hs5); try lia.
        { intros k1 k2 ????.
          destruct (decide (k1 < a)); [apply Hp4; lia|].
          destruct (decide (k1 = mid)) as [->|]; [apply Hhi; lia|].
          trans (key d4 mid); [apply Hlo; lia|apply Hhi; lia]. }
        simpl.
        pose proof (frame_len _ _ _ _ Hf5) as Hl5.
        assert (key d5 mid = key d4 mid) as Hmid5
          by (apply (frame_out _ _ _ _ _ Hf5); lia).
        assert (∀ k, mid < k → k < b → key d4 mid ≤ key d5 k) as Hhi5.
        { intros k ??. apply (frame_lb _ _ _ _ _ Hf5); [|lia].
          intros k' ?. apply Hhi; lia. }
        assert (∀ k, k < mid → key d5 k = key d4 k) as Hlo5.
        { intros k ?. apply (frame_out _ _ _ _ _ Hf5). lia. }
        destruct (IH d5 a mid limit1 ((b - a) ÷ 8 <=? b - mid) ap)
          as (d6 & -> & Hf6 & Hs6); try lia.
        { intros k1 k2 ????. rewrite !Hlo5 by lia. apply Hp4; lia. }
        exists d6. split; [done|]. split.
        { apply (frame_trans _ _ _ d4); [done|].
          apply (frame_trans _ _ _ d5); [eapply frame_mono; [| |exact Hf5]; lia|].
          eapply frame_mono; [| |exact Hf6]; lia. }
        assert (key d6 mid = key d4 mid) as Hmid6.
        { rewrite (frame_out _ _ _ _ mid Hf6) by lia. done. }
        apply (sorted_join a mid b); try lia.
        -- done.
        -- apply (sorted_frame_out a mid (mid + 1) b d5); [done|lia|done].
        -- intros k ??. rewrite Hmid6.
           apply (frame_ub _ _ _ _ _ Hf6); [|lia].
           intros k' ?. rewrite Hlo5 by lia. apply Hlo; lia.
        -- intros k ??. rewrite Hmid6, (frame_out _ _ _ _ k Hf6) by lia.
           apply Hhi5; lia.
Qed.

(** ** [Sort] *)

Lemma Sort_spec data :
  ∃ data', Sort data = Done data' ∧ Zlen data' = Zlen data ∧ data' ≡ₚ data ∧
    sorted 0 (Zlen data) data'.
Proof.
  unfold Sort. rewrite Len_spec.
  destruct (Zlen data <=? 1) eqn:E; zb.
  - exists data. repeat split; [done|].
    intros k1 k2 ???. assert (k1 = k2) as -> by lia. done.
  - destruct (pdqsort_spec (Z.to_nat (Zlen data)) data 0 (Zlen data)
                (bits_Len (Zlen data)) true true)
      as (data' & -> & (Hl & Hperm & _) & Hs); try lia.
    { intros k1 k2 ????. lia. }
    by exists data'.
Qed.

(** After [Sort], the last element of a non-empty slice has the greatest
    rank. *)
Lemma Sort_last_max data :
  data ≠ [] →
  ∃ data' s, Sort data = Done data' ∧ data' ≡ₚ data ∧
    index data' (Zlen data' - 1) = Some s ∧ ∀ x, x ∈ data → rank x ≤ rank s.
Proof.
  intros Hne.
  destruct (Sort_spec data) as (data' & HS & Hl & Hperm & Hs).
  assert (0 < Zlen data) as Hpos.
  { unfold Zlen. destruct data; [done|]. simpl. lia. }
  destruct (index_inb data' (Zlen data' - 1)) as [s Hidx]; [lia|].
  exists data', s. repeat split; try done.
  intros x Hx. rewrite <- Hperm in Hx.
  destruct (elem_of_index _ _ Hx) as [i Hi].
  pose proof (index_Some_inb _ _ _ Hi) as Hin.
  pose proof (Hs i (Zlen data' - 1) ltac:(lia) ltac:(lia) ltac:(lia)) as Hle.
  unfold key in Hle. by rewrite Hi, Hidx in Hle.
Qed.

End SortCorrect.

(** * The cluster-snapshot data source *)

Lemma rdsClusterSnapshotSort_Less_spec (a : rdsClusterSnapshotSort) i j x y :
  index a i = Some x → index a j = Some y →
  Less a i j = Done (less_snapshot x y).
Proof.
  intros Hx Hy. simpl. unfold rdsClusterSnapshotSort_Less, less_snapshot.
  rewrite Hx. simpl. destruct (SnapshotCreateTime x); [|done].
  rewrite Hy. simpl. by destruct (SnapshotCreateTime y).
Qed.

Lemma less_snapshot_true c x y :
  less_snapshot x y = true → rank_snapshot c x ≤ rank_snapshot c y.
Proof.
  unfold less_snapshot, rank_snapshot, Before.
  destruct (SnapshotCreateTime x), (SnapshotCreateTime y); intros; zb; lia.
Qed.

Lemma less_snapshot_false c x y :
  less_snapshot x y = false → rank_snapshot c y ≤ rank_snapshot c x.
Proof.
  unfold less_snapshot, rank_snapshot, Before.
  destruct (SnapshotCreateTime x), (SnapshotCreateTime y); intros; zb; lia.
Qed.

(** [sort.Sort] on a non-empty slice of snapshots returns, and the last
    element of the slice it leaves ranks highest, whatever [c]. *)
Lemma Sort_snapshots_last (c : Z) (snapshots : rdsClusterSnapshotSort) :
  snapshots ≠ [] →
  ∃ sortedSnapshots s, Sort snapshots = Done sortedSnapshots ∧
    sortedSnapshots ≡ₚ snapshots ∧
    index sortedSnapshots (Zlen sortedSnapshots - 1) = Some s ∧
    ∀ x, x ∈ snapshots → rank_snapshot c x ≤ rank_snapshot c s.
Proof.
  apply (Sort_last_max less_snapshot (R := rank_snapshot c)).
  - done.
  - done.
  - apply rdsClusterSnapshotSort_Less_spec.
  - apply less_snapshot_true.
  - apply less_snapshot_false.
Qed.

Lemma mostRecentClusterSnapshot_returns snapshots :
  snapshots ≠ [] →
  ∃ s sortedSnapshots,
    mostRecentClusterSnapshot snapshots = Done (s, sortedSnapshots) ∧
    Sort (snapshots : rdsClusterSnapshotSort) = Done sortedSnapshots ∧
    sortedSnapshots ≡ₚ snapshots ∧
    index sortedSnapshots (Zlen sortedSnapshots - 1) = Some s.
Proof.
  intros Hne.
  destruct (Sort_snapshots_last 0 snapshots Hne) as (l & s & HS & Hp & Hi & _).
  exists s, l. unfold mostRecentClusterSnapshot. rewrite HS. simpl.
  rewrite Hi. done.
Qed.

Lemma Sort_snapshots_sorted (c : Z) (snapshots : rdsClusterSnapshotSort) :
  ∃ sortedSnapshots, Sort snapshots = Done sortedSnapshots ∧
    Zlen sortedSnapshots = Zlen snapshots ∧ sortedSnapshots ≡ₚ snapshots ∧
    sorted (H := rank_snapshot c) 0 (Zlen snapshots) sortedSnapshots.
Proof.
  apply (Sort_spec less_snapshot (R := rank_snapshot c)).
  - done.
  - done.
  - apply rdsClusterSnapshotSort_Less_spec.
  - apply less_snapshot_true.
  - apply less_snapshot_false.
Qed.

Lemma mostRecentClusterSnapshot_ordered snapshots :
  snapshots ≠ [] →
  ∃ s sortedSnapshots,
    mostRecentClusterSnapshot snapshots = Done (s, sortedSnapshots) ∧
    sortedSnapshots ≡ₚ snapshots ∧
    index sortedSnapshots (Zlen sortedSnapshots - 1) = Some s ∧
    ∀ k1 k2 x y, k1 ≤ k2 →
      index sortedSnapshots k1 = Some x → index sortedSnapshots k2 = Some y →
      at_least_as_recent y x.
Proof.
  intros Hne.
  destruct (mostRecentClusterSnapshot_returns snapshots Hne)
    as (s & l & Hm & HS & Hp & Hi).
  exists s, l. split; [done|]. split; [done|]. split; [done|].
  intros k1 k2 x y Hk Hx Hy. unfold at_least_as_recent.
  destruct (SnapshotCreateTime x) as [t|] eqn:Ex; [|done].
  destruct (Sort_snapshots_sorted (t - 1) snapshots) as (l' & HS' & Hl & _ & Hs).
  rewrite HS in HS'. injection HS' as <-.
  pose proof (index_Some_inb _ _ _ Hx) as Hx'.
  pose proof (index_Some_inb _ _ _ Hy) as Hy'.
  specialize (Hs k1 k2 ltac:(lia) Hk ltac:(lia)).
  unfold key in Hs. rewrite Hx, Hy in Hs.
  unfold rank, rank_snapshot in Hs. rewrite Ex in Hs.
  destruct (SnapshotCreateTime y); lia.
Qed.

(** C8.  When the creation times of both snapshots are nil, [Less] answers
    [true] for both argument orders; a slice that holds two such snapshots
    is therefore not ordered asymmetrically by [Less], and [Less] is no
    strict weak ordering on it. *)
Theorem Less_both_nil (a : rdsClusterSnapshotSort) i j x y :
  index a i = Some x → index a j = Some y →
  SnapshotCreateTime x = None → SnapshotCreateTime y = None →
  Less a i j = Done true ∧ Less a j i = Done true ∧
  ¬ asymmetric_on a ∧ ¬ strict_weak_order_on a.
Proof.
  intros Hx Hy Hnx Hny.
  assert (Less a i j = Done true) as Hij.
  { rewrite (rdsClusterSnapshotSort_Less_spec a i j x y Hx Hy).
    unfold less_snapshot. by rewrite Hnx. }
  assert (Less a j i = Done true) as Hji.
  { rewrite (rdsClusterSnapshotSort_Less_spec a j i y x Hy Hx).
    unfold less_snapshot. by rewrite Hny. }
  assert (¬ asymmetric_on a) as Hasym.
  { intros Has. by apply (Has i j). }
  repeat split; try done.
  intros (_ & Has & _). by apply Hasym.
Qed.

Lemma Less_both_nil_witness :
  let a : rdsClusterSnapshotSort :=
    [snapshot_in_progress "one"; snapshot_at "two" 7; snapshot_in_progress "three"] in
  Less a 0 2 = Done true ∧ Less a 2 0 = Done true ∧
  ¬ asymmetric_on a ∧ ¬ strict_weak_order_on a.
Proof.
  intros a.
  apply (Less_both_nil a 0 2 (snapshot_in_progress "one") (snapshot_in_progress "three"));
    reflexivity.
Defined.

(** C2.  On a non-empty list [mostRecentClusterSnapshot] returns a snapshot
    that is at least as recent as every snapshot of the list: its creation
    time is not before the creation time of any snapshot that has one, an
    absent creation time counting as the least recent. *)
Theorem mostRecentClusterSnapshot_most_recent snapshots :
  snapshots ≠ [] →
  ∃ s sortedSnapshots,
    mostRecentClusterSnapshot snapshots = Done (s, sortedSnapshots) ∧
    ∀ x, x ∈ snapshots → at_least_as_recent s x.
Proof.
  intros Hne.
  destruct (mostRecentClusterSnapshot_returns snapshots Hne)
    as (s & l & Hm & HS & _ & Hi).
  exists s, l. split; [done|].
  intros x Hx. unfold at_least_as_recent.
  destruct (SnapshotCreateTime x) as [t|] eqn:Ex; [|done].
  destruct (Sort_snapshots_last (t - 1) snapshots Hne) as (l' & s' & HS' & _ & Hi' & Hmax).
  rewrite HS in HS'. injection HS' as <-.
  rewrite Hi in Hi'. injection Hi' as <-.
  specialize (Hmax x Hx). unfold rank_snapshot in Hmax. rewrite Ex in Hmax.
  destruct (SnapshotCreateTime s); lia.
Qed.

Lemma mostRecentClusterSnapshot_most_recent_witness :
  let snapshots :=
    [snapshot_at "a" 5; snapshot_in_progress "b"; snapshot_at "c" 9; snapshot_at "d" 3] in
  ∃ s sortedSnapshots,
    mostRecentClusterSnapshot snapshots = Done (s, sortedSnapshots) ∧
    ∀ x, x ∈ snapshots → at_least_as_recent s x.
Proof.
  intros snapshots. apply (mostRecentClusterSnapshot_most_recent snapshots). done.
Defined.

Lemma selectSnapshot_returns d diags snapshots :
  ∃ r, selectSnapshot d diags snapshots = Done r.
Proof.
  unfold selectSnapshot.
  destruct (Zlen snapshots <? 1) eqn:E0; [by eexists|].
  destruct (1 <? Zlen snapshots) eqn:E1; zb.
  - destruct (d_Get_bool d "most_recent"); [|by eexists].
    destruct (mostRecentClusterSnapshot_returns snapshots) as (s & l & -> & _).
    { intros ->. unfold Zlen in E1. simpl in E1. lia. }
    by eexists.
  - destruct (index_inb snapshots 0) as [x ->]; [lia|]. by eexists.
Qed.

Lemma dataSourceClusterSnapshotRead_returns {W} (conn : RDS W) IgnoreTags Format_RFC3339
    d st :
  ∃ r, (dataSourceClusterSnapshotRead conn IgnoreTags Format_RFC3339 d st).1 = Done r.
Proof.
  unfold dataSourceClusterSnapshotRead. destruct st as [w log]. simpl.
  destruct (_ && _); [by eexists|].
  unfold sdk_call_out, request, mbind, M_bind, mret, M_ret. simpl.
  destruct (DescribeDBClusterSnapshotsWithContext conn (describeParams d) w)
    as [[resp err] w'].
  destruct err as [e|]; simpl; [by eexists|].
  destruct (selectSnapshot_returns d [] (DBClusterSnapshots resp)) as [r ->].
  destruct r as [diags|snapshot]; [by eexists|].
  destruct (ListTags conn _ w') as [[tags err] w''].
  destruct err; by eexists.
Qed.

(** C9.  [mostRecentClusterSnapshot] returns an element of its input: the
    one at index length minus one of the slice that [sort.Sort] leaves, a
    permutation of the input in ascending order of creation time.  On the
    empty list that index is out of range and the function panics.  The
    read reaches
    the call only on a response with more than one snapshot (with at most
    one, the choice of the snapshot does not depend on the configuration,
    hence not on [most_recent]), and there the call returns: neither the
    choice of the snapshot nor the read panics. *)
Theorem mostRecentClusterSnapshot_guarded snapshots :
  (snapshots = [] → mostRecentClusterSnapshot snapshots = Panic) ∧
  (snapshots ≠ [] →
     ∃ s sortedSnapshots,
       mostRecentClusterSnapshot snapshots = Done (s, sortedSnapshots) ∧
       Sort (snapshots : rdsClusterSnapshotSort) = Done sortedSnapshots ∧
       sortedSnapshots ≡ₚ snapshots ∧
       (∀ k1 k2 x y, k1 ≤ k2 →
          index sortedSnapshots k1 = Some x → index sortedSnapshots k2 = Some y →
          at_least_as_recent y x) ∧
       index sortedSnapshots (Zlen sortedSnapshots - 1) = Some s ∧
       s ∈ snapshots) ∧
  (1 < Zlen snapshots → ∃ r, mostRecentClusterSnapshot snapshots = Done r) ∧
  (Zlen snapshots ≤ 1 → ∀ d d' diags,
     selectSnapshot d diags snapshots = selectSnapshot d' diags snapshots) ∧
  (∀ d diags, ∃ r, selectSnapshot d diags snapshots = Done r) ∧
  (∀ W (conn : RDS W) IgnoreTags Format_RFC3339 d w log w',
     DescribeDBClusterSnapshotsWithContext conn (describeParams d) w
       = (({| DBClusterSnapshots := snapshots |}, None), w') →
     ∃ r, (dataSourceClusterSnapshotRead conn IgnoreTags Format_RFC3339 d (w, log)).1
          = Done r).
Proof.
  assert (snapshots ≠ [] →
     ∃ s sortedSnapshots,
       mostRecentClusterSnapshot snapshots = Done (s, sortedSnapshots) ∧
       Sort (snapshots : rdsClusterSnapshotSort) = Done sortedSnapshots ∧
       sortedSnapshots ≡ₚ snapshots ∧
       (∀ k1 k2 x y, k1 ≤ k2 →
          index sortedSnapshots k1 = Some x → index sortedSnapshots k2 = Some y →
          at_least_as_recent y x) ∧
       index sortedSnapshots (Zlen sortedSnapshots - 1) = Some s ∧
       s ∈ snapshots) as Hret.
  { intros Hne.
    destruct (mostRecentClusterSnapshot_returns snapshots Hne)
      as (s & l & Hm & HS & Hp & Hi).
    destruct (mostRecentClusterSnapshot_ordered snapshots Hne)
      as (s' & l' & Hm' & _ & _ & Hord).
    rewrite Hm in Hm'. injection Hm' as <- <-.
    exists s, l. split; [done|]. split; [done|]. split; [done|].
    split; [done|]. split; [done|].
    rewrite <- Hp. by apply index_elem_of in Hi. }
  split; [by intros ->|]. split; [done|]. split; [|split; [|split]].
  - intros Hlen. destruct Hret as (s & l & -> & _); [|by eexists].
    intros ->. unfold Zlen in Hlen. simpl in Hlen. lia.
  - intros Hlen d d' diags. unfold selectSnapshot.
    destruct (Zlen snapshots <? 1); [done|].
    destruct (1 <? Zlen snapshots) eqn:E; [zb; lia|done].
  - intros d diags. apply selectSnapshot_returns.
  - intros. apply dataSourceClusterSnapshotRead_returns.
Qed.

Lemma mostRecentClusterSnapshot_guarded_witness :
  let snapshots := [snapshot_at "a" 5; snapshot_in_progress "b"; snapshot_at "c" 9] in
  ∃ s sortedSnapshots,
    mostRecentClusterSnapshot snapshots = Done (s, sortedSnapshots) ∧
    Sort (snapshots : rdsClusterSnapshotSort) = Done sortedSnapshots ∧
    sortedSnapshots ≡ₚ snapshots ∧
    (∀ k1 k2 x y, k1 ≤ k2 →
       index sortedSnapshots k1 = Some x → index sortedSnapshots k2 = Some y →
       at_least_as_recent y x) ∧
    index sortedSnapshots (Zlen sortedSnapshots - 1) = Some s ∧
    s ∈ snapshots.
Proof.
  intros snapshots.
  apply (proj1 (proj2 (mostRecentClusterSnapshot_guarded snapshots))). done.
Defined.

Ltac run :=
  unfold sdk_call_out, sdk_call, request, mbind, M_bind, mret, M_ret; simpl.

Lemma d_Get_string_Set_ne d k k' v :
  k ≠ k' → d_Get_string (d_Set d k v) k' = d_Get_string d k'.
Proof. intros Hk. unfold d_Get_string. simpl. by rewrite lookup_insert_ne. Qed.

Lemma d_Get_string_Set_eq d k s : d_Get_string (d_Set d k (VString s)) k = s.
Proof. unfold d_Get_string. simpl. by rewrite lookup_insert_eq. Qed.

Lemma bind_run {S X Y} (m : M S X) (k : X → M S Y) s :
  (m ≫= k) s = let '(x, s') := m s in k x s'.
Proof. reflexivity. Qed.

Lemma ret_run {S X} (x : X) (s : S) : (mret x : M S X) s = (x, s).
Proof. reflexivity. Qed.

Lemma sdk_call_run {W C I} (tag : I → C) (op : I → W → option api_error * W) i w log :
  sdk_call tag op i (w, log) = (as_error (op i w).1, ((op i w).2, log ++ [tag i])).
Proof. unfold sdk_call. run. by destruct (op i w). Qed.

Lemma setSnapshotAttributes_arn Format_RFC3339 d x :
  d_Get_string (setSnapshotAttributes Format_RFC3339 d x) "db_cluster_snapshot_arn"
  = StringValue (DBClusterSnapshotArn x).
Proof.
  unfold setSnapshotAttributes. cbv zeta.
  destruct (SnapshotCreateTime x);
    rewrite !d_Get_string_Set_ne by discriminate; apply d_Get_string_Set_eq.
Qed.

Lemma setSnapshotAttributes_id Format_RFC3339 d x :
  d_id (setSnapshotAttributes Format_RFC3339 d x)
  = StringValue (DBClusterSnapshotIdentifier x).
Proof. unfold setSnapshotAttributes. by destruct (SnapshotCreateTime x). Qed.

(** What the read does once [selectSnapshot] has chosen [x] *)
Lemma dataSourceClusterSnapshotRead_selects {W} (conn : RDS W) IgnoreTags Format_RFC3339
    d w log resp w' x :
  (d_GetOk_string d "db_cluster_identifier").2 = true ∨
  (d_GetOk_string d "db_cluster_snapshot_identifier").2 = true →
  DescribeDBClusterSnapshotsWithContext conn (describeParams d) w = ((resp, None), w') →
  selectSnapshot d [] (DBClusterSnapshots resp) = Done (inr x) →
  ∃ diags d' w'',
    dataSourceClusterSnapshotRead conn IgnoreTags Format_RFC3339 d (w, log)
    = (Done (diags, d'),
       (w'', log ++ [DescribeDBClusterSnapshotsCall (describeParams d);
                     ListTagsCall (StringValue (DBClusterSnapshotArn x))])) ∧
    snapshot_selected Format_RFC3339 d x d'.
Proof.
  intros Hok Hdesc Hsel. unfold dataSourceClusterSnapshotRead. simpl.
  replace (negb _ && negb _) with false
    by (simpl in Hok; destruct Hok as [-> | ->]; by rewrite ?andb_false_r).
  run. rewrite Hdesc. simpl. rewrite Hsel.
  rewrite setSnapshotAttributes_arn.
  destruct (ListTags conn _ w') as [[tags err] w''].
  rewrite <- app_assoc. simpl.
  destruct err as [e|]; do 3 eexists; (split; [done|]).
  - split; [apply setSnapshotAttributes_id|done].
  - split; [apply setSnapshotAttributes_id|].
    intros k Hk. simpl. by rewrite lookup_insert_ne.
Qed.

Lemma dataSourceClusterSnapshotRead_fails {W} (conn : RDS W) IgnoreTags Format_RFC3339
    d w log resp w' diags :
  (d_GetOk_string d "db_cluster_identifier").2 = true ∨
  (d_GetOk_string d "db_cluster_snapshot_identifier").2 = true →
  DescribeDBClusterSnapshotsWithContext conn (describeParams d) w = ((resp, None), w') →
  selectSnapshot d [] (DBClusterSnapshots resp) = Done (inl diags) →
  dataSourceClusterSnapshotRead conn IgnoreTags Format_RFC3339 d (w, log)
  = (Done (diags, d), (w', log ++ [DescribeDBClusterSnapshotsCall (describeParams d)])).
Proof.
  intros Hok Hdesc Hsel. unfold dataSourceClusterSnapshotRead. simpl.
  replace (negb _ && negb _) with false
    by (simpl in Hok; destruct Hok as [-> | ->]; by rewrite ?andb_false_r).
  run. rewrite Hdesc. simpl. by rewrite Hsel.
Qed.

(** C3.  The read on a describe response.  With more than one snapshot it
    selects the snapshot that [mostRecentClusterSnapshot] returns when
    [most_recent] is true, a snapshot of the response that is at least as
    recent as every snapshot of the response, and when it is false it
    returns an error diagnostic, leaves the resource data as they were and
    issues no further request (the two outcomes differ, so the selection
    happens if and only if the flag is true).  With exactly one snapshot it
    selects that one whatever the flag; with none it returns an error
    diagnostic. *)
Theorem dataSourceClusterSnapshotRead_selection {W} (conn : RDS W) IgnoreTags
    Format_RFC3339 d w log resp w' :
  (d_GetOk_string d "db_cluster_identifier").2 = true ∨
  (d_GetOk_string d "db_cluster_snapshot_identifier").2 = true →
  DescribeDBClusterSnapshotsWithContext conn (describeParams d) w = ((resp, None), w') →
  let snapshots := DBClusterSnapshots resp in
  let describe := DescribeDBClusterSnapshotsCall (describeParams d) in
  let out := dataSourceClusterSnapshotRead conn IgnoreTags Format_RFC3339 d (w, log) in
  let fails :=
    ∃ diags, out = (Done (diags, d), (w', log ++ [describe])) ∧ HasError diags = true in
  let selects x :=
    ∃ diags d' w'',
      out = (Done (diags, d'),
             (w'', log ++ [describe; ListTagsCall (StringValue (DBClusterSnapshotArn x))])) ∧
      snapshot_selected Format_RFC3339 d x d' in
  (1 < Zlen snapshots →
     (d_Get_bool d "most_recent" = true →
        ∃ s sortedSnapshots,
          mostRecentClusterSnapshot snapshots = Done (s, sortedSnapshots) ∧
          s ∈ snapshots ∧
          (∀ x, x ∈ snapshots → at_least_as_recent s x) ∧
          selects s) ∧
     (d_Get_bool d "most_recent" = false → fails)) ∧
  (∀ x, snapshots = [x] → selects x) ∧
  (snapshots = [] → fails).
Proof.
  intros Hok Hdesc snapshots describe out fails selects.
  split; [|split].
  - intros Hlen. split; intros Hflag.
    + destruct (mostRecentClusterSnapshot_ordered snapshots)
        as (s & l & Hm & Hp & Hlast & Hord).
      { intros E. rewrite E in Hlen. unfold Zlen in Hlen. simpl in Hlen. lia. }
      exists s, l. split; [done|].
      split; [rewrite <- Hp; by apply index_elem_of in Hlast|].
      split.
      { intros x Hx. rewrite <- Hp in Hx. destruct (elem_of_index _ _ Hx) as [k Hk].
        pose proof (index_Some_inb _ _ _ Hk).
        apply (Hord k (Zlen l - 1) x s); [lia|done|done]. }
      eapply dataSourceClusterSnapshotRead_selects; [exact Hok|exact Hdesc|].
      unfold selectSnapshot. fold snapshots.
      destruct (Zlen snapshots <? 1) eqn:E0; zb; [lia|].
      destruct (1 <? Zlen snapshots) eqn:E1; zb; [|lia].
      by rewrite Hflag, Hm.
    + eexists. split.
      * apply (dataSourceClusterSnapshotRead_fails _ _ _ _ _ _ resp); try done.
        unfold selectSnapshot. fold snapshots.
        destruct (Zlen snapshots <? 1) eqn:E0; zb; [lia|].
        destruct (1 <? Zlen snapshots) eqn:E1; zb; [|lia].
        by rewrite Hflag.
      * done.
  - intros x Hx.
    eapply dataSourceClusterSnapshotRead_selects; [exact Hok|exact Hdesc|].
    fold snapshots. by rewrite Hx.
  - intros Hnil. eexists. split.
    + apply (dataSourceClusterSnapshotRead_fails _ _ _ _ _ _ resp); try done.
      fold snapshots. by rewrite Hnil.
    + done.
Qed.

Lemma dataSourceClusterSnapshotRead_selection_witness :
  let snapshots := [snapshot_at "a" 5; snapshot_at "b" 9; snapshot_in_progress "c"] in
  let conn := rds_answering snapshots in
  let d := snapshot_query true in
  ∃ s sortedSnapshots,
    mostRecentClusterSnapshot snapshots = Done (s, sortedSnapshots) ∧
    s ∈ snapshots ∧
    (∀ x, x ∈ snapshots → at_least_as_recent s x) ∧
    ∃ diags d' w'',
      dataSourceClusterSnapshotRead conn id (λ _, "time") d ((), [])
      = (Done (diags, d'),
         (w'', [] ++ [DescribeDBClusterSnapshotsCall (describeParams d);
                      ListTagsCall (StringValue (DBClusterSnapshotArn s))])) ∧
      snapshot_selected (λ _, "time") d s d'.
Proof.
  intros snapshots conn d.
  apply (dataSourceClusterSnapshotRead_selection conn id (λ _, "time") d () []
           {| DBClusterSnapshots := snapshots |} ()).
  - left. reflexivity.
  - reflexivity.
  - reflexivity.
  - reflexivity.
Defined.

(** * Configuration templates *)

Lemma String_app c p q : String c p +:+ q = String c (p +:+ q).
Proof. reflexivity. Qed.

Lemma has_prefix_spec p s : has_prefix p s = true ↔ ∃ q, s = p +:+ q.
Proof.
  revert s. induction p as [|c p IH]; intros s; simpl.
  - split; [by exists s|done].
  - destruct s as [|d s].
    + split; [done|]. by intros [q ?].
    + destruct (Ascii.eqb c d) eqn:E.
      * apply Ascii.eqb_eq in E as ->. rewrite IH.
        split; intros [q Hq]; exists q; rewrite String_app in *; congruence.
      * apply Ascii.eqb_neq in E. split; [done|]. intros [q Hq].
        rewrite String_app in Hq. congruence.
Qed.

Lemma strings_Contains_spec s sub :
  strings_Contains s sub = true ↔ is_substring sub s.
Proof.
  unfold is_substring. induction s as [|c s IH]; simpl.
  - rewrite orb_false_r, has_prefix_spec. split.
    + intros [q Hq]. by exists EmptyString, q.
    + intros (p & q & Hpq). destruct p; [by exists q|done].
  - rewrite orb_true_iff, has_prefix_spec, IH. split.
    + intros [[q Hq] | (p & q & Hpq)].
      * by exists EmptyString, q.
      * exists (String c p), q. by rewrite String_app, Hpq.
    + intros (p & q & Hpq). destruct p as [|c' p].
      * left. by exists q.
      * right. exists p, q. rewrite String_app in Hpq. congruence.
Qed.

Lemma ErrMessageContains_spec sdkerr code message :
  ErrMessageContains (as_error sdkerr) code message = true ↔
  ∃ m, sdkerr = Some (awserr code m) ∧ is_substring message m.
Proof.
  unfold ErrMessageContains. destruct sdkerr as [[c m|t]|]; simpl.
  - rewrite andb_true_iff, String.eqb_eq, strings_Contains_spec. split.
    + intros [-> ?]. by exists m.
    + intros (m' & [= -> ->] & ?). done.
  - split; [done|]. by intros (? & ? & _).
  - split; [done|]. by intros (? & ? & _).
Qed.

Lemma template_missing_spec sdkerr :
  ErrMessageContains (as_error sdkerr) "InvalidParameterValue"
    "No Configuration Template named"
  || ErrMessageContains (as_error sdkerr) "InvalidParameterValue" "No Application named"
  = true ↔ template_missing sdkerr.
Proof.
  rewrite orb_true_iff, !ErrMessageContains_spec. unfold template_missing. split.
  - intros [(m & ? & ?) | (m & ? & ?)]; exists m; auto.
  - intros (m & ? & [?|?]); [left|right]; by exists m.
Qed.

(** C4.  [FindConfigurationSettingsByTwoPartKey] issues one describe
    request.  It returns a [NotFoundError] exactly when the request fails
    with an [InvalidParameterValue] error whose message contains
    "No Configuration Template named" or "No Application named"; any other
    error of the request is returned as it is; without an error, a nil
    response, a response without configuration settings or with a nil first
    one gives an empty-result error, otherwise more than one configuration
    setting gives a too-many-results error, and otherwise the single
    description is returned. *)
Theorem FindConfigurationSettingsByTwoPartKey_cases {W} (conn : ElasticBeanstalk W)
    applicationName templateName w log output sdkerr w' :
  let input := describeInput applicationName templateName in
  DescribeConfigurationSettingsWithContext conn input w = ((output, sdkerr), w') →
  ∃ settings err,
    FindConfigurationSettingsByTwoPartKey conn applicationName templateName (w, log)
    = ((settings, err), (w', log ++ [DescribeConfigurationSettingsCall input])) ∧
    ((∃ last, err = Some (NotFoundError last)) ↔ template_missing sdkerr) ∧
    (template_missing sdkerr → settings = None ∧ err = Some (NotFoundError sdkerr)) ∧
    (∀ e, sdkerr = Some e → ¬ template_missing sdkerr →
       settings = None ∧ err = Some (ApiError e)) ∧
    (sdkerr = None →
       (output = None ∨
        ∃ out, output = Some out ∧
          (ConfigurationSettings out = [] ∨
           ∃ rest, ConfigurationSettings out = None :: rest)) →
       settings = None ∧ err = Some EmptyResultError) ∧
    (sdkerr = None → ∀ out first rest,
       output = Some out → ConfigurationSettings out = Some first :: rest → rest ≠ [] →
       settings = None ∧
       err = Some (TooManyResultsError (Zlen (ConfigurationSettings out)))) ∧
    (sdkerr = None → ∀ out first,
       output = Some out → ConfigurationSettings out = [Some first] →
       settings = Some first ∧ err = None).
Proof.
  intros input Hdesc. unfold FindConfigurationSettingsByTwoPartKey. run.
  fold (describeInput applicationName templateName). fold input. rewrite Hdesc.
  pose proof (template_missing_spec sdkerr) as Hspec.
  destruct (_ || _) eqn:Hm.
  - assert (template_missing sdkerr) as Hmiss by by apply Hspec.
    do 2 eexists. split; [done|].
    split; [|split; [|split; [|split; [|split]]]].
    + split; [done|]. intros _. by eexists.
    + done.
    + done.
    + intros ->. by destruct Hmiss as (? & ? & _).
    + intros ->. by destruct Hmiss as (? & ? & _).
    + intros ->. by destruct Hmiss as (? & ? & _).
  - assert (¬ template_missing sdkerr) as Hmiss.
    { intros H. apply Hspec in H. done. }
    assert (∀ e : error,
              (∀ last, e ≠ NotFoundError last) →
              ((∃ last, Some e = Some (NotFoundError last)) ↔ template_missing sdkerr))
      as Hiff.
    { intros e Hne. split; [|done]. intros [last [= ->]]. by destruct (Hne last). }
    destruct sdkerr as [e|]; simpl.
    { do 2 eexists. split; [done|].
      split; [|split; [|split; [|split; [|split]]]]; try done.
      - by apply Hiff.
      - by intros ? [= <-]. }
    destruct output as [out|]; simpl.
    2:{ do 2 eexists. split; [done|].
        split; [|split; [|split; [|split; [|split]]]]; try done.
        by apply Hiff. }
    destruct (ConfigurationSettings out) as [|[first|] rest] eqn:Hcs.
    + do 2 eexists. split; [done|].
      split; [|split; [|split; [|split; [|split]]]]; try done.
      * by apply Hiff.
      * intros _ ??? [= <-]. congruence.
      * intros _ ?? [= <-]. congruence.
    + destruct (1 <? Zlen (Some first :: rest)) eqn:Hcount; zb.
      * do 2 eexists. split; [done|].
        split; [|split; [|split; [|split; [|split]]]]; try done.
        -- by apply Hiff.
        -- intros _ [|(out' & [= <-] & [?|[rest' ?]])]; congruence.
        -- intros _ ??? [= <-] ? ?. by rewrite Hcs.
        -- intros _ ?? [= <-] ?. assert (rest = []) as -> by congruence.
           unfold Zlen in Hcount. simpl in Hcount. lia.
      * assert (rest = []) as ->.
        { destruct rest; [done|]. unfold Zlen in Hcount. simpl in Hcount. lia. }
        do 2 eexists. split; [done|].
        split; [|split; [|split; [|split; [|split]]]]; try done.
        -- split; [by intros [? ?]|done].
        -- intros _ [|(out' & [= <-] & [?|[rest' ?]])]; congruence.
        -- intros _ ??? [= <-] ? ?. congruence.
        -- intros _ ?? [= <-] ?. split; [congruence|done].
    + do 2 eexists. split; [done|].
      split; [|split; [|split; [|split; [|split]]]]; try done.
      * by apply Hiff.
      * intros _ ??? [= <-]. congruence.
      * intros _ ?? [= <-]. congruence.
Qed.

Lemma FindConfigurationSettingsByTwoPartKey_cases_witness :
  let e := awserr "InvalidParameterValue" "No Application named app" in
  let conn := eb_answering None None None (None, Some e) in
  (FindConfigurationSettingsByTwoPartKey conn "app" "tmpl" ((), [])).1
  = (None, Some (NotFoundError (Some e))).
Proof.
  intros e conn.
  destruct (FindConfigurationSettingsByTwoPartKey_cases conn "app" "tmpl" () []
              None (Some e) () eq_refl)
    as (settings & err & Hrun & _ & Hmissing & _).
  rewrite Hrun. simpl.
  destruct Hmissing as [-> ->]; [|reflexivity].
  exists "No Application named app". split; [reflexivity|].
  right. exists EmptyString, " app". reflexivity.
Defined.

Lemma resourceConfigurationTemplateOptionSettingsUpdate_validate {W}
    (conn : ElasticBeanstalk W) d w log :
  d_HasChange d "setting" = true →
  ∀ err w', ValidateConfigurationSettingsWithContext conn (validateInput d) w = (err, w') →
  match err with
  | Some e =>
      resourceConfigurationTemplateOptionSettingsUpdate conn d (w, log)
      = (Some (ApiError e),
         (w', log ++ [ValidateConfigurationSettingsCall (validateInput d)]))
  | None =>
      ∃ req r w'',
        resourceConfigurationTemplateOptionSettingsUpdate conn d (w, log)
        = (r, (w'', log ++ [ValidateConfigurationSettingsCall (validateInput d);
                            UpdateConfigurationTemplateCall req])) ∧
        update_Description req = None
  end.
Proof.
  intros Hch err w' Hval. unfold resourceConfigurationTemplateOptionSettingsUpdate.
  rewrite Hch. run. rewrite Hval. destruct err as [e|]; simpl; [done|].
  destruct (d_GetChange d "setting") as [o n].
  run.
  match goal with |- context [UpdateConfigurationTemplateWithContext conn ?r w'] =>
    destruct (UpdateConfigurationTemplateWithContext conn r w') as [err w''];
    exists r, (as_error err), w'' end.
  by rewrite <- app_assoc.
Qed.

(** C5.  When the [setting] field changed, the first request of the
    option-settings update is [ValidateConfigurationSettings] with all the
    option settings gathered from the new configuration; when that request
    fails, its error is returned and no [UpdateConfigurationTemplate]
    request follows, in the update handler as well. *)
Theorem resourceConfigurationTemplateOptionSettingsUpdate_validates_first {W}
    (conn : ElasticBeanstalk W) d w log :
  d_HasChange d "setting" = true →
  let validate := ValidateConfigurationSettingsCall (validateInput d) in
  validate_OptionSettings (validateInput d) = gatherOptionSettings d ∧
  (∀ ns, d_values d !! "setting" = Some (VSet ns) →
     gatherOptionSettings d = extractOptionSettings ns) ∧
  (∃ rest, (resourceConfigurationTemplateOptionSettingsUpdate conn d (w, log)).2.2
           = log ++ validate :: rest) ∧
  (∀ e w',
     ValidateConfigurationSettingsWithContext conn (validateInput d) w = (Some e, w') →
     resourceConfigurationTemplateOptionSettingsUpdate conn d (w, log)
     = (Some (ApiError e), (w', log ++ [validate])) ∧
     (d_HasChange d "description" = false → ∀ NotFound,
        ∃ diags, HasError diags = true ∧
          resourceConfigurationTemplateUpdate conn NotFound d (w, log)
          = ((diags, d), (w', log ++ [validate])))).
Proof.
  intros Hch validate. split; [done|]. split; [|split].
  - intros ns Hns. unfold gatherOptionSettings, d_Get_set. by rewrite Hns.
  - destruct (ValidateConfigurationSettingsWithContext conn (validateInput d) w)
      as [err w'] eqn:Hval.
    pose proof (resourceConfigurationTemplateOptionSettingsUpdate_validate
                  conn d w log Hch err w' Hval) as Hrun.
    destruct err as [e|].
    + rewrite Hrun. by exists [].
    + destruct Hrun as (req & r & w'' & -> & _). by eexists.
  - intros e w' Hval.
    pose proof (resourceConfigurationTemplateOptionSettingsUpdate_validate
                  conn d w log Hch (Some e) w' Hval) as Hrun.
    split; [done|]. intros Hdescr NotFound.
    unfold resourceConfigurationTemplateUpdate. rewrite Hdescr, Hch.
    unfold mbind at 1, M_bind at 1. unfold mret at 1, M_ret at 1.
    unfold mbind at 1, M_bind at 1. rewrite Hrun.
    eexists. split; [|done]. done.
Qed.

Lemma resourceConfigurationTemplateOptionSettingsUpdate_validates_first_witness :
  let e := awserr "InvalidParameterValue" "Invalid option value" in
  let conn := eb_answering None None (Some e) (None, None) in
  let d := template_data "first" "first" [min_size "1"] [min_size "2"] in
  resourceConfigurationTemplateOptionSettingsUpdate conn d ((), [])
  = (Some (ApiError e), ((), [] ++ [ValidateConfigurationSettingsCall (validateInput d)])).
Proof.
  intros e conn d.
  apply (resourceConfigurationTemplateOptionSettingsUpdate_validates_first conn d () []).
  - vm_compute. reflexivity.
  - reflexivity.
Defined.

(** C6.  When the request of a create handler fails, the handler returns
    one error diagnostic and the resource data as it received them, the id
    included, having issued that request only.  This holds for the create
    of the configuration template and for the create of the peering
    attachment accepter. *)
Theorem create_error_leaves_state (d : ResourceData) (e : api_error) :
  (∀ W (conn : ElasticBeanstalk W) NotFound w log w',
     CreateConfigurationTemplateWithContext conn (createOpts d) w = (Some e, w') →
     ∃ diag,
       resourceConfigurationTemplateCreate conn NotFound d (w, log)
       = (([diag], d), (w', log ++ [CreateConfigurationTemplateCall (createOpts d)])) ∧
       severity diag = Error) ∧
  (∀ W (conn : EC2 W) meta NotFound w log output w',
     let input := Some (d_Get_string d "transit_gateway_attachment_id") in
     AcceptTransitGatewayPeeringAttachmentWithContext conn input w
       = ((output, Some e), w') →
     ∃ diag,
       resourceTransitGatewayPeeringAttachmentAccepterCreate conn meta NotFound d (w, log)
       = (([diag], d), (w', log ++ [AcceptTransitGatewayPeeringAttachmentCall input])) ∧
       severity diag = Error).
Proof.
  split.
  - intros W conn NotFound w log w' Hcreate.
    unfold resourceConfigurationTemplateCreate. run. rewrite Hcreate. simpl.
    by eexists.
  - intros W conn meta NotFound w log output w' input Haccept.
    unfold resourceTransitGatewayPeeringAttachmentAccepterCreate. run.
    fold input. rewrite Haccept. simpl. by eexists.
Qed.

Lemma create_error_leaves_state_witness :
  let e := awserr "TooManyConfigurationTemplatesException" "limit exceeded" in
  let d := fresh_template in
  let g := fresh_gateway_data ∅ in
  let conn := ec2_returning accepted_attachment created_route_table (Some e) None
                None None None in
  (d_Id d = EmptyString ∧ d_Get_string d "name" = "tmpl" ∧
   ∃ diag,
     resourceConfigurationTemplateCreate (eb_answering (Some e) None None (None, None))
       is_NotFoundError d ((), [])
     = (([diag], d), ((), [] ++ [CreateConfigurationTemplateCall (createOpts d)])) ∧
     severity diag = Error) ∧
  (d_Id g = EmptyString ∧
   (AcceptTransitGatewayPeeringAttachmentWithContext conn (Some "tgw-attach-1") ()).1
   = (accepted_attachment, Some e) ∧
   TransitGatewayAttachmentId accepted_attachment = Some "tgw-attach-1" ∧
   ∃ diag,
     resourceTransitGatewayPeeringAttachmentAccepterCreate conn client is_NotFoundError
       g ((), [])
     = (([diag], g),
        ((), [] ++ [AcceptTransitGatewayPeeringAttachmentCall
                      (Some (d_Get_string g "transit_gateway_attachment_id"))])) ∧
     severity diag = Error).
Proof.
  intros e d g conn. split.
  - split; [reflexivity|]. split; [reflexivity|].
    apply (proj1 (create_error_leaves_state d e)). reflexivity.
  - split; [reflexivity|]. split; [reflexivity|]. split; [reflexivity|].
    apply (proj2 (create_error_leaves_state g e) unit conn
             client is_NotFoundError () [] accepted_attachment ()).
    reflexivity.
Defined.

(** C10.  When the delete request answers with the not-found error code of
    the attachment id, respectively of the route-table id, the delete
    handler of the peering attachment accepter, respectively of the route
    table, returns no diagnostics and the resource data as they were, and
    issues no request after the delete: it does not wait for the
    deletion. *)
Theorem delete_not_found_succeeds (d : ResourceData) (message : string) :
  (∀ W (conn : EC2 W) errCodeInvalidTransitGatewayAttachmentIDNotFound w log w',
     DeleteTransitGatewayPeeringAttachmentWithContext conn (Some (d_Id d)) w
       = (Some (awserr errCodeInvalidTransitGatewayAttachmentIDNotFound message), w') →
     resourceTransitGatewayPeeringAttachmentAccepterDelete conn
       errCodeInvalidTransitGatewayAttachmentIDNotFound d (w, log)
     = (([], d), (w', log ++ [DeleteTransitGatewayPeeringAttachmentCall (Some (d_Id d))]))) ∧
  (∀ W (conn : EC2 W) errCodeInvalidRouteTableIDNotFound w log w',
     DeleteTransitGatewayRouteTableWithContext conn (Some (d_Id d)) w
       = (Some (awserr errCodeInvalidRouteTableIDNotFound message), w') →
     resourceTransitGatewayRouteTableDelete conn errCodeInvalidRouteTableIDNotFound
       d (w, log)
     = (([], d), (w', log ++ [DeleteTransitGatewayRouteTableCall (Some (d_Id d))]))).
Proof.
  split.
  - intros W conn code w log w' Hdel.
    unfold resourceTransitGatewayPeeringAttachmentAccepterDelete. run.
    rewrite Hdel. simpl. by rewrite String.eqb_refl.
  - intros W conn code w log w' Hdel.
    unfold resourceTransitGatewayRouteTableDelete. run.
    rewrite Hdel. simpl. by rewrite String.eqb_refl.
Qed.

Lemma delete_not_found_succeeds_witness :
  let d := gateway_data "tgw-1234" in
  let gone code := Some (awserr code "The ID does not exist") in
  resourceTransitGatewayPeeringAttachmentAccepterDelete
    (ec2_answering None (gone "InvalidTransitGatewayAttachmentID.NotFound"))
    "InvalidTransitGatewayAttachmentID.NotFound" d ((), [])
  = (([], d), ((), [] ++ [DeleteTransitGatewayPeeringAttachmentCall (Some (d_Id d))])) ∧
  resourceTransitGatewayRouteTableDelete
    (ec2_answering None (gone "InvalidRouteTableID.NotFound"))
    "InvalidRouteTableID.NotFound" d ((), [])
  = (([], d), ((), [] ++ [DeleteTransitGatewayRouteTableCall (Some (d_Id d))])).
Proof.
  intros d gone. split.
  - apply (proj1 (delete_not_found_succeeds d "The ID does not exist")). reflexivity.
  - apply (proj2 (delete_not_found_succeeds d "The ID does not exist")). reflexivity.
Defined.

(** The finder, and so the read-back, issues one describe request. *)
Lemma FindConfigurationSettingsByTwoPartKey_calls {W} (conn : ElasticBeanstalk W)
    applicationName templateName w log :
  ∃ r w',
    FindConfigurationSettingsByTwoPartKey conn applicationName templateName (w, log)
    = (r, (w', log ++ [DescribeConfigurationSettingsCall
                         (describeInput applicationName templateName)])).
Proof.
  unfold FindConfigurationSettingsByTwoPartKey. run.
  fold (describeInput applicationName templateName).
  destruct (DescribeConfigurationSettingsWithContext conn _ w) as [[output sdkerr] w'].
  destruct (_ || _); [by do 2 eexists|].
  destruct sdkerr; simpl; [by do 2 eexists|].
  destruct output as [out|]; simpl; [|by do 2 eexists].
  destruct (ConfigurationSettings out) as [|[first|] rest]; try by do 2 eexists.
  destruct (1 <? _); by do 2 eexists.
Qed.

Lemma resourceConfigurationTemplateRead_calls {W} (conn : ElasticBeanstalk W) NotFound
    d w log :
  ∃ r w',
    resourceConfigurationTemplateRead conn NotFound d (w, log)
    = (r, (w', log ++ [DescribeConfigurationSettingsCall
                         (describeInput (d_Get_string d "application") (d_Id d))])).
Proof.
  unfold resourceConfigurationTemplateRead.
  destruct (FindConfigurationSettingsByTwoPartKey_calls conn
              (d_Get_string d "application") (d_Id d) w log)
    as ([settings err] & w' & Hrun).
  rewrite bind_run, Hrun.
  destruct (_ && _); [by do 2 eexists|].
  destruct err, settings; by do 2 eexists.
Qed.

(** C7, as the claim states it, fails: when the description and the setting
    both changed and the description update fails, the handler returns
    after that request, so the setting changed and yet no option-settings
    update was issued. *)
Lemma resourceConfigurationTemplateUpdate_settings_skipped :
  let e := awserr "InvalidParameterValue" "Description is too long" in
  let conn := eb_answering None (Some e) None (None, None) in
  let d := template_data "first" "second" [min_size "1"] [min_size "2"] in
  let calls := (resourceConfigurationTemplateUpdate conn is_NotFoundError d ((), [])).2.2 in
  calls = [description_call d] ∧
  d_HasChange d "setting" = true ∧
  ¬ update_calls_by_change d calls.
Proof.
  intros e conn d calls.
  assert (calls = [description_call d]) as Hcalls by reflexivity.
  assert (d_HasChange d "setting" = true) as Hch by (vm_compute; reflexivity).
  split; [done|]. split; [done|].
  intros (_ & _ & Hiff). apply Hiff in Hch. rewrite Hcalls in Hch.
  apply list_elem_of_singleton in Hch. discriminate Hch.
Qed.

Lemma description_call_neq d req :
  update_Description req = None → UpdateConfigurationTemplateCall req ≠ description_call d.
Proof. intros Hreq [= ->]. done. Qed.

Ltac here := apply list_elem_of_here.
Ltac further := apply list_elem_of_further.
Ltac nowhere H :=
  repeat (apply elem_of_cons in H as [H|H]; [try discriminate H|]);
  try (by apply elem_of_nil in H).

Lemma settings_call_update d :
  ∃ req, settings_call d = UpdateConfigurationTemplateCall req ∧
         update_Description req = None.
Proof. unfold settings_call. destruct (d_GetChange d "setting"). by eexists. Qed.

(** The option-settings update once the validation has succeeded *)
Lemma resourceConfigurationTemplateOptionSettingsUpdate_validated {W}
    (conn : ElasticBeanstalk W) d w log w' :
  d_HasChange d "setting" = true →
  ValidateConfigurationSettingsWithContext conn (validateInput d) w = (None, w') →
  ∃ r w'',
    resourceConfigurationTemplateOptionSettingsUpdate conn d (w, log)
    = (r, (w'', log ++ [validate_call d; settings_call d])).
Proof.
  intros Hch Hval. unfold resourceConfigurationTemplateOptionSettingsUpdate.
  rewrite Hch, bind_run, sdk_call_run, Hval.
  cbn [fst snd as_error fmap option_fmap option_map].
  unfold settings_call. destruct (d_GetChange d "setting") as [o n].
  rewrite sdk_call_run. do 2 eexists. by rewrite <- app_assoc.
Qed.

Ltac member :=
  first [ here | further; here | further; further; here
        | further; further; further; here ].

Ltac holds := repeat split; first [done | by intros [_ ?] | by intros [? _]].
Ltac fails := let H := fresh in intros H; exfalso; intuition congruence.
Ltac others :=
  repeat (apply List.Forall_cons;
          [first [by left | by right; left | by right; right]|]);
  apply List.Forall_nil.

Lemma resourceConfigurationTemplateUpdate_trace {W} (conn : ElasticBeanstalk W)
    NotFound d w log :
  let description_failed :=
    match (UpdateConfigurationTemplateWithContext conn (descriptionUpdateInput d) w).1 with
    | Some _ => true
    | None => false
    end in
  let w0 :=
    if d_HasChange d "description"
    then (UpdateConfigurationTemplateWithContext conn (descriptionUpdateInput d) w).2
    else w in
  let validation_failed :=
    match (ValidateConfigurationSettingsWithContext conn (validateInput d) w0).1 with
    | Some _ => true
    | None => false
    end in
  ∃ calls,
    (resourceConfigurationTemplateUpdate conn NotFound d (w, log)).2.2 = log ++ calls ∧
    update_calls_by_change_and_success d description_failed validation_failed calls.
Proof.
  cbv zeta. unfold update_calls_by_change_and_success.
  destruct (settings_call_update d) as (req & Hsc & Hreq).
  assert (∀ l, UpdateConfigurationTemplateCall req ∈ l →
               Forall (λ c, c = description_call d ∨ c = validate_call d
                            ∨ c = read_back_call d) l → False) as Habsent.
  { intros l Hin Hall. apply (proj1 (Forall_forall _ _) Hall) in Hin.
    destruct Hin as [Hin|[Hin|Hin]]; [|discriminate Hin|discriminate Hin].
    by destruct (description_call_neq d req Hreq). }
  unfold resourceConfigurationTemplateUpdate. rewrite bind_run.
  destruct (d_HasChange d "description") eqn:Hdescr.
  - (* the description changed *)
    unfold resourceConfigurationTemplateDescriptionUpdate. rewrite sdk_call_run.
    destruct (UpdateConfigurationTemplateWithContext conn (descriptionUpdateInput d) w)
      as [err1 w1].
    destruct err1 as [e1|]; cbn [fst snd as_error fmap option_fmap option_map].
    + exists [description_call d]. split; [done|]. split; [done|].
      split; [split; [done|intros _; member]|].
      split; [split; [intros Hin; nowhere Hin|fails]|].
      rewrite Hsc. split; [|fails].
      intros Hin. destruct (Habsent _ Hin). others.
    + rewrite bind_run. destruct (d_HasChange d "setting") eqn:Hset.
      * destruct (ValidateConfigurationSettingsWithContext conn (validateInput d) w1)
          as [err2 w2] eqn:Hval.
        destruct err2 as [e2|]; cbn [fst].
        -- pose proof (resourceConfigurationTemplateOptionSettingsUpdate_validate
                         conn d w1 (log ++ [description_call d]) Hset _ w2 Hval) as Hrun.
           unfold description_call in Hrun. rewrite Hrun.
           exists [description_call d; validate_call d].
           split; [by rewrite <- app_assoc|]. split; [done|].
           split; [split; [done|intros _; member]|].
           split; [split; [intros _; holds|intros _; member]|].
           rewrite Hsc. split; [|fails].
           intros Hin. destruct (Habsent _ Hin). others.
        -- destruct (resourceConfigurationTemplateOptionSettingsUpdate_validated
                       conn d w1 (log ++ [description_call d]) w2 Hset Hval)
             as (r & w3 & Hrun).
           unfold description_call in Hrun. rewrite Hrun.
           destruct r as [e3|].
           ++ exists [description_call d; validate_call d; settings_call d].
              split; [by rewrite <- app_assoc|]. split; [done|].
              split; [split; [done|intros _; member]|].
              split; [split; [intros _; holds|intros _; member]|].
              split; [intros _; holds|intros _; member].
           ++ destruct (resourceConfigurationTemplateRead_calls conn NotFound d w3
                          ((log ++ [UpdateConfigurationTemplateCall
                                      (descriptionUpdateInput d)])
                           ++ [validate_call d; settings_call d]))
                as ([diags' d'] & w4 & Hread).
              rewrite bind_run, Hread.
              exists [description_call d; validate_call d; settings_call d;
                      read_back_call d].
              split; [by rewrite <- !app_assoc|]. split; [done|].
              split; [split; [done|intros _; member]|].
              split; [split; [intros _; holds|intros _; member]|].
              split; [intros _; holds|intros _; member].
      * destruct (resourceConfigurationTemplateRead_calls conn NotFound d w1
                    (log ++ [UpdateConfigurationTemplateCall (descriptionUpdateInput d)]))
          as ([diags' d'] & w4 & Hread).
        rewrite ret_run, bind_run, Hread.
        exists [description_call d; read_back_call d].
        split; [by rewrite <- !app_assoc|]. split; [done|].
        split; [split; [done|intros _; member]|].
        split; [split; [intros Hin; nowhere Hin|fails]|].
        rewrite Hsc. split; [|fails].
        intros Hin. destruct (Habsent _ Hin). others.
  - (* the description did not change *)
    rewrite ret_run, bind_run.
    destruct (d_HasChange d "setting") eqn:Hset.
    + destruct (ValidateConfigurationSettingsWithContext conn (validateInput d) w)
        as [err2 w2] eqn:Hval.
      destruct err2 as [e2|]; cbn [fst].
      * pose proof (resourceConfigurationTemplateOptionSettingsUpdate_validate
                      conn d w log Hset _ w2 Hval) as Hrun.
        rewrite Hrun. exists [validate_call d].
        split; [done|]. split; [done|].
        split; [split; [intros Hin; nowhere Hin|done]|].
        split; [split; [intros _; holds|intros _; member]|].
        rewrite Hsc. split; [|fails].
        intros Hin. destruct (Habsent _ Hin). others.
      * destruct (resourceConfigurationTemplateOptionSettingsUpdate_validated
                    conn d w log w2 Hset Hval) as (r & w3 & Hrun).
        rewrite Hrun. destruct r as [e3|].
        -- exists [validate_call d; settings_call d].
           split; [done|]. split; [done|].
           split.
           { split; [|done]. rewrite Hsc. intros Hin. nowhere Hin.
             by destruct (description_call_neq d req Hreq). }
           split; [split; [intros _; holds|intros _; member]|].
           split; [intros _; holds|intros _; member].
        -- destruct (resourceConfigurationTemplateRead_calls conn NotFound d w3
                       (log ++ [validate_call d; settings_call d]))
             as ([diags' d'] & w4 & Hread).
           rewrite bind_run, Hread.
           exists [validate_call d; settings_call d; read_back_call d].
           split; [by rewrite <- !app_assoc|]. split; [done|].
           split.
           { split; [|done]. rewrite Hsc. intros Hin. nowhere Hin.
             by destruct (description_call_neq d req Hreq). }
           split; [split; [intros _; holds|intros _; member]|].
           split; [intros _; holds|intros _; member].
    + destruct (resourceConfigurationTemplateRead_calls conn NotFound d w log)
        as ([diags' d'] & w4 & Hread).
      rewrite ret_run, bind_run, Hread.
      exists [read_back_call d].
      split; [done|]. split; [done|].
      split; [split; [intros Hin; nowhere Hin|done]|].
      split; [split; [intros Hin; nowhere Hin|fails]|].
      rewrite Hsc. split; [|fails].
      intros Hin. destruct (Habsent _ Hin). others.
Qed.

(** C7, amended.  An update in which neither the description nor the
    setting changed issues the request of the read-back and nothing else,
    and is the read-back.  The description update is issued if and only if
    the description changed.  The option-settings update is issued if and
    only if the setting changed and the description update, when there was
    one, did not fail: its first request, the validation, is issued exactly
    then, and its request that changes the settings exactly when, moreover,
    the validation did not fail. *)
Theorem resourceConfigurationTemplateUpdate_calls {W} (conn : ElasticBeanstalk W)
    NotFound d w log :
  let description_failed :=
    match (UpdateConfigurationTemplateWithContext conn (descriptionUpdateInput d) w).1 with
    | Some _ => true
    | None => false
    end in
  let w0 :=
    if d_HasChange d "description"
    then (UpdateConfigurationTemplateWithContext conn (descriptionUpdateInput d) w).2
    else w in
  let validation_failed :=
    match (ValidateConfigurationSettingsWithContext conn (validateInput d) w0).1 with
    | Some _ => true
    | None => false
    end in
  ∃ calls,
    (resourceConfigurationTemplateUpdate conn NotFound d (w, log)).2.2 = log ++ calls ∧
    update_calls_by_change_and_success d description_failed validation_failed calls ∧
    (d_HasChange d "description" = false → d_HasChange d "setting" = false →
       resourceConfigurationTemplateUpdate conn NotFound d (w, log)
       = resourceConfigurationTemplateRead conn NotFound d (w, log)).
Proof.
  intros description_failed w0 validation_failed.
  destruct (resourceConfigurationTemplateUpdate_trace conn NotFound d w log)
    as (calls & Htrace & Hcalls).
  exists calls. split; [done|]. split; [done|].
  intros Hdescr Hset. unfold resourceConfigurationTemplateUpdate.
  rewrite Hdescr, Hset. unfold mbind, M_bind, mret, M_ret.
  by destruct (resourceConfigurationTemplateRead conn NotFound d (w, log)) as [[??] ?].
Qed.

(** The request by which the option-settings update changes the template,
    for an old set [os] and a new set [ns] *)
Lemma resourceConfigurationTemplateOptionSettingsUpdate_request {W}
    (conn : ElasticBeanstalk W) d w log os ns w' :
  d_HasChange d "setting" = true →
  d_state d !! "setting" = Some (VSet os) →
  d_values d !! "setting" = Some (VSet ns) →
  ValidateConfigurationSettingsWithContext conn (validateInput d) w = (None, w') →
  ∃ r w'',
    resourceConfigurationTemplateOptionSettingsUpdate conn d (w, log)
    = (r, (w'', log ++ [validate_call d;
                        UpdateConfigurationTemplateCall
                          {| update_ApplicationName := Some (d_Get_string d "application");
                             update_TemplateName := Some (d_Get_string d "name");
                             update_Description := None;
                             update_OptionSettings := settings_add os ns;
                             update_OptionsToRemove :=
                               optionsToRemove
                                 (remove_loop (settings_rm os ns) (settings_add os ns)) |}])).
Proof.
  intros Hch Hos Hns Hval. unfold resourceConfigurationTemplateOptionSettingsUpdate.
  rewrite Hch, bind_run, sdk_call_run, Hval.
  cbn [fst snd as_error fmap option_fmap option_map].
  unfold d_GetChange. rewrite Hos, Hns, sdk_call_run.
  do 2 eexists. by rewrite <- app_assoc.
Qed.

Lemma remove_loop_nil rm : remove_loop rm [] = [].
Proof.
  unfold remove_loop. induction rm as [|r rm IH]; [done|]. simpl. apply IH.
Qed.

(** C1.  The settings the update sends to add are those of the new set
    that are not in the old one.  The options it sends to remove are not
    the settings of the old set missing from the new one whose namespace
    and option name occur in no addition, each once.  With no addition
    nothing is removed: taking the only setting out of a template removes
    no option.  With additions, a removed setting is sent once for every
    addition with another key: when [MinSize] changes, [MaxSize] is dropped
    and [Cooldown] is new, [MinSize] is sent for removal although it is
    also added, and [MaxSize] is sent twice. *)
Theorem optionsToRemove_not_the_difference :
  let os1 := [min_size "1"] in
  let ns1 : Set_ := [] in
  let os2 := [min_size "1"; max_size "4"] in
  let ns2 := [min_size "2"; cooldown "300"] in
  let conn := eb_answering None None None (None, None) in
  let d1 := template_data "first" "first" os1 ns1 in
  (∀ os ns, settings_add os ns = extractOptionSettings (Set_Difference ns os)) ∧
  (∀ rm, remove_loop rm [] = []) ∧
  remove_not_in_add (settings_rm os1 ns1) (settings_add os1 ns1)
    = extractOptionSettings [min_size "1"] ∧
  remove_loop (settings_rm os1 ns1) (settings_add os1 ns1) = [] ∧
  resourceConfigurationTemplateOptionSettingsUpdate conn d1 ((), [])
    = (None, ((), [validate_call d1;
                   UpdateConfigurationTemplateCall
                     {| update_ApplicationName := Some "app";
                        update_TemplateName := Some "tmpl";
                        update_Description := None;
                        update_OptionSettings := [];
                        update_OptionsToRemove := [] |}])) ∧
  settings_add os2 ns2 = extractOptionSettings [min_size "2"; cooldown "300"] ∧
  remove_not_in_add (settings_rm os2 ns2) (settings_add os2 ns2)
    = extractOptionSettings [max_size "4"] ∧
  remove_loop (settings_rm os2 ns2) (settings_add os2 ns2)
    = extractOptionSettings [min_size "1"; max_size "4"; max_size "4"].
Proof.
  intros os1 ns1 os2 ns2 conn d1.
  split; [done|]. split; [apply remove_loop_nil|].
  repeat split; vm_compute; reflexivity.
Qed.

(** * Further properties of the cluster-snapshot data source *)

(** ** The sort interface of [rdsClusterSnapshotSort] *)

Lemma index_ext {A} (a b : list A) : (∀ k, index a k = index b k) → a = b.
Proof.
  intros H. apply list_eq. intros n. specialize (H (Z.of_nat n)).
  unfold index in H. destruct (0 <=? Z.of_nat n) eqn:E; [|zb; lia].
  by rewrite Nat2Z.id in H.
Qed.

Lemma swp_swp {A} (a : list A) i j :
  0 ≤ i < Zlen a → 0 ≤ j < Zlen a → swp (swp a i j) i j = a.
Proof.
  intros Hi Hj. apply index_ext. intros k.
  assert (Zlen (swp a i j) = Zlen a) as Hl by apply Zlen_swp.
  destruct (decide (k = i)) as [->|Hki].
  { rewrite index_swp_l by lia. by rewrite index_swp_r. }
  destruct (decide (k = j)) as [->|Hkj].
  { rewrite index_swp_r by lia. by rewrite index_swp_l. }
  by rewrite !index_swp_ne.
Qed.

(** [Swap] needs both indices in range, and panics otherwise.  In range it
    exchanges the two elements and keeps the length and every other
    element; swapping the same positions again restores the slice. *)
Theorem rdsClusterSnapshotSort_Swap_exchanges (a : rdsClusterSnapshotSort) i j :
  (0 ≤ i < Zlen a ∧ 0 ≤ j < Zlen a →
     ∃ a' : rdsClusterSnapshotSort,
       Swap a i j = Done a' ∧ Len a' = Len a ∧
       index a' i = index a j ∧ index a' j = index a i ∧
       (∀ k, k ≠ i → k ≠ j → index a' k = index a k) ∧
       Swap a' i j = Done a) ∧
  (¬ (0 ≤ i < Zlen a ∧ 0 ≤ j < Zlen a) → Swap a i j = Panic).
Proof.
  split.
  - intros [Hi Hj]. exists (swp a i j). simpl.
    unfold rdsClusterSnapshotSort_Swap, rdsClusterSnapshotSort_Len.
    rewrite swap_slice_inb by done.
    split; [done|]. split; [apply Zlen_swp|].
    split; [by apply index_swp_l|]. split; [by apply index_swp_r|].
    split; [intros; by apply index_swp_ne|].
    rewrite swap_slice_inb by (by rewrite Zlen_swp). by rewrite swp_swp.
  - intros Hout. simpl. unfold rdsClusterSnapshotSort_Swap, swap_slice.
    destruct (index a i) eqn:Ei; [|done].
    destruct (index a j) eqn:Ej; [|done].
    apply index_Some_inb in Ei, Ej. tauto.
Qed.

Lemma rdsClusterSnapshotSort_Swap_exchanges_witness :
  let a : rdsClusterSnapshotSort := [snapshot_at "a" 5; snapshot_at "b" 9] in
  ∃ a' : rdsClusterSnapshotSort,
    Swap a 0 1 = Done a' ∧ Len a' = Len a ∧
    index a' 0 = index a 1 ∧ index a' 1 = index a 0 ∧
    (∀ k, k ≠ 0 → k ≠ 1 → index a' k = index a k) ∧
    Swap a' 0 1 = Done a.
Proof.
  intros a. apply (proj1 (rdsClusterSnapshotSort_Swap_exchanges a 0 1)).
  vm_compute. repeat split; discriminate.
Defined.

(** What [Less] computes, by the elements it reads *)
Lemma rdsClusterSnapshotSort_Less_unfold (a : rdsClusterSnapshotSort) i j :
  Less a i j =
  match index a i with
  | None => Panic
  | Some x =>
      match SnapshotCreateTime x with
      | None => Done true
      | Some ti =>
          match index a j with
          | None => Panic
          | Some y =>
              match SnapshotCreateTime y with
              | None => Done false
              | Some tj => Done (ti <? tj)
              end
          end
      end
  end.
Proof.
  simpl. unfold rdsClusterSnapshotSort_Less, Before.
  destruct (index a i) as [x|]; [|done]. simpl.
  destruct (SnapshotCreateTime x); [|done].
  destruct (index a j) as [y|]; [|done]. simpl.
  by destruct (SnapshotCreateTime y).
Qed.

Lemma index_fmap {A B} (f : A → B) (a : list A) i : index (f <$> a) i = f <$> index a i.
Proof. unfold index. destruct (0 <=? i); [apply list_lookup_fmap|done]. Qed.

(** On a slice that may hold nil pointers, [Less] panics exactly when [i]
    is out of range or [a[i]] is nil, or [a[i]] has a creation time and [j]
    is out of range or [a[j]] is nil: when the creation time of [a[i]] is
    nil it answers [true] without reading [a[j]], whatever [j].  On a slice
    without nil entries it is the comparator of the sort interface. *)
Theorem rdsClusterSnapshotSort_Less_bounds (a : list (option DBClusterSnapshot)) i j :
  (rdsClusterSnapshotSort_Less_nilable a i j = Panic ↔
     ¬ (0 ≤ i < Zlen a) ∨ index a i = Some None ∨
     ∃ x t, index a i = Some (Some x) ∧ SnapshotCreateTime x = Some t ∧
            (¬ (0 ≤ j < Zlen a) ∨ index a j = Some None)) ∧
  (∀ x, index a i = Some (Some x) → SnapshotCreateTime x = None →
        rdsClusterSnapshotSort_Less_nilable a i j = Done true) ∧
  rdsClusterSnapshotSort_Less_nilable a i j ≠ Timeout ∧
  (∀ b : rdsClusterSnapshotSort,
     a = Some <$> b → rdsClusterSnapshotSort_Less_nilable a i j = Less b i j).
Proof.
  split; [|split; [|split]].
  - unfold rdsClusterSnapshotSort_Less_nilable.
    destruct (index a i) as [[x|]|] eqn:Ei; simpl.
    + pose proof (index_Some_inb _ _ _ Ei) as Hi.
      destruct (SnapshotCreateTime x) as [ti|] eqn:Ex.
      * destruct (index a j) as [[y|]|] eqn:Ej; simpl.
        -- pose proof (index_Some_inb _ _ _ Ej) as Hj.
           split; [by destruct (SnapshotCreateTime y)|].
           intros [?|[?|(? & ? & _ & _ & [?|?])]]; [lia|done|lia|done].
        -- split; [|done]. intros _. right. right. exists x, ti. auto.
        -- split; [|done]. intros _. right. right. exists x, ti.
           split; [done|]. split; [done|]. left.
           intros Hj. destruct (index_inb a j Hj). congruence.
      * split; [done|].
        intros [?|[?|(? & ? & [= <-] & ? & _)]]; [lia|done|congruence].
    + split; [|done]. intros _. right. by left.
    + split; [|done]. intros _. left. intros Hi. destruct (index_inb a i Hi). congruence.
  - intros x Hx Ht. unfold rdsClusterSnapshotSort_Less_nilable.
    rewrite Hx. simpl. by rewrite Ht.
  - unfold rdsClusterSnapshotSort_Less_nilable.
    destruct (index a i) as [[x|]|]; simpl; try done.
    destruct (SnapshotCreateTime x); [|done].
    destruct (index a j) as [[y|]|]; simpl; try done.
    by destruct (SnapshotCreateTime y).
  - intros b ->. rewrite rdsClusterSnapshotSort_Less_unfold.
    unfold rdsClusterSnapshotSort_Less_nilable. rewrite !index_fmap.
    destruct (index b i) as [x|]; simpl; [|done].
    destruct (SnapshotCreateTime x); [|done].
    by destruct (index b j) as [y|].
Qed.

Lemma rdsClusterSnapshotSort_Less_bounds_witness :
  let a := [Some (snapshot_in_progress "a"); None; Some (snapshot_at "b" 9)] in
  rdsClusterSnapshotSort_Less_nilable a 0 7 = Done true ∧
  rdsClusterSnapshotSort_Less_nilable a 1 0 = Panic ∧
  rdsClusterSnapshotSort_Less_nilable a 2 1 = Panic ∧
  rdsClusterSnapshotSort_Less_nilable a 2 7 = Panic.
Proof.
  intros a. split; [|split; [|split]].
  - apply (proj1 (proj2 (rdsClusterSnapshotSort_Less_bounds a 0 7))
             (snapshot_in_progress "a")); reflexivity.
  - apply (proj1 (rdsClusterSnapshotSort_Less_bounds a 1 0)).
    right. left. reflexivity.
  - apply (proj1 (rdsClusterSnapshotSort_Less_bounds a 2 1)).
    right. right. exists (snapshot_at "b" 9), 9. split; [reflexivity|].
    split; [reflexivity|]. right. reflexivity.
  - apply (proj1 (rdsClusterSnapshotSort_Less_bounds a 2 7)).
    right. right. exists (snapshot_at "b" 9), 9. split; [reflexivity|].
    split; [reflexivity|]. left. vm_compute. intros [_ H]. discriminate H.
Defined.

(** On a slice in which every snapshot has a creation time, [Less] is a
    strict weak ordering of the positions: irreflexive, asymmetric and
    transitive, with a transitive incomparability. *)
Theorem rdsClusterSnapshotSort_Less_strict_weak_order (a : rdsClusterSnapshotSort) :
  (∀ x, x ∈ a → SnapshotCreateTime x ≠ None) → strict_weak_order_on a.
Proof.
  intros Hall.
  assert (∀ i j b, Less a i j = Done b →
            ∃ x y ti tj, index a i = Some x ∧ index a j = Some y ∧
              SnapshotCreateTime x = Some ti ∧ SnapshotCreateTime y = Some tj ∧
              b = (ti <? tj)) as Hinv.
  { intros i j b. rewrite rdsClusterSnapshotSort_Less_unfold.
    destruct (index a i) as [x|] eqn:Ei; [|done].
    pose proof (Hall x (index_elem_of _ _ _ Ei)) as Hx.
    destruct (SnapshotCreateTime x) as [ti|] eqn:Ex; [|done].
    destruct (index a j) as [y|] eqn:Ej; [|done].
    pose proof (Hall y (index_elem_of _ _ _ Ej)) as Hy.
    destruct (SnapshotCreateTime y) as [tj|] eqn:Ey; [|done].
    intros [= <-]. by exists x, y, ti, tj. }
  assert (∀ i j x y ti tj, index a i = Some x → index a j = Some y →
            SnapshotCreateTime x = Some ti → SnapshotCreateTime y = Some tj →
            Less a i j = Done (ti <? tj)) as Hrun.
  { intros i j x y ti tj Ei Ej Ex Ey.
    by rewrite rdsClusterSnapshotSort_Less_unfold, Ei, Ex, Ej, Ey. }
  split; [|split; [|split]].
  - intros i Hi. destruct (Hinv _ _ _ Hi) as (x & y & ti & tj & Ex & Ey & Hx & Hy & Hb).
    assert (ti = tj) by congruence. subst. symmetry in Hb. zb. lia.
  - intros i j Hij Hji.
    destruct (Hinv _ _ _ Hij) as (x & y & ti & tj & Ex & Ey & Hx & Hy & Hb).
    destruct (Hinv _ _ _ Hji) as (y' & x' & tj' & ti' & Ey' & Ex' & Hy' & Hx' & Hb').
    assert (ti = ti') by congruence. assert (tj = tj') by congruence. subst.
    symmetry in Hb, Hb'. zb. lia.
  - intros i j k Hij Hjk.
    destruct (Hinv _ _ _ Hij) as (x & y & ti & tj & Ex & Ey & Hx & Hy & Hb).
    destruct (Hinv _ _ _ Hjk) as (y' & z & tj' & tk & Ey' & Ez & Hy' & Hz & Hb').
    assert (tj = tj') by congruence. subst.
    rewrite (Hrun i k x z ti tk) by done. f_equal.
    symmetry in Hb, Hb'. zb. apply Z.ltb_lt. lia.
  - intros i j k [Hij Hji] [Hjk Hkj].
    destruct (Hinv _ _ _ Hij) as (x & y & ti & tj & Ex & Ey & Hx & Hy & Hb).
    destruct (Hinv _ _ _ Hji) as (y1 & x1 & tj1 & ti1 & Ey1 & Ex1 & Hy1 & Hx1 & Hb1).
    destruct (Hinv _ _ _ Hjk) as (y2 & z & tj2 & tk & Ey2 & Ez & Hy2 & Hz & Hb2).
    destruct (Hinv _ _ _ Hkj) as (z3 & y3 & tk3 & tj3 & Ez3 & Ey3 & Hz3 & Hy3 & Hb3).
    assert (ti = ti1) by congruence. assert (tj = tj1) by congruence.
    assert (tj = tj2) by congruence. assert (tj = tj3) by congruence.
    assert (tk = tk3) by congruence. subst.
    symmetry in Hb, Hb1, Hb2, Hb3. zb.
    split.
    + rewrite (Hrun i k x z ti1 tk3) by done. f_equal. apply Z.ltb_ge. lia.
    + rewrite (Hrun k i z x tk3 ti1) by done. f_equal. apply Z.ltb_ge. lia.
Qed.

Lemma rdsClusterSnapshotSort_Less_strict_weak_order_witness :
  strict_weak_order_on
    ([snapshot_at "a" 5; snapshot_at "b" 9; snapshot_at "c" 5] : rdsClusterSnapshotSort).
Proof.
  apply rdsClusterSnapshotSort_Less_strict_weak_order.
  intros x Hx. repeat (apply elem_of_cons in Hx as [->|Hx]; [discriminate|]).
  by apply elem_of_nil in Hx.
Defined.

(** ** [mostRecentClusterSnapshot] and the caller's slice *)

(** [mostRecentClusterSnapshot] sorts the slice it is given: the slice it
    leaves to its caller holds the same snapshots in ascending order of
    creation time, those without a creation time first. *)
Theorem mostRecentClusterSnapshot_sorts snapshots :
  snapshots ≠ [] →
  ∃ s sortedSnapshots,
    mostRecentClusterSnapshot snapshots = Done (s, sortedSnapshots) ∧
    sortedSnapshots ≡ₚ snapshots ∧
    ∀ k1 k2 x y, k1 ≤ k2 →
      index sortedSnapshots k1 = Some x → index sortedSnapshots k2 = Some y →
      at_least_as_recent y x.
Proof.
  intros Hne.
  destruct (mostRecentClusterSnapshot_ordered snapshots Hne)
    as (s & l & Hm & Hp & _ & Hord).
  by exists s, l.
Qed.

Lemma mostRecentClusterSnapshot_sorts_witness :
  let snapshots :=
    [snapshot_at "a" 5; snapshot_in_progress "b"; snapshot_at "c" 9; snapshot_at "d" 3] in
  ∃ s sortedSnapshots,
    mostRecentClusterSnapshot snapshots = Done (s, sortedSnapshots) ∧
    sortedSnapshots ≡ₚ snapshots ∧
    ∀ k1 k2 x y, k1 ≤ k2 →
      index sortedSnapshots k1 = Some x → index sortedSnapshots k2 = Some y →
      at_least_as_recent y x.
Proof.
  intros snapshots. apply (mostRecentClusterSnapshot_sorts snapshots). done.
Defined.

(** ** The read of the data source *)

Lemma d_values_Set_eq d k v : d_values (d_Set d k v) !! k = Some v.
Proof. simpl. apply lookup_insert_eq. Qed.

Lemma d_values_Set_ne d k k' v :
  k ≠ k' → d_values (d_Set d k v) !! k' = d_values d !! k'.
Proof. intros Hk. simpl. by apply lookup_insert_ne. Qed.

Lemma d_values_SetId d id : d_values (d_SetId d id) = d_values d.
Proof. done. Qed.

(** Without a cluster identifier and without a snapshot identifier (unset,
    or set to the empty string) the read returns one error diagnostic,
    issues no request and leaves the resource data as they were. *)
Theorem dataSourceClusterSnapshotRead_needs_identifier {W} (conn : RDS W) IgnoreTags
    Format_RFC3339 d st :
  d_Get_string d "db_cluster_identifier" = EmptyString →
  d_Get_string d "db_cluster_snapshot_identifier" = EmptyString →
  ∃ diag,
    dataSourceClusterSnapshotRead conn IgnoreTags Format_RFC3339 d st
    = (Done ([diag], d), st) ∧ severity diag = Error.
Proof.
  intros Hc Hs. unfold dataSourceClusterSnapshotRead, d_GetOk_string.
  rewrite Hc, Hs. simpl. by eexists.
Qed.

Lemma dataSourceClusterSnapshotRead_needs_identifier_witness :
  let d := {| d_id := EmptyString; d_isNew := true; d_state := ∅;
              d_values := {[ "most_recent" := VBool true;
                             "db_cluster_identifier" := VString EmptyString ]} |} in
  ∃ diag,
    dataSourceClusterSnapshotRead (rds_answering [snapshot_at "a" 5]) id (λ _, "time")
      d ((), [])
    = (Done ([diag], d), ((), [])) ∧ severity diag = Error.
Proof.
  intros d.
  apply (dataSourceClusterSnapshotRead_needs_identifier
           (rds_answering [snapshot_at "a" 5]) id (λ _, "time") d ((), []));
    reflexivity.
Defined.

(** When the describe request fails, the read returns one error diagnostic
    that carries the text of the error, leaves the resource data as they
    were and issues no further request, whatever the response holds. *)
Theorem dataSourceClusterSnapshotRead_describe_error {W} (conn : RDS W) IgnoreTags
    Format_RFC3339 d w log resp e w' :
  (d_GetOk_string d "db_cluster_identifier").2 = true ∨
  (d_GetOk_string d "db_cluster_snapshot_identifier").2 = true →
  DescribeDBClusterSnapshotsWithContext conn (describeParams d) w = ((resp, Some e), w') →
  dataSourceClusterSnapshotRead conn IgnoreTags Format_RFC3339 d (w, log)
  = (Done ([{| severity := Error;
               Summary := "reading RDS Cluster Snapshot (" +:+ d_Id d +:+ "): "
                          +:+ api_error_text e |}], d),
     (w', log ++ [DescribeDBClusterSnapshotsCall (describeParams d)])).
Proof.
  intros Hok Hdesc. unfold dataSourceClusterSnapshotRead.
  cbv zeta. destruct (d_GetOk_string d "db_cluster_identifier") as [c cok] eqn:Ec.
  destruct (d_GetOk_string d "db_cluster_snapshot_identifier") as [sn sok] eqn:Es.
  replace (negb cok && negb sok) with false.
  2:{ symmetry. destruct Hok as [H|H]; simpl in H; subst; by rewrite ?andb_false_r. }
  run. by rewrite Hdesc.
Qed.

Lemma dataSourceClusterSnapshotRead_describe_error_witness :
  let e := awserr "DBClusterNotFoundFault" "DBCluster cluster not found" in
  let conn := rds_service ({| DBClusterSnapshots := [snapshot_at "a" 5] |}, Some e)
                (∅, None) in
  let d := snapshot_query false in
  dataSourceClusterSnapshotRead conn id (λ _, "time") d ((), [])
  = (Done ([{| severity := Error;
               Summary := "reading RDS Cluster Snapshot (" +:+ d_Id d +:+ "): "
                          +:+ api_error_text e |}], d),
     ((), [] ++ [DescribeDBClusterSnapshotsCall (describeParams d)])).
Proof.
  intros e conn d.
  apply (dataSourceClusterSnapshotRead_describe_error conn id (λ _, "time") d () []
           {| DBClusterSnapshots := [snapshot_at "a" 5] |} e ()).
  - left. reflexivity.
  - reflexivity.
Defined.

(** The read once [selectSnapshot] has chosen [x], by the answer to the tag
    listing *)
Lemma dataSourceClusterSnapshotRead_selected_run {W} (conn : RDS W) IgnoreTags
    Format_RFC3339 d w log resp w' x tags err w'' :
  (d_GetOk_string d "db_cluster_identifier").2 = true ∨
  (d_GetOk_string d "db_cluster_snapshot_identifier").2 = true →
  DescribeDBClusterSnapshotsWithContext conn (describeParams d) w = ((resp, None), w') →
  selectSnapshot d [] (DBClusterSnapshots resp) = Done (inr x) →
  ListTags conn (StringValue (DBClusterSnapshotArn x)) w' = ((tags, err), w'') →
  let d1 := setSnapshotAttributes Format_RFC3339 d x in
  dataSourceClusterSnapshotRead conn IgnoreTags Format_RFC3339 d (w, log)
  = (Done match err with
          | Some e =>
              ([{| severity := Error;
                   Summary := "listing tags for RDS DB Cluster Snapshot ("
                              +:+ StringValue (DBClusterSnapshotArn x) +:+ "): "
                              +:+ Error_text e |}], d1)
          | None => ([], d_Set d1 "tags" (VMap (IgnoreTags tags)))
          end,
     (w'', log ++ [DescribeDBClusterSnapshotsCall (describeParams d);
                   ListTagsCall (StringValue (DBClusterSnapshotArn x))])).
Proof.
  intros Hok Hdesc Hsel Htags d1. unfold dataSourceClusterSnapshotRead. simpl.
  replace (negb _ && negb _) with false
    by (simpl in Hok; destruct Hok as [-> | ->]; by rewrite ?andb_false_r).
  run. rewrite Hdesc. simpl. rewrite Hsel.
  rewrite setSnapshotAttributes_arn, Htags, <- app_assoc. simpl.
  by destruct err.
Qed.

Lemma setSnapshotAttributes_values Format_RFC3339 d x k v :
  (k, v) ∈ snapshot_attributes x →
  d_values (setSnapshotAttributes Format_RFC3339 d x) !! k = Some v.
Proof.
  intros Hin. unfold snapshot_attributes in Hin.
  unfold setSnapshotAttributes. cbv zeta.
  repeat (apply elem_of_cons in Hin as [[= -> ->]|Hin];
          [destruct (SnapshotCreateTime x);
           rewrite ?d_values_Set_ne by discriminate; apply d_values_Set_eq|]).
  by apply elem_of_nil in Hin.
Qed.

Lemma setSnapshotAttributes_create_time Format_RFC3339 d x :
  d_values (setSnapshotAttributes Format_RFC3339 d x) !! "snapshot_create_time"
  = match SnapshotCreateTime x with
    | Some t => Some (VString (Format_RFC3339 t))
    | None => d_values d !! "snapshot_create_time"
    end.
Proof.
  unfold setSnapshotAttributes. cbv zeta.
  destruct (SnapshotCreateTime x).
  - rewrite ?d_values_Set_ne by discriminate. apply d_values_Set_eq.
  - by rewrite ?d_values_Set_ne, d_values_SetId by discriminate.
Qed.

(** Once the read has selected the snapshot [x], the resource data it
    returns hold the identifier of [x] as id and every field of [x] under
    its attribute, a nil field as the zero value, whether the tag listing
    succeeds or not.  The creation time is written when [x] has one;
    otherwise the attribute keeps the value it had. *)
Theorem dataSourceClusterSnapshotRead_attributes {W} (conn : RDS W) IgnoreTags
    Format_RFC3339 d w log resp w' x :
  (d_GetOk_string d "db_cluster_identifier").2 = true ∨
  (d_GetOk_string d "db_cluster_snapshot_identifier").2 = true →
  DescribeDBClusterSnapshotsWithContext conn (describeParams d) w = ((resp, None), w') →
  selectSnapshot d [] (DBClusterSnapshots resp) = Done (inr x) →
  ∃ diags d' st',
    dataSourceClusterSnapshotRead conn IgnoreTags Format_RFC3339 d (w, log)
    = (Done (diags, d'), st') ∧
    d_Id d' = StringValue (DBClusterSnapshotIdentifier x) ∧
    (∀ k v, (k, v) ∈ snapshot_attributes x → d_values d' !! k = Some v) ∧
    d_values d' !! "snapshot_create_time"
    = match SnapshotCreateTime x with
      | Some t => Some (VString (Format_RFC3339 t))
      | None => d_values d !! "snapshot_create_time"
      end.
Proof.
  intros Hok Hdesc Hsel.
  destruct (ListTags conn (StringValue (DBClusterSnapshotArn x)) w')
    as [[tags err] w''] eqn:Htags.
  rewrite (dataSourceClusterSnapshotRead_selected_run conn IgnoreTags Format_RFC3339
             d w log resp w' x tags err w'' Hok Hdesc Hsel Htags).
  destruct err as [e|]; do 3 eexists; (split; [done|]).
  - split; [apply setSnapshotAttributes_id|].
    split; [intros k v; apply setSnapshotAttributes_values|].
    apply setSnapshotAttributes_create_time.
  - split; [apply setSnapshotAttributes_id|]. split.
    + intros k v Hin. rewrite d_values_Set_ne.
      * by apply setSnapshotAttributes_values.
      * intros <-. unfold snapshot_attributes in Hin.
        repeat (apply elem_of_cons in Hin as [[=]|Hin]). by apply elem_of_nil in Hin.
    + rewrite d_values_Set_ne by discriminate.
      apply setSnapshotAttributes_create_time.
Qed.

Lemma dataSourceClusterSnapshotRead_attributes_witness :
  let x := snapshot_in_progress "snap" in
  let conn := rds_answering [x] in
  let d := snapshot_query false in
  ∃ diags d' st',
    dataSourceClusterSnapshotRead conn id (λ _, "time") d ((), [])
    = (Done (diags, d'), st') ∧
    d_Id d' = StringValue (DBClusterSnapshotIdentifier x) ∧
    (∀ k v, (k, v) ∈ snapshot_attributes x → d_values d' !! k = Some v) ∧
    d_values d' !! "snapshot_create_time"
    = match SnapshotCreateTime x with
      | Some t => Some (VString "time")
      | None => d_values d !! "snapshot_create_time"
      end.
Proof.
  intros x conn d.
  apply (dataSourceClusterSnapshotRead_attributes conn id (λ _, "time") d () []
           {| DBClusterSnapshots := [x] |} () x).
  - left. reflexivity.
  - reflexivity.
  - reflexivity.
Defined.

(** Once the read has selected [x], it lists the tags of the arn of [x].
    When the listing succeeds the read returns no diagnostics and the tags
    attribute is the listed tags without the ignored ones; when it fails the
    read returns one error diagnostic, the tags attribute is as it was, and
    the id and the other attributes of [x] have been written all the same. *)
Theorem dataSourceClusterSnapshotRead_tags {W} (conn : RDS W) IgnoreTags
    Format_RFC3339 d w log resp w' x tags err w'' :
  (d_GetOk_string d "db_cluster_identifier").2 = true ∨
  (d_GetOk_string d "db_cluster_snapshot_identifier").2 = true →
  DescribeDBClusterSnapshotsWithContext conn (describeParams d) w = ((resp, None), w') →
  selectSnapshot d [] (DBClusterSnapshots resp) = Done (inr x) →
  ListTags conn (StringValue (DBClusterSnapshotArn x)) w' = ((tags, err), w'') →
  ∃ diags d',
    dataSourceClusterSnapshotRead conn IgnoreTags Format_RFC3339 d (w, log)
    = (Done (diags, d'),
       (w'', log ++ [DescribeDBClusterSnapshotsCall (describeParams d);
                     ListTagsCall (StringValue (DBClusterSnapshotArn x))])) ∧
    d_Id d' = StringValue (DBClusterSnapshotIdentifier x) ∧
    match err with
    | None => diags = [] ∧ d_values d' !! "tags" = Some (VMap (IgnoreTags tags))
    | Some e =>
        HasError diags = true ∧ length diags = 1%nat ∧
        d_values d' !! "tags" = d_values d !! "tags"
    end.
Proof.
  intros Hok Hdesc Hsel Htags.
  rewrite (dataSourceClusterSnapshotRead_selected_run conn IgnoreTags Format_RFC3339
             d w log resp w' x tags err w'' Hok Hdesc Hsel Htags).
  destruct err as [e|]; do 2 eexists; (split; [done|]).
  - split; [apply setSnapshotAttributes_id|]. split; [done|]. split; [done|].
    unfold setSnapshotAttributes. cbv zeta.
    destruct (SnapshotCreateTime x);
      by rewrite ?d_values_Set_ne, d_values_SetId by discriminate.
  - split; [apply setSnapshotAttributes_id|]. split; [done|].
    apply d_values_Set_eq.
Qed.

Lemma dataSourceClusterSnapshotRead_tags_witness :
  let x := snapshot_at "snap" 5 in
  let e := ApiError (awserr "AccessDenied" "not authorized to list tags") in
  let conn := rds_service ({| DBClusterSnapshots := [x] |}, None) (∅, Some e) in
  let d := snapshot_query false in
  ∃ diags d',
    dataSourceClusterSnapshotRead conn id (λ _, "time") d ((), [])
    = (Done (diags, d'),
       ((), [] ++ [DescribeDBClusterSnapshotsCall (describeParams d);
                   ListTagsCall (StringValue (DBClusterSnapshotArn x))])) ∧
    d_Id d' = StringValue (DBClusterSnapshotIdentifier x) ∧
    HasError diags = true ∧ length diags = 1%nat ∧
    d_values d' !! "tags" = d_values d !! "tags".
Proof.
  intros x e conn d.
  apply (dataSourceClusterSnapshotRead_tags conn id (λ _, "time") d () []
           {| DBClusterSnapshots := [x] |} () x ∅ (Some e) ()).
  - left. reflexivity.
  - reflexivity.
  - reflexivity.
  - reflexivity.
Defined.

(** ** Writes stay within the schema *)

Lemma writes_within_refl schema d : writes_within schema d d.
Proof. done. Qed.

Lemma writes_within_Set schema d d' k v :
  declared schema k → writes_within schema d d' → writes_within schema d (d_Set d' k v).
Proof.
  intros Hk (Hn & Hs & Hv). repeat split; try done.
  intros k' Hk'. rewrite d_values_Set_ne; [by apply Hv|]. by intros ->.
Qed.

Lemma writes_within_SetId schema d d' id :
  writes_within schema d d' → writes_within schema d (d_SetId d' id).
Proof. by intros (Hn & Hs & Hv). Qed.

Ltac declared_key :=
  unfold declared; simpl;
  repeat first [apply list_elem_of_here | apply list_elem_of_further].

Ltac within_schema :=
  repeat first
    [ apply writes_within_refl
    | apply writes_within_SetId
    | apply writes_within_Set; [declared_key|] ].

Lemma setSnapshotAttributes_within TagsSchemaComputed Format_RFC3339 d x :
  writes_within (DataSourceClusterSnapshot_Schema TagsSchemaComputed) d
    (setSnapshotAttributes Format_RFC3339 d x).
Proof.
  unfold setSnapshotAttributes. cbv zeta.
  destruct (SnapshotCreateTime x); within_schema.
Qed.

(** Whenever the read returns, the resource data it returns differ from
    those it received only in the id and in attributes the schema of the
    data source declares: no write goes to an undeclared attribute, and the
    prior state is not touched. *)
Theorem dataSourceClusterSnapshotRead_within_schema {W} (conn : RDS W) IgnoreTags
    Format_RFC3339 TagsSchemaComputed d st diags d' st' :
  dataSourceClusterSnapshotRead conn IgnoreTags Format_RFC3339 d st
  = (Done (diags, d'), st') →
  writes_within (DataSourceClusterSnapshot_Schema TagsSchemaComputed) d d'.
Proof.
  unfold dataSourceClusterSnapshotRead. destruct st as [w log]. simpl.
  destruct (_ && _); [by intros [= _ <- _]|].
  run.
  destruct (DescribeDBClusterSnapshotsWithContext conn (describeParams d) w)
    as [[resp err] w'].
  destruct err as [e|]; simpl; [by intros [= _ <- _]|].
  destruct (selectSnapshot d [] (DBClusterSnapshots resp)) as [r| |]; try done.
  destruct r as [diags0|snapshot]; [by intros [= _ <- _]|].
  destruct (ListTags conn _ w') as [[tags err] w''].
  destruct err; intros [= _ <- _].
  - apply setSnapshotAttributes_within.
  - apply writes_within_Set; [declared_key|]. apply setSnapshotAttributes_within.
Qed.

Lemma dataSourceClusterSnapshotRead_within_schema_witness :
  let x := snapshot_at "snap" 5 in
  let d := snapshot_query false in
  ∃ diags d' st',
    dataSourceClusterSnapshotRead (rds_answering [x]) id (λ _, "time") d ((), [])
    = (Done (diags, d'), st') ∧
    d_Id d' = "snap" ∧ d_Id d = EmptyString ∧
    writes_within (DataSourceClusterSnapshot_Schema (computed_field TypeMap)) d d'.
Proof.
  intros x d. do 3 eexists. split; [vm_compute; reflexivity|].
  split; [reflexivity|]. split; [reflexivity|].
  eapply (dataSourceClusterSnapshotRead_within_schema (rds_answering [x]) id (λ _, "time")
            (computed_field TypeMap) d ((), [])).
  vm_compute. reflexivity.
Defined.

(** With [most_recent] set and more than one snapshot in the response, the
    id the read returns is the identifier of a snapshot of the response that
    is at least as recent as every snapshot of the response. *)
Theorem dataSourceClusterSnapshotRead_most_recent {W} (conn : RDS W) IgnoreTags
    Format_RFC3339 d w log resp w' :
  (d_GetOk_string d "db_cluster_identifier").2 = true ∨
  (d_GetOk_string d "db_cluster_snapshot_identifier").2 = true →
  DescribeDBClusterSnapshotsWithContext conn (describeParams d) w = ((resp, None), w') →
  1 < Zlen (DBClusterSnapshots resp) →
  d_Get_bool d "most_recent" = true →
  ∃ s diags d' st',
    dataSourceClusterSnapshotRead conn IgnoreTags Format_RFC3339 d (w, log)
    = (Done (diags, d'), st') ∧
    s ∈ DBClusterSnapshots resp ∧
    (∀ x, x ∈ DBClusterSnapshots resp → at_least_as_recent s x) ∧
    d_Id d' = StringValue (DBClusterSnapshotIdentifier s).
Proof.
  intros Hok Hdesc Hlen Hflag.
  destruct (mostRecentClusterSnapshot_ordered (DBClusterSnapshots resp))
    as (s & l & Hm & Hp & Hlast & Hord).
  { intros E. rewrite E in Hlen. unfold Zlen in Hlen. simpl in Hlen. lia. }
  assert (selectSnapshot d [] (DBClusterSnapshots resp) = Done (inr s)) as Hsel.
  { unfold selectSnapshot.
    destruct (Zlen (DBClusterSnapshots resp) <? 1) eqn:E0; zb; [lia|].
    destruct (1 <? Zlen (DBClusterSnapshots resp)) eqn:E1; zb; [|lia].
    by rewrite Hflag, Hm. }
  destruct (ListTags conn (StringValue (DBClusterSnapshotArn s)) w')
    as [[tags err] w''] eqn:Htags.
  rewrite (dataSourceClusterSnapshotRead_selected_run conn IgnoreTags Format_RFC3339
             d w log resp w' s tags err w'' Hok Hdesc Hsel Htags).
  assert (∀ x, x ∈ DBClusterSnapshots resp → at_least_as_recent s x) as Hmax.
  { intros x Hx. rewrite <- Hp in Hx. destruct (elem_of_index _ _ Hx) as [k Hk].
    pose proof (index_Some_inb _ _ _ Hk).
    apply (Hord k (Zlen l - 1) x s); [lia|done|done]. }
  assert (s ∈ DBClusterSnapshots resp) as Hin.
  { rewrite <- Hp. by apply index_elem_of in Hlast. }
  exists s. destruct err; do 3 eexists; (split; [done|]);
    (split; [done|]); (split; [done|]); apply setSnapshotAttributes_id.
Qed.

Lemma dataSourceClusterSnapshotRead_most_recent_witness :
  let snapshots := [snapshot_at "a" 5; snapshot_at "b" 9; snapshot_in_progress "c"] in
  let d := snapshot_query true in
  ∃ s diags d' st',
    dataSourceClusterSnapshotRead (rds_answering snapshots) id (λ _, "time") d ((), [])
    = (Done (diags, d'), st') ∧
    s ∈ snapshots ∧
    (∀ x, x ∈ snapshots → at_least_as_recent s x) ∧
    d_Id d' = StringValue (DBClusterSnapshotIdentifier s).
Proof.
  intros snapshots d.
  apply (dataSourceClusterSnapshotRead_most_recent (rds_answering snapshots) id
           (λ _, "time") d () [] {| DBClusterSnapshots := snapshots |} ()).
  - left. reflexivity.
  - reflexivity.
  - reflexivity.
  - reflexivity.
Defined.

(** * Further properties of the configuration template *)

(** ** The loops that build the removals *)

(** How many additions have another namespace or option name than [r] *)
Lemma remove_inner_replicate r add remove :
  remove_inner r add remove
  = remove ++ replicate (length (List.filter (λ a, negb (same_option r a)) add)) r.
Proof.
  unfold remove_inner. revert remove.
  induction add as [|a add IH]; intros remove; simpl.
  - by rewrite app_nil_r.
  - rewrite IH. destruct (same_option r a); simpl; [done|].
    by rewrite <- app_assoc.
Qed.

Lemma remove_loop_fold rm add acc :
  fold_left (λ remove r, remove_inner r add remove) rm acc
  = acc ++ (rm ≫= λ r,
      replicate (length (List.filter (λ a, negb (same_option r a)) add)) r).
Proof.
  revert acc. induction rm as [|r rm IH]; intros acc; simpl.
  - by rewrite app_nil_r.
  - by rewrite IH, remove_inner_replicate, <- app_assoc.
Qed.

(** The removals the loops build hold every setting of [rm] once for each
    addition that has another namespace or option name: a setting of [rm] is
    among them exactly when some addition differs from it in namespace or
    option name, and nothing else is. *)
Theorem remove_loop_occurrences rm add :
  remove_loop rm add
  = (rm ≫= λ r, replicate (length (List.filter (λ a, negb (same_option r a)) add)) r) ∧
  ∀ x, x ∈ remove_loop rm add ↔
       x ∈ rm ∧ ∃ a, a ∈ add ∧ same_option x a = false.
Proof.
  assert (remove_loop rm add
          = (rm ≫= λ r,
               replicate (length (List.filter (λ a, negb (same_option r a)) add)) r))
    as Heq by apply remove_loop_fold.
  split; [done|]. intros x. rewrite Heq, list_elem_of_bind. split.
  - intros (r & Hrep & Hr). apply elem_of_replicate in Hrep as [-> Hlen].
    split; [done|].
    destruct (List.filter (λ a, negb (same_option r a)) add) as [|a l] eqn:Hf; [done|].
    assert (In a (List.filter (λ a, negb (same_option r a)) add)) as Hin
      by (rewrite Hf; by left).
    apply filter_In in Hin as [Hin Hneq]. exists a.
    split; [by apply list_elem_of_In|]. by apply negb_true_iff.
  - intros (Hx & a & Ha & Hneq). exists x. split; [|done].
    apply elem_of_replicate. split; [done|].
    assert (In a (List.filter (λ a, negb (same_option x a)) add)) as Hin.
    { apply filter_In. split; [by apply list_elem_of_In|]. by rewrite Hneq. }
    destruct (List.filter _ add); [done|]. done.
Qed.

(** With exactly one addition the loops build what the comment above them
    says: the settings of [rm] that differ from the addition in namespace
    or option name, each once and in the order of [rm]. *)
Theorem remove_loop_single_addition rm a :
  remove_loop rm [a] = remove_not_in_add rm [a].
Proof.
  unfold remove_loop. rewrite remove_loop_fold, app_nil_l.
  unfold remove_not_in_add.
  induction rm as [|r rm IH]; [done|].
  rewrite bind_cons, IH. simpl. rewrite andb_true_r.
  by destruct (same_option r a).
Qed.

(** ** The read of the template *)

Lemma FindConfigurationSettingsByTwoPartKey_missing {W} (conn : ElasticBeanstalk W)
    applicationName templateName w log output sdkerr w' :
  DescribeConfigurationSettingsWithContext conn (describeInput applicationName templateName) w
    = ((output, sdkerr), w') →
  template_missing sdkerr →
  FindConfigurationSettingsByTwoPartKey conn applicationName templateName (w, log)
  = ((None, Some (NotFoundError sdkerr)),
     (w', log ++ [DescribeConfigurationSettingsCall
                    (describeInput applicationName templateName)])).
Proof.
  intros Hdesc Hmiss. unfold FindConfigurationSettingsByTwoPartKey. run.
  fold (describeInput applicationName templateName). rewrite Hdesc.
  apply template_missing_spec in Hmiss. by rewrite Hmiss.
Qed.

Lemma FindConfigurationSettingsByTwoPartKey_single {W} (conn : ElasticBeanstalk W)
    applicationName templateName w log out settings w' :
  DescribeConfigurationSettingsWithContext conn (describeInput applicationName templateName) w
    = ((Some out, None), w') →
  ConfigurationSettings out = [Some settings] →
  FindConfigurationSettingsByTwoPartKey conn applicationName templateName (w, log)
  = ((Some settings, None),
     (w', log ++ [DescribeConfigurationSettingsCall
                    (describeInput applicationName templateName)])).
Proof.
  intros Hdesc Hcs. unfold FindConfigurationSettingsByTwoPartKey. run.
  fold (describeInput applicationName templateName). rewrite Hdesc. simpl.
  by rewrite Hcs.
Qed.

(** When the describe request says that the template or its application
    does not exist, the read of a resource that is not new clears the id
    (the resource leaves the state) and returns no diagnostics; the read of
    a new resource keeps the id and returns one error diagnostic.  Either
    way no attribute is written. *)
Theorem resourceConfigurationTemplateRead_not_found {W} (conn : ElasticBeanstalk W)
    NotFound d w log output sdkerr w' :
  (∀ last, NotFound (Some (NotFoundError last)) = true) →
  DescribeConfigurationSettingsWithContext conn
    (describeInput (d_Get_string d "application") (d_Id d)) w = ((output, sdkerr), w') →
  template_missing sdkerr →
  ∃ diags d',
    resourceConfigurationTemplateRead conn NotFound d (w, log)
    = ((diags, d'), (w', log ++ [read_back_call d])) ∧
    d_values d' = d_values d ∧
    if d_IsNewResource d
    then d_Id d' = d_Id d ∧ HasError diags = true
    else d_Id d' = EmptyString ∧ diags = [].
Proof.
  intros HNF Hdesc Hmiss. unfold resourceConfigurationTemplateRead.
  rewrite bind_run.
  rewrite (FindConfigurationSettingsByTwoPartKey_missing conn _ _ w log output sdkerr w')
    by done.
  rewrite HNF. unfold d_IsNewResource. destruct (d_isNew d); simpl; by do 2 eexists.
Qed.

Lemma resourceConfigurationTemplateRead_not_found_witness :
  let e := awserr "InvalidParameterValue" "No Configuration Template named 'app/tmpl'" in
  let conn := eb_answering None None None (None, Some e) in
  let d := template_data "first" "first" [] [] in
  ∃ diags d',
    resourceConfigurationTemplateRead conn is_NotFoundError d ((), [])
    = ((diags, d'), ((), [] ++ [read_back_call d])) ∧
    d_values d' = d_values d ∧
    d_Id d' = EmptyString ∧ diags = [].
Proof.
  intros e conn d.
  apply (resourceConfigurationTemplateRead_not_found conn is_NotFoundError d () []
           None (Some e) ()).
  - reflexivity.
  - reflexivity.
  - exists "No Configuration Template named 'app/tmpl'". split; [reflexivity|].
    left. exists EmptyString, " 'app/tmpl'". reflexivity.
Defined.

Lemma d_Get_string_Set_ptr d k p :
  d_Get_string (d_Set d k (VStringPtr p)) k = StringValue p.
Proof. apply d_Get_string_Set_eq. Qed.

(** When the describe request returns exactly one description, the read
    returns no diagnostics, keeps the id, writes the application, the
    description, the name and the solution stack name from the description
    (a nil field as the empty string) and leaves every other attribute as it
    was. *)
Theorem resourceConfigurationTemplateRead_found {W} (conn : ElasticBeanstalk W)
    NotFound d w log out settings w' :
  NotFound None = false →
  DescribeConfigurationSettingsWithContext conn
    (describeInput (d_Get_string d "application") (d_Id d)) w = ((Some out, None), w') →
  ConfigurationSettings out = [Some settings] →
  ∃ d',
    resourceConfigurationTemplateRead conn NotFound d (w, log)
    = (([], d'), (w', log ++ [read_back_call d])) ∧
    d_Id d' = d_Id d ∧
    d_Get_string d' "application" = StringValue (csd_ApplicationName settings) ∧
    d_Get_string d' "description" = StringValue (csd_Description settings) ∧
    d_Get_string d' "name" = StringValue (csd_TemplateName settings) ∧
    d_Get_string d' "solution_stack_name" = StringValue (csd_SolutionStackName settings) ∧
    ∀ k, k ∉ ["application"; "description"; "name"; "solution_stack_name"] →
      d_values d' !! k = d_values d !! k.
Proof.
  intros HNF Hdesc Hcs. unfold resourceConfigurationTemplateRead.
  rewrite bind_run.
  rewrite (FindConfigurationSettingsByTwoPartKey_single conn _ _ w log out settings w')
    by done.
  rewrite HNF, andb_false_r. eexists. split; [done|]. split; [done|].
  split; [by rewrite !d_Get_string_Set_ne, d_Get_string_Set_ptr by discriminate|].
  split; [by rewrite !d_Get_string_Set_ne, d_Get_string_Set_ptr by discriminate|].
  split; [by rewrite !d_Get_string_Set_ne, d_Get_string_Set_ptr by discriminate|].
  split; [by rewrite d_Get_string_Set_ptr|].
  intros k Hk. rewrite !d_values_Set_ne; [done|..]; intros <-; apply Hk;
    repeat first [apply list_elem_of_here | apply list_elem_of_further].
Qed.

Lemma resourceConfigurationTemplateRead_found_witness :
  let conn := eb_answering None None None
                (Some {| ConfigurationSettings := [Some template_description] |}, None) in
  let d := template_data "second" "second" [] [min_size "1"] in
  ∃ d',
    resourceConfigurationTemplateRead conn is_NotFoundError d ((), [])
    = (([], d'), ((), [] ++ [read_back_call d])) ∧
    d_Id d' = d_Id d ∧
    d_Get_string d' "application" = "app" ∧
    d_Get_string d' "description" = "first" ∧
    d_Get_string d' "name" = "tmpl" ∧
    d_Get_string d' "solution_stack_name" = "stack" ∧
    ∀ k, k ∉ ["application"; "description"; "name"; "solution_stack_name"] →
      d_values d' !! k = d_values d !! k.
Proof.
  intros conn d.
  apply (resourceConfigurationTemplateRead_found conn is_NotFoundError d () []
           {| ConfigurationSettings := [Some template_description] |}
           template_description ()); reflexivity.
Defined.

(** The read of a new resource (the read-back of a create) reports
    anything but exactly one description as an error: when the describe
    request fails, or returns no response, no description, a nil first
    description or more than one description, the read returns one error
    diagnostic and the resource data as they were, the id included. *)
Theorem resourceConfigurationTemplateRead_new_resource_error {W}
    (conn : ElasticBeanstalk W) NotFound d w log output sdkerr w' :
  d_IsNewResource d = true →
  DescribeConfigurationSettingsWithContext conn
    (describeInput (d_Get_string d "application") (d_Id d)) w = ((output, sdkerr), w') →
  ¬ (sdkerr = None ∧
     ∃ out settings, output = Some out ∧ ConfigurationSettings out = [Some settings]) →
  ∃ diag,
    resourceConfigurationTemplateRead conn NotFound d (w, log)
    = (([diag], d), (w', log ++ [read_back_call d])) ∧
    severity diag = Error.
Proof.
  intros Hnew Hdesc Hnot. unfold resourceConfigurationTemplateRead.
  rewrite bind_run. unfold FindConfigurationSettingsByTwoPartKey. run.
  fold (describeInput (d_Get_string d "application") (d_Id d)). rewrite Hdesc.
  unfold d_IsNewResource in *. rewrite Hnew.
  destruct (_ || _); simpl; [by eexists|].
  destruct sdkerr as [e|]; simpl; [by eexists|].
  destruct output as [out|]; simpl; [|by eexists].
  destruct (ConfigurationSettings out) as [|[first|] rest] eqn:Hcs;
    simpl; try by eexists.
  destruct rest as [|second rest].
  - destruct Hnot. split; [done|]. by exists out, first.
  - replace (1 <? Zlen (Some first :: second :: rest)) with true; [by eexists|].
    symmetry. apply Z.ltb_lt. unfold Zlen. simpl. lia.
Qed.

Lemma resourceConfigurationTemplateRead_new_resource_error_witness :
  let conn := eb_answering None None None
                (Some {| ConfigurationSettings :=
                           [Some template_description; Some template_description] |},
                 None) in
  let d := {| d_id := "tmpl"; d_isNew := true; d_state := ∅;
              d_values := {[ "application" := VString "app";
                             "name" := VString "tmpl" ]} |} in
  ∃ diag,
    resourceConfigurationTemplateRead conn is_NotFoundError d ((), [])
    = (([diag], d), ((), [] ++ [read_back_call d])) ∧
    severity diag = Error.
Proof.
  intros conn d.
  apply (resourceConfigurationTemplateRead_new_resource_error conn is_NotFoundError d
           () [] (Some {| ConfigurationSettings :=
                            [Some template_description; Some template_description] |})
           None ()).
  - reflexivity.
  - reflexivity.
  - intros (_ & out & settings & [= <-] & Hcs). discriminate Hcs.
Defined.

(** ** Create, update and delete of the template *)

Lemma template_frame_refl d : template_frame d d.
Proof. done. Qed.

Lemma resourceConfigurationTemplateRead_frame {W} (conn : ElasticBeanstalk W) NotFound
    d st :
  let d' := (resourceConfigurationTemplateRead conn NotFound d st).1.2 in
  template_frame d d' ∧
  (d_Id d' = d_Id d ∨ d_IsNewResource d = false ∧ d_Id d' = EmptyString).
Proof.
  destruct st as [w log]. unfold resourceConfigurationTemplateRead.
  destruct (FindConfigurationSettingsByTwoPartKey_calls conn
              (d_Get_string d "application") (d_Id d) w log)
    as ([settings err] & w' & Hrun).
  rewrite bind_run, Hrun. unfold d_IsNewResource.
  destruct (d_isNew d); simpl.
  - destruct err, settings; simpl; (split; [|by left]); try apply template_frame_refl.
    split; [within_schema|].
    by rewrite !d_values_Set_ne by discriminate.
  - destruct (NotFound err); simpl; [split; [done|by right]|].
    destruct err, settings; simpl; (split; [|by left]); try apply template_frame_refl.
    split; [within_schema|].
    by rewrite !d_values_Set_ne by discriminate.
Qed.

(** When the create request succeeds, the handler sets the id to the name
    of the configuration and reads the template back under that name, with
    one describe request.  For a new resource the id is the name whatever
    the read-back finds; otherwise the read-back can only clear it. *)
Theorem resourceConfigurationTemplateCreate_success {W} (conn : ElasticBeanstalk W)
    NotFound d w log w1 :
  CreateConfigurationTemplateWithContext conn (createOpts d) w = (None, w1) →
  ∃ diags d' w2,
    resourceConfigurationTemplateCreate conn NotFound d (w, log)
    = ((diags, d'),
       (w2, log ++ [CreateConfigurationTemplateCall (createOpts d);
                    DescribeConfigurationSettingsCall
                      (describeInput (d_Get_string d "application")
                                     (d_Get_string d "name"))])) ∧
    (d_IsNewResource d = true → d_Id d' = d_Get_string d "name") ∧
    (d_Id d' = d_Get_string d "name" ∨ d_Id d' = EmptyString).
Proof.
  intros Hcreate. unfold resourceConfigurationTemplateCreate.
  rewrite bind_run, sdk_call_run, Hcreate.
  cbn [fst snd as_error fmap option_fmap option_map].
  set (d1 := d_SetId d (d_Get_string d "name")).
  destruct (resourceConfigurationTemplateRead_calls conn NotFound d1 w1
              (log ++ [CreateConfigurationTemplateCall (createOpts d)]))
    as ([diags' d'] & w2 & Hread).
  pose proof (resourceConfigurationTemplateRead_frame conn NotFound d1
                (w1, log ++ [CreateConfigurationTemplateCall (createOpts d)]))
    as [_ Hid].
  rewrite Hread in Hid. simpl in Hid.
  rewrite bind_run, Hread. exists diags', d', w2.
  split; [by rewrite <- app_assoc|]. split.
  - intros Hnew. destruct Hid as [Hid|[Hold _]]; [done|].
    unfold d_IsNewResource in *. simpl in Hold. congruence.
  - destruct Hid as [Hid|[_ Hid]]; [by left|by right].
Qed.

Lemma resourceConfigurationTemplateCreate_success_witness :
  let conn := eb_answering None None None
                (Some {| ConfigurationSettings := [Some template_description] |}, None) in
  let d := {| d_id := EmptyString; d_isNew := true; d_state := ∅;
              d_values := {[ "application" := VString "app";
                             "name" := VString "tmpl" ]} |} in
  ∃ diags d' w2,
    resourceConfigurationTemplateCreate conn is_NotFoundError d ((), [])
    = ((diags, d'),
       (w2, [] ++ [CreateConfigurationTemplateCall (createOpts d);
                   DescribeConfigurationSettingsCall
                     (describeInput (d_Get_string d "application")
                                    (d_Get_string d "name"))])) ∧
    (d_IsNewResource d = true → d_Id d' = d_Get_string d "name") ∧
    (d_Id d' = d_Get_string d "name" ∨ d_Id d' = EmptyString).
Proof.
  intros conn d.
  apply (resourceConfigurationTemplateCreate_success conn is_NotFoundError d () [] ()).
  reflexivity.
Defined.

(** A failed request ends the update: when the description update fails,
    or when (the description being unchanged or updated) the validation
    succeeds and the request that changes the settings fails, the handler
    returns one diagnostic with the error, leaves the resource data as they
    were and does not read the template back. *)
Theorem resourceConfigurationTemplateUpdate_failure {W} (conn : ElasticBeanstalk W)
    NotFound d w log e :
  (∀ w1,
     d_HasChange d "description" = true →
     UpdateConfigurationTemplateWithContext conn (descriptionUpdateInput d) w
       = (Some e, w1) →
     resourceConfigurationTemplateUpdate conn NotFound d (w, log)
     = (([update_failed d e], d), (w1, log ++ [description_call d]))) ∧
  (∀ w0 before os ns w1 w2,
     d_HasChange d "description" = false ∧ w0 = w ∧ before = [] ∨
     d_HasChange d "description" = true ∧
     UpdateConfigurationTemplateWithContext conn (descriptionUpdateInput d) w
       = (None, w0) ∧
     before = [description_call d] →
     d_HasChange d "setting" = true →
     d_state d !! "setting" = Some (VSet os) →
     d_values d !! "setting" = Some (VSet ns) →
     ValidateConfigurationSettingsWithContext conn (validateInput d) w0 = (None, w1) →
     UpdateConfigurationTemplateWithContext conn (settingsUpdateInput d os ns) w1
       = (Some e, w2) →
     resourceConfigurationTemplateUpdate conn NotFound d (w, log)
     = (([update_failed d e], d),
        (w2, log ++ before ++
             [validate_call d;
              UpdateConfigurationTemplateCall (settingsUpdateInput d os ns)]))).
Proof.
  split.
  - intros w1 Hch Hupd. unfold resourceConfigurationTemplateUpdate.
    rewrite bind_run, Hch. unfold resourceConfigurationTemplateDescriptionUpdate.
    by rewrite sdk_call_run, Hupd.
  - intros w0 before os ns w1 w2 Hdescr Hset Hos Hns Hval Hupd.
    assert (resourceConfigurationTemplateOptionSettingsUpdate conn d (w0, log ++ before)
            = (Some (ApiError e),
               (w2, (log ++ before) ++
                    [validate_call d;
                     UpdateConfigurationTemplateCall (settingsUpdateInput d os ns)])))
      as Hrun.
    { unfold resourceConfigurationTemplateOptionSettingsUpdate.
      rewrite Hset, bind_run, sdk_call_run, Hval.
      cbn [fst snd as_error fmap option_fmap option_map].
      unfold d_GetChange. rewrite Hos, Hns, sdk_call_run.
      fold (settings_rm os ns). fold (settings_add os ns).
      fold (settingsUpdateInput d os ns). rewrite Hupd.
      by rewrite <- app_assoc. }
    unfold resourceConfigurationTemplateUpdate. rewrite bind_run.
    destruct Hdescr as [(Hch & -> & ->) | (Hch & Hupd0 & ->)]; rewrite Hch.
    + unfold mret at 1, M_ret at 1. rewrite bind_run, Hset.
      rewrite app_nil_r in Hrun. by rewrite Hrun.
    + unfold resourceConfigurationTemplateDescriptionUpdate.
      rewrite sdk_call_run, Hupd0.
      cbn [fst snd as_error fmap option_fmap option_map].
      rewrite bind_run, Hset. unfold description_call in *. rewrite Hrun.
      by rewrite <- app_assoc.
Qed.

Lemma resourceConfigurationTemplateUpdate_failure_witness :
  let e := awserr "InvalidParameterValue" "Invalid option specification" in
  let conn := eb_answering None (Some e) None (None, None) in
  let d := template_data "first" "first" [min_size "1"] [min_size "2"] in
  resourceConfigurationTemplateUpdate conn is_NotFoundError d ((), [])
  = (([update_failed d e], d),
     ((), [] ++ [] ++
          [validate_call d;
           UpdateConfigurationTemplateCall
             (settingsUpdateInput d [min_size "1"] [min_size "2"])])).
Proof.
  intros e conn d.
  apply (proj2 (resourceConfigurationTemplateUpdate_failure conn is_NotFoundError d () [] e)
           () [] [min_size "1"] [min_size "2"] () ()).
  - left. split; [vm_compute; reflexivity|]. split; reflexivity.
  - vm_compute. reflexivity.
  - reflexivity.
  - reflexivity.
  - reflexivity.
  - reflexivity.
Defined.

Lemma template_frame_SetId d d' id :
  template_frame (d_SetId d id) d' → template_frame d d'.
Proof. done. Qed.

(** No handler of the template touches the prior state or writes an
    attribute outside the schema, and none writes the settings or the
    environment id: the read-back refreshes the application, the
    description, the name and the solution stack name only.  The delete
    handler returns the resource data as it received them. *)
Theorem resourceConfigurationTemplate_frame {W} (conn : ElasticBeanstalk W) NotFound
    d st :
  template_frame d (resourceConfigurationTemplateRead conn NotFound d st).1.2 ∧
  template_frame d (resourceConfigurationTemplateCreate conn NotFound d st).1.2 ∧
  template_frame d (resourceConfigurationTemplateUpdate conn NotFound d st).1.2 ∧
  (resourceConfigurationTemplateDelete conn d st).1.2 = d.
Proof.
  split; [apply resourceConfigurationTemplateRead_frame|]. split; [|split].
  - unfold resourceConfigurationTemplateCreate. rewrite bind_run.
    destruct (sdk_call _ _ _ st) as [[e|] st1]; [done|].
    rewrite bind_run.
    pose proof (resourceConfigurationTemplateRead_frame conn NotFound
                  (d_SetId d (d_Get_string d "name")) st1) as [Hf _].
    destruct (resourceConfigurationTemplateRead conn NotFound _ st1) as [[diags' d'] st2].
    by apply template_frame_SetId in Hf.
  - unfold resourceConfigurationTemplateUpdate. rewrite bind_run.
    destruct ((if d_HasChange d "description"
               then resourceConfigurationTemplateDescriptionUpdate conn d
               else mret None) st) as [[e1|] st1]; [done|].
    rewrite bind_run.
    destruct ((if d_HasChange d "setting"
               then resourceConfigurationTemplateOptionSettingsUpdate conn d
               else mret None) st1) as [[e2|] st2]; [done|].
    rewrite bind_run.
    pose proof (resourceConfigurationTemplateRead_frame conn NotFound d st2) as [Hf _].
    by destruct (resourceConfigurationTemplateRead conn NotFound d st2)
      as [[diags' d'] st3].
  - unfold resourceConfigurationTemplateDelete. rewrite bind_run.
    by destruct (sdk_call _ _ _ st) as [[e|] st1].
Qed.

(** * Further properties of the transit-gateway resources *)

Lemma request_run {W C I O} (tag : I → C) (op : I → W → O * W) i w log :
  request tag op i (w, log) = ((op i w).1, ((op i w).2, log ++ [tag i])).
Proof. unfold request. by destruct (op i w). Qed.

Lemma sdk_call_out_run {W C I O} (tag : I → C)
    (op : I → W → (O * option api_error) * W) i w log :
  sdk_call_out tag op i (w, log)
  = (((op i w).1.1, as_error (op i w).1.2), ((op i w).2, log ++ [tag i])).
Proof. unfold sdk_call_out. run. by destruct (op i w) as [[??]?]. Qed.

Ltac steps :=
  repeat first
    [ rewrite bind_run | rewrite sdk_call_run | rewrite sdk_call_out_run
    | rewrite request_run | rewrite ret_run ];
  cbn [fst snd as_error fmap option_fmap option_map].

(** ** Creates *)

(** The create of the route table.  When the create request fails the
    handler returns one error diagnostic and the resource data as they
    were, having issued that request only.  When it succeeds and the wait
    for the route table fails, the handler returns one error diagnostic and
    the id is the id of the route table just created: the resource data
    keep track of it, and the route table is not read back. *)
Theorem resourceTransitGatewayRouteTableCreate_failure {W} (conn : EC2 W) meta NotFound
    d w log output w1 :
  let input := routeTableInput meta d in
  let id := StringValue (TransitGatewayRouteTableId output) in
  (∀ e,
     CreateTransitGatewayRouteTableWithContext conn input w = ((output, Some e), w1) →
     ∃ diag,
       resourceTransitGatewayRouteTableCreate conn meta NotFound d (w, log)
       = (([diag], d), (w1, log ++ [CreateTransitGatewayRouteTableCall input])) ∧
       severity diag = Error) ∧
  (∀ e w2,
     CreateTransitGatewayRouteTableWithContext conn input w = ((output, None), w1) →
     WaitTransitGatewayRouteTableCreated conn id w1 = (Some e, w2) →
     ∃ diag,
       resourceTransitGatewayRouteTableCreate conn meta NotFound d (w, log)
       = (([diag], d_SetId d id),
          (w2, log ++ [CreateTransitGatewayRouteTableCall input;
                       WaitTransitGatewayRouteTableCreatedCall id])) ∧
       severity diag = Error).
Proof.
  intros input id. split.
  - intros e Hcreate. unfold resourceTransitGatewayRouteTableCreate.
    fold (mergedTags meta d). fold (routeTableInput meta d). fold input.
    steps. rewrite Hcreate. simpl. by eexists.
  - intros e w2 Hcreate Hwait. unfold resourceTransitGatewayRouteTableCreate.
    fold (mergedTags meta d). fold (routeTableInput meta d). fold input.
    steps. rewrite Hcreate. simpl. steps. fold id. rewrite Hwait. simpl.
    rewrite <- app_assoc. by eexists.
Qed.

Lemma resourceTransitGatewayRouteTableCreate_failure_witness :
  let e := awserr "InvalidTransitGatewayID.NotFound" "no such transit gateway" in
  let conn := ec2_service (Some e) None None None None in
  let d := gateway_data EmptyString in
  ∃ diag,
    resourceTransitGatewayRouteTableCreate conn client is_NotFoundError d ((), [])
    = (([diag], d),
       ((), [] ++ [CreateTransitGatewayRouteTableCall (routeTableInput client d)])) ∧
    severity diag = Error.
Proof.
  intros e conn d.
  apply (proj1 (resourceTransitGatewayRouteTableCreate_failure conn client
                  is_NotFoundError d () [] no_route_table ()) e).
  reflexivity.
Defined.

(** The read of the accepter issues finder requests only, writes within
    the schema and keeps the id or, for a resource that is not new, clears
    it. *)
Lemma resourceTransitGatewayPeeringAttachmentAccepterRead_frame {W} (conn : EC2 W)
    meta NotFound TagsSchema TagsSchemaComputed d w log :
  ∃ diags d' w' calls,
    resourceTransitGatewayPeeringAttachmentAccepterRead conn meta NotFound d (w, log)
    = ((diags, d'), (w', log ++ calls)) ∧
    Forall is_find calls ∧
    writes_within
      (ResourceTransitGatewayPeeringAttachmentAccepter_Schema TagsSchema TagsSchemaComputed)
      d d' ∧
    id_kept_or_cleared d d'.
Proof.
  unfold resourceTransitGatewayPeeringAttachmentAccepterRead, id_kept_or_cleared.
  steps.
  destruct (FindTransitGatewayPeeringAttachmentByID conn (d_Id d) w) as [[pa err] w1].
  cbn [fst snd]. unfold d_IsNewResource.
  destruct (negb (d_isNew d) && NotFound err) eqn:Hnf.
  { exists [], (d_SetId d EmptyString), w1, [FindTransitGatewayPeeringAttachmentByIDCall (d_Id d)].
    split; [done|]. split; [by repeat constructor|]. split; [done|].
    right. split; [|done]. apply andb_true_iff in Hnf as [Hn _].
    by apply negb_true_iff in Hn. }
  destruct err as [e|].
  { do 2 eexists. exists w1, [FindTransitGatewayPeeringAttachmentByIDCall (d_Id d)].
    split; [done|]. split; [by repeat constructor|]. split; [done|]. by left. }
  steps.
  destruct (FindTransitGatewayByID conn _ w1) as [err w2]. cbn [fst snd].
  destruct err as [e|].
  - do 2 eexists.
    exists w2, [FindTransitGatewayPeeringAttachmentByIDCall (d_Id d);
                FindTransitGatewayByIDCall
                  (StringValue (tgw_TransitGatewayId (AccepterTgwInfo pa)))].
    split; [by rewrite <- app_assoc|]. split; [by repeat constructor|].
    split; [done|]. by left.
  - do 2 eexists.
    exists w2, [FindTransitGatewayPeeringAttachmentByIDCall (d_Id d);
                FindTransitGatewayByIDCall
                  (StringValue (tgw_TransitGatewayId (AccepterTgwInfo pa)))].
    split; [by rewrite <- app_assoc|]. split; [by repeat constructor|].
    split; [within_schema|]. by left.
Qed.

Lemma resourceTransitGatewayRouteTableRead_frame {W} (conn : EC2 W)
    meta NotFound TagsSchema TagsSchemaComputed d w log :
  ∃ diags d' w',
    resourceTransitGatewayRouteTableRead conn meta NotFound d (w, log)
    = ((diags, d'), (w', log ++ [FindTransitGatewayRouteTableByIDCall (d_Id d)])) ∧
    writes_within (ResourceTransitGatewayRouteTable_Schema TagsSchema TagsSchemaComputed)
      d d' ∧
    id_kept_or_cleared d d'.
Proof.
  unfold resourceTransitGatewayRouteTableRead, id_kept_or_cleared.
  steps.
  destruct (FindTransitGatewayRouteTableByID conn (d_Id d) w) as [[rt err] w1].
  cbn [fst snd]. unfold d_IsNewResource.
  destruct (negb (d_isNew d) && NotFound err) eqn:Hnf.
  { exists [], (d_SetId d EmptyString), w1.
    split; [done|]. split; [done|].
    right. split; [|done]. apply andb_true_iff in Hnf as [Hn _].
    by apply negb_true_iff in Hn. }
  destruct err as [e|].
  - do 2 eexists. exists w1. split; [done|]. split; [done|]. by left.
  - do 2 eexists. exists w1. split; [done|]. split; [within_schema|]. by left.
Qed.

(** The create of the accepter, once the accept request has succeeded: the
    id is the id of the accepted attachment.  When the wait fails the
    handler returns one error diagnostic with that id set and stops.  When
    the wait succeeds, the merged tags are created under that id exactly
    when there are any, and every other request that follows is a finder
    request of the read-back; a new resource keeps the id. *)
Theorem resourceTransitGatewayPeeringAttachmentAccepterCreate_accepted {W} (conn : EC2 W)
    meta NotFound d w log output w1 :
  let input := Some (d_Get_string d "transit_gateway_attachment_id") in
  let id := StringValue (TransitGatewayAttachmentId output) in
  let tags := mergedTags meta d in
  let accepted := [AcceptTransitGatewayPeeringAttachmentCall input;
                   WaitTransitGatewayPeeringAttachmentAcceptedCall id] in
  AcceptTransitGatewayPeeringAttachmentWithContext conn input w = ((output, None), w1) →
  (∀ e w2,
     WaitTransitGatewayPeeringAttachmentAccepted conn id w1 = (Some e, w2) →
     ∃ diag,
       resourceTransitGatewayPeeringAttachmentAccepterCreate conn meta NotFound d (w, log)
       = (([diag], d_SetId d id), (w2, log ++ accepted)) ∧
       severity diag = Error) ∧
  (∀ w2,
     WaitTransitGatewayPeeringAttachmentAccepted conn id w1 = (None, w2) →
     ∃ diags d' w3 calls,
       resourceTransitGatewayPeeringAttachmentAccepterCreate conn meta NotFound d (w, log)
       = ((diags, d'), (w3, log ++ accepted ++ calls)) ∧
       (CreateTagsCall (id, tags) ∈ calls ↔ tags ≠ ∅) ∧
       (∀ c, c ∈ calls → c = CreateTagsCall (id, tags) ∨ is_find c) ∧
       (d_IsNewResource d = true → d_Id d' = id)).
Proof.
  intros input id tags accepted Haccept.
  assert (∀ c calls, Forall is_find calls → c ∈ calls → is_find c) as Hfind.
  { intros c calls Hall Hc. by apply (proj1 (Forall_forall _ _) Hall). }
  split.
  - intros e w2 Hwait. unfold resourceTransitGatewayPeeringAttachmentAccepterCreate.
    steps. fold input. rewrite Haccept. simpl. steps. fold id. rewrite Hwait. simpl.
    rewrite <- app_assoc. by eexists.
  - intros w2 Hwait. unfold resourceTransitGatewayPeeringAttachmentAccepterCreate.
    steps. fold input. rewrite Haccept. simpl. steps. fold id. rewrite Hwait. simpl.
    fold (mergedTags meta d). fold tags.
    change (d_id (d_SetId d id)) with id.
    destruct (bool_decide (tags ≠ ∅)) eqn:Htags.
    + apply bool_decide_eq_true in Htags. steps.
      destruct (CreateTags conn (id, tags) w2) as [terr w3]. cbn [fst snd].
      destruct terr as [e|].
      * do 2 eexists. exists w3, [CreateTagsCall (id, tags)].
        split; [by rewrite <- !app_assoc|].
        split; [split; [done|intros _; apply list_elem_of_here]|].
        split; [intros c Hc%list_elem_of_singleton; by left|done].
      * destruct (resourceTransitGatewayPeeringAttachmentAccepterRead_frame conn meta
                    NotFound (computed_field TypeMap) (computed_field TypeMap)
                    (d_SetId d id) w3
                    (((log ++ [AcceptTransitGatewayPeeringAttachmentCall input]) ++
                      [WaitTransitGatewayPeeringAttachmentAcceptedCall id]) ++
                     [CreateTagsCall (id, tags)]))
          as (diags' & d' & w4 & calls & Hread & Hcalls & _ & Hid).
        steps. rewrite Hread. cbn [fst snd].
        exists ([] ++ diags'), d', w4, (CreateTagsCall (id, tags) :: calls).
        split; [by rewrite <- !app_assoc|].
        split; [split; [done|intros _; apply list_elem_of_here]|].
        split.
        -- intros c [->|Hc]%elem_of_cons; [by left|right; by apply (Hfind c calls)].
        -- intros Hnew. destruct Hid as [Hid|[Hold _]]; [done|].
           unfold d_IsNewResource in *. simpl in Hold. congruence.
    + apply bool_decide_eq_false in Htags.
      destruct (resourceTransitGatewayPeeringAttachmentAccepterRead_frame conn meta
                  NotFound (computed_field TypeMap) (computed_field TypeMap)
                  (d_SetId d id) w2
                  ((log ++ [AcceptTransitGatewayPeeringAttachmentCall input]) ++
                   [WaitTransitGatewayPeeringAttachmentAcceptedCall id]))
        as (diags' & d' & w4 & calls & Hread & Hcalls & _ & Hid).
      steps. rewrite Hread. cbn [fst snd].
      exists ([] ++ diags'), d', w4, calls.
      split; [by rewrite <- !app_assoc|].
      split.
      { split; [|done]. intros Hc. by destruct (Hfind _ _ Hcalls Hc). }
      split.
      -- intros c Hc. right. by apply (Hfind c calls).
      -- intros Hnew. destruct Hid as [Hid|[Hold _]]; [done|].
         unfold d_IsNewResource in *. simpl in Hold. congruence.
Qed.

Lemma resourceTransitGatewayPeeringAttachmentAccepterCreate_accepted_witness :
  let conn := ec2_returning accepted_attachment created_route_table None None
                None None None in
  let tags : gmap string string := {[ "Name" := "peering" ]} in
  let d := fresh_gateway_data tags in
  let accepted := [AcceptTransitGatewayPeeringAttachmentCall (Some "tgw-attach-1");
                   WaitTransitGatewayPeeringAttachmentAcceptedCall "tgw-attach-1"] in
  d_Id d = EmptyString ∧
  ∃ diags d' w3 calls,
    resourceTransitGatewayPeeringAttachmentAccepterCreate conn client is_NotFoundError
      d ((), [])
    = ((diags, d'), (w3, [] ++ accepted ++ calls)) ∧
    (CreateTagsCall ("tgw-attach-1", mergedTags client d) ∈ calls
     ↔ mergedTags client d ≠ ∅) ∧
    (∀ c, c ∈ calls →
          c = CreateTagsCall ("tgw-attach-1", mergedTags client d) ∨ is_find c) ∧
    (d_IsNewResource d = true → d_Id d' = "tgw-attach-1").
Proof.
  intros conn tags d accepted. split; [reflexivity|].
  apply (proj2 (resourceTransitGatewayPeeringAttachmentAccepterCreate_accepted conn client
                  is_NotFoundError d () [] accepted_attachment () eq_refl) ()).
  reflexivity.
Defined.

(** ** Deletes *)

(** The delete of the accepter and the delete of the route table issue the
    delete request, and then the wait for the deletion exactly when the
    delete request returned no error.  The resource data are returned as
    they were.  There are no diagnostics exactly when the delete request
    answered with the not-found code of the resource, or succeeded and the
    wait succeeded too; otherwise there is one error diagnostic. *)
Theorem transit_gateway_delete_outcomes {W} (conn : EC2 W) d w log :
  (∀ errCodeInvalidTransitGatewayAttachmentIDNotFound err w1 werr w2,
     DeleteTransitGatewayPeeringAttachmentWithContext conn (Some (d_Id d)) w = (err, w1) →
     WaitTransitGatewayPeeringAttachmentDeleted conn (d_Id d) w1 = (werr, w2) →
     ∃ diags,
       resourceTransitGatewayPeeringAttachmentAccepterDelete conn
         errCodeInvalidTransitGatewayAttachmentIDNotFound d (w, log)
       = ((diags, d),
          match err with
          | None => (w2, log ++ [DeleteTransitGatewayPeeringAttachmentCall (Some (d_Id d));
                                 WaitTransitGatewayPeeringAttachmentDeletedCall (d_Id d)])
          | Some _ => (w1, log ++ [DeleteTransitGatewayPeeringAttachmentCall (Some (d_Id d))])
          end) ∧
       (diags = [] ↔
          ErrCodeEquals (as_error err) errCodeInvalidTransitGatewayAttachmentIDNotFound = true
          ∨ err = None ∧ werr = None) ∧
       (diags ≠ [] → HasError diags = true ∧ length diags = 1%nat)) ∧
  (∀ errCodeInvalidRouteTableIDNotFound err w1 werr w2,
     DeleteTransitGatewayRouteTableWithContext conn (Some (d_Id d)) w = (err, w1) →
     WaitTransitGatewayRouteTableDeleted conn (d_Id d) w1 = (werr, w2) →
     ∃ diags,
       resourceTransitGatewayRouteTableDelete conn errCodeInvalidRouteTableIDNotFound
         d (w, log)
       = ((diags, d),
          match err with
          | None => (w2, log ++ [DeleteTransitGatewayRouteTableCall (Some (d_Id d));
                                 WaitTransitGatewayRouteTableDeletedCall (d_Id d)])
          | Some _ => (w1, log ++ [DeleteTransitGatewayRouteTableCall (Some (d_Id d))])
          end) ∧
       (diags = [] ↔
          ErrCodeEquals (as_error err) errCodeInvalidRouteTableIDNotFound = true
          ∨ err = None ∧ werr = None) ∧
       (diags ≠ [] → HasError diags = true ∧ length diags = 1%nat)).
Proof.
  split.
  - intros code err w1 werr w2 Hdel Hwait.
    unfold resourceTransitGatewayPeeringAttachmentAccepterDelete.
    steps. rewrite Hdel. cbn [fst snd].
    destruct err as [e|].
    + destruct (ErrCodeEquals (as_error (Some e)) code) eqn:Hcode.
      * eexists. split; [done|]. split; [split; [by left|done]|done].
      * eexists. split; [done|]. split; [|done].
        split; [done|]. by intros [?|[? _]].
    + simpl. steps. rewrite Hwait. rewrite <- app_assoc. cbn [fst snd].
      destruct werr as [e|]; eexists; (split; [done|]); (split; [|done]).
      * split; [done|]. by intros [?|[_ ?]].
      * split; [by right|done].
  - intros code err w1 werr w2 Hdel Hwait.
    unfold resourceTransitGatewayRouteTableDelete.
    steps. rewrite Hdel. cbn [fst snd].
    destruct err as [e|].
    + destruct (ErrCodeEquals (as_error (Some e)) code) eqn:Hcode.
      * eexists. split; [done|]. split; [split; [by left|done]|done].
      * eexists. split; [done|]. split; [|done].
        split; [done|]. by intros [?|[? _]].
    + simpl. steps. rewrite Hwait. rewrite <- app_assoc. cbn [fst snd].
      destruct werr as [e|]; eexists; (split; [done|]); (split; [|done]).
      * split; [done|]. by intros [?|[_ ?]].
      * split; [by right|done].
Qed.

Lemma transit_gateway_delete_outcomes_witness :
  let e := awserr "IncorrectState" "the attachment is being modified" in
  let conn := ec2_service None (Some e) None None None in
  let d := gateway_data "tgw-attach-1" in
  ∃ diags,
    resourceTransitGatewayPeeringAttachmentAccepterDelete conn
      "InvalidTransitGatewayAttachmentID.NotFound" d ((), [])
    = ((diags, d),
       ((), [] ++ [DeleteTransitGatewayPeeringAttachmentCall (Some (d_Id d))])) ∧
    (diags = [] ↔
       ErrCodeEquals (as_error (Some e)) "InvalidTransitGatewayAttachmentID.NotFound" = true
       ∨ Some e = None ∧ (None : option error) = None) ∧
    (diags ≠ [] → HasError diags = true ∧ length diags = 1%nat).
Proof.
  intros e conn d.
  apply (proj1 (transit_gateway_delete_outcomes conn d () [])
           "InvalidTransitGatewayAttachmentID.NotFound" (Some e) () None ());
    reflexivity.
Defined.

(** ** Updates *)

(** The update handlers of the accepter and of the route table issue one
    request, the update of the tags under the id with the old and the new
    [tags_all], exactly when [tags_all] changed, and no request otherwise.
    They return the resource data as they were, with an error diagnostic
    exactly when that request failed. *)
Theorem transit_gateway_update_tags {W} (conn : EC2 W) d w log err w1 :
  let update := (d_Id d, d_GetChange d "tags_all") in
  let outcome (handler : M (W * list EC2Call) (Diagnostics * ResourceData)) :=
    ∃ diags,
      handler (w, log)
      = ((diags, d),
         if d_HasChange d "tags_all"
         then (w1, log ++ [UpdateTagsCall update]) else (w, log)) ∧
      (diags = [] ↔ d_HasChange d "tags_all" = false ∨ err = None) ∧
      (diags ≠ [] → HasError diags = true ∧ length diags = 1%nat) in
  UpdateTags conn update w = (err, w1) →
  outcome (resourceTransitGatewayPeeringAttachmentAccepterUpdate conn d) ∧
  outcome (resourceTransitGatewayRouteTableUpdate conn d).
Proof.
  intros update outcome Hupd.
  unfold outcome, resourceTransitGatewayPeeringAttachmentAccepterUpdate,
    resourceTransitGatewayRouteTableUpdate.
  destruct (d_HasChange d "tags_all").
  - steps. fold update. rewrite Hupd. cbn [fst snd].
    destruct err as [e|]; split; eexists; (split; [done|]); (split; [|done]);
      first [ by split; [|intros [?|?]] | by split; [right|] ].
  - split; exists []; (split; [done|]); (split; [|done]); by split; [left|].
Qed.

Lemma transit_gateway_update_tags_witness :
  let conn := ec2_service None None None (Some (ApiError (other_error "throttled"))) None in
  let d := {| d_id := "tgw-rtb-1"; d_isNew := false;
              d_state := {[ "tags_all" := VMap ∅ ]};
              d_values := {[ "tags_all" := VMap {[ "Name" := "main" ]} ]} |} in
  let update := (d_Id d, d_GetChange d "tags_all") in
  ∃ diags,
    resourceTransitGatewayRouteTableUpdate conn d ((), [])
    = ((diags, d),
       if d_HasChange d "tags_all" then ((), [] ++ [UpdateTagsCall update]) else ((), [])) ∧
    (diags = [] ↔ d_HasChange d "tags_all" = false
                  ∨ Some (ApiError (other_error "throttled")) = None) ∧
    (diags ≠ [] → HasError diags = true ∧ length diags = 1%nat).
Proof.
  intros conn d update.
  apply (proj2 (transit_gateway_update_tags conn d () []
                  (Some (ApiError (other_error "throttled"))) () eq_refl)).
Defined.

(** ** Reads *)

(** The read of the accepter writes attributes only when both the peering
    attachment and the transit gateway of its accepter side are found:
    then it returns no diagnostics, keeps the id and writes every attribute
    of the attachment.  When the attachment is not there and the resource
    is not new the id is cleared without a diagnostic; in every other case
    there is one error diagnostic, and no value of the resource data has
    changed. *)
Theorem resourceTransitGatewayPeeringAttachmentAccepterRead_outcomes {W} (conn : EC2 W)
    meta NotFound d w log pa err1 w1 err2 w2 :
  let find := FindTransitGatewayPeeringAttachmentByIDCall (d_Id d) in
  let transitGatewayID := StringValue (tgw_TransitGatewayId (AccepterTgwInfo pa)) in
  NotFound None = false →
  FindTransitGatewayPeeringAttachmentByID conn (d_Id d) w = ((pa, err1), w1) →
  FindTransitGatewayByID conn transitGatewayID w1 = (err2, w2) →
  ∃ diags d' st',
    resourceTransitGatewayPeeringAttachmentAccepterRead conn meta NotFound d (w, log)
    = ((diags, d'), st') ∧
    match err1, err2 with
    | None, None =>
        diags = [] ∧ d_Id d' = d_Id d ∧
        st' = (w2, log ++ [find; FindTransitGatewayByIDCall transitGatewayID]) ∧
        ∀ k v, (k, v) ∈ attachment_attributes meta pa → d_values d' !! k = Some v
    | None, Some _ =>
        HasError diags = true ∧ d' = d ∧
        st' = (w2, log ++ [find; FindTransitGatewayByIDCall transitGatewayID])
    | Some _, _ =>
        st' = (w1, log ++ [find]) ∧ d_values d' = d_values d ∧
        if negb (d_IsNewResource d) && NotFound err1
        then diags = [] ∧ d_Id d' = EmptyString
        else HasError diags = true ∧ d' = d
    end.
Proof.
  intros find transitGatewayID HNF Hfind Htgw.
  unfold resourceTransitGatewayPeeringAttachmentAccepterRead.
  steps. rewrite Hfind. cbn [fst snd].
  destruct err1 as [e1|].
  - destruct (negb (d_IsNewResource d) && NotFound (Some e1));
      do 3 eexists; (split; [done|]); done.
  - rewrite HNF, andb_false_r. steps. fold transitGatewayID. rewrite Htgw.
    cbn [fst snd]. rewrite <- app_assoc.
    destruct err2 as [e2|]; do 3 eexists; (split; [done|]); [done|].
    split; [done|]. split; [done|]. split; [done|].
    intros k v Hin. unfold attachment_attributes in Hin.
    repeat (apply elem_of_cons in Hin as [[= -> ->]|Hin];
            [rewrite ?d_values_Set_ne by discriminate; apply d_values_Set_eq|]).
    by apply elem_of_nil in Hin.
Qed.

Lemma resourceTransitGatewayPeeringAttachmentAccepterRead_outcomes_witness :
  let conn := ec2_service None None None None None in
  let d := gateway_data "tgw-attach-1" in
  ∃ diags d' st',
    resourceTransitGatewayPeeringAttachmentAccepterRead conn client is_NotFoundError
      d ((), [])
    = ((diags, d'), st') ∧
    diags = [] ∧ d_Id d' = d_Id d ∧
    st' = ((), [] ++ [FindTransitGatewayPeeringAttachmentByIDCall (d_Id d);
                      FindTransitGatewayByIDCall
                        (StringValue (tgw_TransitGatewayId
                                        (AccepterTgwInfo no_attachment)))]) ∧
    ∀ k v, (k, v) ∈ attachment_attributes client no_attachment →
           d_values d' !! k = Some v.
Proof.
  intros conn d.
  apply (resourceTransitGatewayPeeringAttachmentAccepterRead_outcomes conn client
           is_NotFoundError d () [] no_attachment None () None ());
    reflexivity.
Defined.

(** The read of the route table issues one finder request.  When the route
    table is found the read returns no diagnostics, keeps the id and writes
    the arn built from the partition, the region and the account of the
    client and from the id, together with the attributes of the route
    table.  When it is not there and the resource is not new the id is
    cleared without a diagnostic; in every other case there is one error
    diagnostic, and no value of the resource data has changed. *)
Theorem resourceTransitGatewayRouteTableRead_outcomes {W} (conn : EC2 W)
    meta NotFound d w log rt err w1 :
  NotFound None = false →
  FindTransitGatewayRouteTableByID conn (d_Id d) w = ((rt, err), w1) →
  ∃ diags d',
    resourceTransitGatewayRouteTableRead conn meta NotFound d (w, log)
    = ((diags, d'), (w1, log ++ [FindTransitGatewayRouteTableByIDCall (d_Id d)])) ∧
    match err with
    | None =>
        diags = [] ∧ d_Id d' = d_Id d ∧
        ∀ k v, (k, v) ∈ route_table_attributes meta (d_Id d) rt →
               d_values d' !! k = Some v
    | Some _ =>
        d_values d' = d_values d ∧
        if negb (d_IsNewResource d) && NotFound err
        then diags = [] ∧ d_Id d' = EmptyString
        else HasError diags = true ∧ d' = d
    end.
Proof.
  intros HNF Hfind. unfold resourceTransitGatewayRouteTableRead.
  steps. rewrite Hfind. cbn [fst snd].
  destruct err as [e|].
  - destruct (negb (d_IsNewResource d) && NotFound (Some e));
      do 2 eexists; (split; [done|]); done.
  - rewrite HNF, andb_false_r. do 2 eexists. split; [done|].
    split; [done|]. split; [done|].
    intros k v Hin. unfold route_table_attributes in Hin.
    repeat (apply elem_of_cons in Hin as [[= -> ->]|Hin];
            [rewrite ?d_values_Set_ne by discriminate; apply d_values_Set_eq|]).
    by apply elem_of_nil in Hin.
Qed.

Lemma resourceTransitGatewayRouteTableRead_outcomes_witness :
  let conn := ec2_service None None None None (Some (NotFoundError None)) in
  let d := gateway_data "tgw-rtb-1" in
  ∃ diags d',
    resourceTransitGatewayRouteTableRead conn client is_NotFoundError d ((), [])
    = ((diags, d'), ((), [] ++ [FindTransitGatewayRouteTableByIDCall (d_Id d)])) ∧
    d_values d' = d_values d ∧ diags = [] ∧ d_Id d' = EmptyString.
Proof.
  intros conn d.
  apply (resourceTransitGatewayRouteTableRead_outcomes conn client is_NotFoundError
           d () [] no_route_table (Some (NotFoundError None)) ()); reflexivity.
Defined.

(** ** Writes stay within the schemas *)

Lemma writes_within_SetId_l schema d d' id :
  writes_within schema (d_SetId d id) d' → writes_within schema d d'.
Proof. done. Qed.

(** The handlers of the accepter and of the route table never touch the
    prior state and never write an attribute their schema does not declare;
    the update and the delete handlers return the resource data as they
    received them. *)
Theorem transit_gateway_within_schema {W} (conn : EC2 W) meta NotFound
    errCodeInvalidTransitGatewayAttachmentIDNotFound errCodeInvalidRouteTableIDNotFound
    TagsSchema TagsSchemaComputed d st :
  let accepter :=
    ResourceTransitGatewayPeeringAttachmentAccepter_Schema TagsSchema TagsSchemaComputed in
  let route_table :=
    ResourceTransitGatewayRouteTable_Schema TagsSchema TagsSchemaComputed in
  writes_within accepter d
    (resourceTransitGatewayPeeringAttachmentAccepterRead conn meta NotFound d st).1.2 ∧
  writes_within accepter d
    (resourceTransitGatewayPeeringAttachmentAccepterCreate conn meta NotFound d st).1.2 ∧
  (resourceTransitGatewayPeeringAttachmentAccepterUpdate conn d st).1.2 = d ∧
  (resourceTransitGatewayPeeringAttachmentAccepterDelete conn
     errCodeInvalidTransitGatewayAttachmentIDNotFound d st).1.2 = d ∧
  writes_within route_table d
    (resourceTransitGatewayRouteTableRead conn meta NotFound d st).1.2 ∧
  writes_within route_table d
    (resourceTransitGatewayRouteTableCreate conn meta NotFound d st).1.2 ∧
  (resourceTransitGatewayRouteTableUpdate conn d st).1.2 = d ∧
  (resourceTransitGatewayRouteTableDelete conn errCodeInvalidRouteTableIDNotFound
     d st).1.2 = d.
Proof.
  intros accepter route_table. destruct st as [w log].
  split; [|split; [|split; [|split; [|split; [|split; [|split]]]]]].
  - destruct (resourceTransitGatewayPeeringAttachmentAccepterRead_frame conn meta NotFound
                TagsSchema TagsSchemaComputed d w log)
      as (diags & d' & w' & calls & -> & _ & Hw & _). done.
  - unfold resourceTransitGatewayPeeringAttachmentAccepterCreate. steps.
    destruct (AcceptTransitGatewayPeeringAttachmentWithContext conn _ w)
      as [[output err] w1]. cbn [fst snd].
    destruct err as [e|]; simpl; [done|]. steps.
    destruct (WaitTransitGatewayPeeringAttachmentAccepted conn _ w1) as [werr w2].
    cbn [fst snd]. destruct werr as [e|]; [done|].
    rewrite bind_run.
    match goal with |- context [let '(_, _) := ?m in _] =>
      destruct m as [terr [w3 log3]] end.
    destruct terr as [e|]; [done|]. steps.
    destruct (resourceTransitGatewayPeeringAttachmentAccepterRead_frame conn meta NotFound
                TagsSchema TagsSchemaComputed
                (d_SetId d (StringValue (TransitGatewayAttachmentId output))) w3 log3)
      as (diags & d' & w' & calls & -> & _ & Hw & _).
    by apply writes_within_SetId_l in Hw.
  - unfold resourceTransitGatewayPeeringAttachmentAccepterUpdate.
    destruct (d_HasChange d "tags_all"); [|done]. steps.
    by destruct (UpdateTags conn _ w) as [[e|] w1].
  - unfold resourceTransitGatewayPeeringAttachmentAccepterDelete. steps.
    destruct (DeleteTransitGatewayPeeringAttachmentWithContext conn _ w) as [err w1].
    cbn [fst snd]. destruct (ErrCodeEquals _ _); [done|].
    destruct err as [e|]; simpl; [done|]. steps.
    by destruct (WaitTransitGatewayPeeringAttachmentDeleted conn _ w1) as [[e|] w2].
  - destruct (resourceTransitGatewayRouteTableRead_frame conn meta NotFound
                TagsSchema TagsSchemaComputed d w log)
      as (diags & d' & w' & -> & Hw & _). done.
  - unfold resourceTransitGatewayRouteTableCreate. steps.
    destruct (CreateTransitGatewayRouteTableWithContext conn _ w)
      as [[output err] w1]. cbn [fst snd].
    destruct err as [e|]; simpl; [done|]. steps.
    destruct (WaitTransitGatewayRouteTableCreated conn _ w1) as [werr w2].
    cbn [fst snd]. destruct werr as [e|]; [done|]. steps.
    match goal with
    | |- context [resourceTransitGatewayRouteTableRead conn meta NotFound ?d1 (?w', ?l')] =>
        destruct (resourceTransitGatewayRouteTableRead_frame conn meta NotFound
                    TagsSchema TagsSchemaComputed d1 w' l')
          as (diags & d' & w'' & -> & Hw & _)
    end.
    by apply writes_within_SetId_l in Hw.
  - unfold resourceTransitGatewayRouteTableUpdate.
    destruct (d_HasChange d "tags_all"); [|done]. steps.
    by destruct (UpdateTags conn _ w) as [[e|] w1].
  - unfold resourceTransitGatewayRouteTableDelete. steps.
    destruct (DeleteTransitGatewayRouteTableWithContext conn _ w) as [err w1].
    cbn [fst snd]. destruct (ErrCodeEquals _ _); [done|].
    destruct err as [e|]; simpl; [done|]. steps.
    by destruct (WaitTransitGatewayRouteTableDeleted conn _ w1) as [[e|] w2].
Qed.

(** The create of the route table, once the create request and the wait
    have succeeded: the route table is read back under the id the service
    returned, with one finder request, and a new resource keeps that id. *)
Theorem resourceTransitGatewayRouteTableCreate_success {W} (conn : EC2 W) meta NotFound
    d w log output w1 w2 :
  let input := routeTableInput meta d in
  let id := StringValue (TransitGatewayRouteTableId output) in
  CreateTransitGatewayRouteTableWithContext conn input w = ((output, None), w1) →
  WaitTransitGatewayRouteTableCreated conn id w1 = (None, w2) →
  ∃ diags d' w3,
    resourceTransitGatewayRouteTableCreate conn meta NotFound d (w, log)
    = ((diags, d'),
       (w3, log ++ [CreateTransitGatewayRouteTableCall input;
                    WaitTransitGatewayRouteTableCreatedCall id;
                    FindTransitGatewayRouteTableByIDCall id])) ∧
    (d_IsNewResource d = true → d_Id d' = id) ∧
    (d_Id d' = id ∨ d_Id d' = EmptyString).
Proof.
  intros input id Hcreate Hwait. unfold resourceTransitGatewayRouteTableCreate.
  fold (mergedTags meta d). fold (routeTableInput meta d). fold input.
  steps. rewrite Hcreate. simpl. steps. fold id. rewrite Hwait. cbn [fst snd]. steps.
  match goal with
  | |- context [resourceTransitGatewayRouteTableRead conn meta NotFound ?d1 (?w', ?l')] =>
      destruct (resourceTransitGatewayRouteTableRead_frame conn meta NotFound
                  (computed_field TypeMap) (computed_field TypeMap) d1 w' l')
        as (diags & d' & w3 & -> & _ & Hid)
  end.
  cbn [fst snd]. exists ([] ++ diags), d', w3.
  split; [by rewrite <- !app_assoc|].
  destruct Hid as [Hid|[Hold Hid]]; simpl in *.
  - split; [done|by left].
  - split; [|by right]. intros Hnew. unfold d_IsNewResource in *. simpl in Hold.
    congruence.
Qed.

Lemma resourceTransitGatewayRouteTableCreate_success_witness :
  let conn := ec2_returning accepted_attachment created_route_table None None
                None None None in
  let d := fresh_gateway_data ∅ in
  d_Id d = EmptyString ∧
  ∃ diags d' w3,
    resourceTransitGatewayRouteTableCreate conn client is_NotFoundError d ((), [])
    = ((diags, d'),
       (w3, [] ++ [CreateTransitGatewayRouteTableCall (routeTableInput client d);
                   WaitTransitGatewayRouteTableCreatedCall "tgw-rtb-1";
                   FindTransitGatewayRouteTableByIDCall "tgw-rtb-1"])) ∧
    (d_IsNewResource d = true → d_Id d' = "tgw-rtb-1") ∧
    (d_Id d' = "tgw-rtb-1" ∨ d_Id d' = EmptyString).
Proof.
  intros conn d. split; [reflexivity|].
  apply (resourceTransitGatewayRouteTableCreate_success conn client is_NotFoundError
           d () [] created_route_table () ()); reflexivity.
Defined.
